(** * PySyft automatic differential privacy: scalars, gamma tensors, wire form

    A shallow embedding of
      - [src/syft/lib/adp/scalar.py] (the scalar algebra and its accessors),
      - [packages/syft/src/syft/core/tensor/autodp/intermediate_gamma.py]
        (the array-shaped gamma tensor),
      - [src/syft/lib/syfertext/data/units/text_doc.py] (the wire form of a
        text document),
    together with the properties stated about them.

    Python objects live in an explicit heap, the process-wide [ssid2obj]
    dictionary is a finite map, exceptions are values of [exn], and code that
    may raise returns a [result]. *)

From Stdlib Require Import QArith Qminmax Qabs Lqa ZArith.
From stdpp Require Import gmap strings list.

Local Open Scope Z_scope.

(** ** Python exceptions and fallible computations *)

Inductive exn :=
| AttributeError (attr : string)
| TypeError (msg : string)
| KeyError
| IndexError
| ValueError
| AxisError
| Exception (msg : string).

Inductive result (A : Type) :=
| Ok (a : A)
| Raise (e : exn).
Arguments Ok {A} a.
Arguments Raise {A} e.

#[global] Instance result_ret : MRet result := λ A a, Ok a.
#[global] Instance result_bind : MBind result := λ A B f m,
  match m with Ok a => f a | Raise e => Raise e end.
#[global] Instance result_fmap : FMap result := λ A B f m,
  match m with Ok a => Ok (f a) | Raise e => Raise e end.

Definition raises {A} (m : result A) : Prop :=
  match m with Ok _ => False | Raise _ => True end.

Definition returns {A} (m : result A) : Prop :=
  match m with Ok _ => True | Raise _ => False end.

Lemma bind_Ok {A B} (m : result A) (f : A → result B) (b : B) :
  m ≫= f = Ok b → ∃ a, m = Ok a ∧ f a = Ok b.
Proof. destruct m as [a|e]; [|done]. intros H. by exists a. Qed.

(** ** numpy arrays

    An array is its shape and its items by multi-index.  Items are Python
    integers: the wrap-around of a fixed-width dtype is not modelled, so
    what is stated about arrays is stated about shapes, counts and the
    places of items, not about the results of arithmetic.  Only the
    operations the gamma tensor calls are modelled, each with the error
    numpy raises. *)

Module Numpy.

Record ndarray := { shape : list nat; item : list nat → Z }.

Definition ndim (a : ndarray) : nat := length (shape a).

(** The items of an array in row-major order. *)
Fixpoint indices (s : list nat) : list (list nat) :=
  match s with
  | [] => [[]]
  | n :: s' => k ← seq 0 n; (λ idx, k :: idx) <$> indices s'
  end.

Definition tolist (a : ndarray) : list Z := item a <$> indices (shape a).

(** [a.shape[-1]]: indexing an empty tuple raises. *)
Definition shape_last (a : ndarray) : result nat :=
  match last (shape a) with
  | Some n => Ok n
  | None => Raise IndexError
  end.

(** [a[..., k]] for [k] taken from a [range]. *)
Definition getitem_last (a : ndarray) (k : nat) : result ndarray :=
  match last (shape a) with
  | None => Raise IndexError
  | Some n =>
      if decide (k < n)%nat
      then Ok {| shape := removelast (shape a);
                 item := λ idx, item a (idx ++ [k]) |}
      else Raise IndexError
  end.

(** Broadcasting of two shapes, aligned at their trailing axes. *)
Fixpoint broadcast_rev (s1 s2 : list nat) : option (list nat) :=
  match s1, s2 with
  | [], s => Some s
  | s, [] => Some s
  | a :: r1, b :: r2 =>
      r ← broadcast_rev r1 r2;
      if decide (a = b) then Some (a :: r)
      else if decide (a = 1%nat) then Some (b :: r)
      else if decide (b = 1%nat) then Some (a :: r)
      else None
  end.

Definition broadcast_shapes (s1 s2 : list nat) : option (list nat) :=
  reverse <$> broadcast_rev (reverse s1) (reverse s2).

Definition broadcast_index (s idx : list nat) : list nat :=
  zip_with (λ d i, if decide (d = 1%nat) then 0%nat else i) s
           (drop (length idx - length s) idx).

Definition elementwise (f : Z → Z → Z) (a b : ndarray) : result ndarray :=
  match broadcast_shapes (shape a) (shape b) with
  | Some s =>
      Ok {| shape := s;
            item := λ idx, f (item a (broadcast_index (shape a) idx))
                             (item b (broadcast_index (shape b) idx)) |}
  | None => Raise ValueError
  end.

Definition multiply := elementwise Z.mul.
Definition add := elementwise Z.add.

(** [np.expand_dims(a, -1)] *)
Definition expand_dims_last (a : ndarray) : ndarray :=
  {| shape := shape a ++ [1%nat]; item := λ idx, item a (removelast idx) |}.

Definition trailing (a : ndarray) : nat := default 0%nat (last (shape a)).

Fixpoint pick (arrs : list ndarray) (lead : list nat) (k : nat) : Z :=
  match arrs with
  | [] => 0
  | a :: rest =>
      if decide (k < trailing a)%nat then item a (lead ++ [k])
      else pick rest lead (k - trailing a)
  end.

(** [np.concatenate(arrs, axis=-1)]: an empty list, a zero-dimensional array
    or arrays whose leading shapes differ raise [ValueError]. *)
Definition concatenate_last (arrs : list ndarray) : result ndarray :=
  match arrs with
  | [] => Raise ValueError
  | a0 :: _ =>
      if forallb (λ a, bool_decide (shape a ≠ [] ∧
                                    removelast (shape a) = removelast (shape a0))) arrs
      then Ok {| shape := removelast (shape a0) ++ [sum_list (trailing <$> arrs)];
                 item := λ idx, pick arrs (removelast idx) (default 0%nat (last idx)) |}
      else Raise ValueError
  end.

(** numpy's axis normalisation: negative axes count from the end. *)
Definition normalize_axis (nd : nat) (axis : Z) : result nat :=
  if decide (0 ≤ axis < Z.of_nat nd) then Ok (Z.to_nat axis)
  else if decide (- Z.of_nat nd ≤ axis < 0) then Ok (Z.to_nat (axis + Z.of_nat nd))
  else Raise AxisError.

Definition swap {A} (l : list A) (i j : nat) : list A :=
  match l !! i, l !! j with
  | Some x, Some y => <[i := y]> (<[j := x]> l)
  | _, _ => l
  end.

(** [np.swapaxes(a, axis1, axis2)] *)
Definition swapaxes (a : ndarray) (axis1 axis2 : Z) : result ndarray :=
  i ← normalize_axis (ndim a) axis1;
  j ← normalize_axis (ndim a) axis2;
  Ok {| shape := swap (shape a) i j; item := λ idx, item a (swap idx i j) |}.

Definition insert_at (i k : nat) (idx : list nat) : list nat :=
  take i idx ++ k :: drop i idx.

(** [a.squeeze(axis)]: the axis must have length one. *)
Definition squeeze (a : ndarray) (axis : Z) : result ndarray :=
  i ← normalize_axis (ndim a) axis;
  match shape a !! i with
  | Some 1%nat =>
      Ok {| shape := delete i (shape a); item := λ idx, item a (insert_at i 0 idx) |}
  | _ => Raise ValueError
  end.

(** [a.prod(axis)]; numpy lets a zero-dimensional array be reduced along
    axis 0 or -1 and returns its only item. *)
Definition prod (a : ndarray) (axis : Z) : result ndarray :=
  match shape a with
  | [] => if decide (axis = 0 ∨ axis = -1) then Ok a else Raise AxisError
  | _ =>
      i ← normalize_axis (ndim a) axis;
      match shape a !! i with
      | Some n =>
          Ok {| shape := delete i (shape a);
                item := λ idx, foldr (λ k acc, item a (insert_at i k idx) * acc) 1 (seq 0 n) |}
      | None => Raise AxisError
      end
  end.

(** [np.sum(n)] of a Python integer [n]: the integer itself, zero-dimensional. *)
Definition sum_of_int (n : Z) : ndarray := {| shape := []; item := λ _, n |}.

(** Array literals used in examples. *)
Definition scalar (n : Z) : ndarray := {| shape := []; item := λ _, n |}.
Definition vector (l : list Z) : ndarray :=
  {| shape := [length l]; item := λ idx, default 0 (i ← head idx; l !! i) |}.
Definition matrix (rows cols : nat) (l : list Z) : ndarray :=
  {| shape := [rows; cols];
     item := λ idx, match idx with
                    | [r; c] => default 0 (l !! (r * cols + c)%nat)
                    | _ => 0
                    end |}.

End Numpy.


(** ** IntermediateGammaTensor (intermediate_gamma.py) *)

Module GammaTensor.
Import Numpy.

(** A symbol factory is an identity token compared with [!=]. *)
Record IntermediateGammaTensor := {
  term_tensor : ndarray;
  coeff_tensor : ndarray;
  bias_tensor : ndarray;
  symbol_factory : nat
}.

(** Values passed by keyword to the constructor. *)
Inductive arg :=
| Array (a : ndarray)
| Factory (f : nat).

(** [__init__(self, term_tensor, coeff_tensor, symbol_factory, bias_tensor)] *)
Definition parameters : list string :=
  ["term_tensor"; "coeff_tensor"; "symbol_factory"; "bias_tensor"].

Fixpoint kwarg (kwargs : list (string * arg)) (name : string) : result arg :=
  match kwargs with
  | [] => Raise (TypeError "missing a required argument")
  | (k, v) :: rest => if decide (k = name) then Ok v else kwarg rest name
  end.

(** A call by keyword: Python raises [TypeError] for a keyword that is no
    parameter of the function, and for a parameter left without a value.
    [super().__init__(term_tensor)] (the passthrough wrapper) keeps the term
    tensor as its child and is not modelled further. *)
Definition __init__ (kwargs : list (string * arg)) : result IntermediateGammaTensor :=
  if forallb (λ kv, bool_decide (kv.1 ∈ parameters)) kwargs then
    t ← kwarg kwargs "term_tensor";
    c ← kwarg kwargs "coeff_tensor";
    f ← kwarg kwargs "symbol_factory";
    b ← kwarg kwargs "bias_tensor";
    match t, c, f, b with
    | Array t, Array c, Factory f, Array b =>
        Ok {| term_tensor := t; coeff_tensor := c; bias_tensor := b; symbol_factory := f |}
    | _, _, _, _ => Raise (TypeError "argument of the wrong kind")
    end
  else Raise (TypeError "got an unexpected keyword argument").

Definition tensor_shape (self : IntermediateGammaTensor) : list nat :=
  removelast (shape (term_tensor self)).

Definition full_shape (self : IntermediateGammaTensor) : list nat :=
  shape (term_tensor self).

(** [sum(self, dim)] *)
Definition sum (self : IntermediateGammaTensor) (dim : Z) : result IntermediateGammaTensor :=
  swapped ← swapaxes (term_tensor self) dim (-1);
  new_term_tensor ← squeeze swapped dim;
  swapped ← swapaxes (coeff_tensor self) dim (-1);
  new_coeff_tensor ← squeeze swapped dim;
  let new_bias_tensor := sum_of_int dim in
  __init__ [("term_tensor", Array new_term_tensor);
            ("coeff_tensor", Array new_coeff_tensor);
            ("bias_tensor", Array new_bias_tensor);
            ("symbol_factory", Factory (symbol_factory self))].

(** [prod(self, dim)]: the last keyword is spelled [bias_Tensor] in the source. *)
Definition prod (self : IntermediateGammaTensor) (dim : Z) : result IntermediateGammaTensor :=
  new_term_tensor ← Numpy.prod (term_tensor self) dim;
  new_coeff_tensor ← Numpy.prod (coeff_tensor self) dim;
  new_bias_tensor ← Numpy.prod (bias_tensor self) dim;
  __init__ [("term_tensor", Array new_term_tensor);
            ("coeff_tensor", Array new_coeff_tensor);
            ("bias_Tensor", Array new_bias_tensor);
            ("symbol_factory", Factory (symbol_factory self))].

(** The right operand of [+] and [*]: a value accepted by
    [is_acceptable_simple_type] (a number or plain array, here an array), or
    another gamma tensor. *)
Inductive operand :=
| Simple (c : ndarray)
| Gamma (t : IntermediateGammaTensor).

Definition mismatch : exn :=
  Exception "Cannot add two tensors with different symbol encodings".

(** [__add__(self, other)] *)
Definition __add__ (self : IntermediateGammaTensor) (other : operand)
  : result IntermediateGammaTensor :=
  '(term, coeff, bias) ←
    match other with
    | Simple c =>
        bias ← add (bias_tensor self) c;
        Ok (term_tensor self, coeff_tensor self, bias)
    | Gamma other =>
        if decide (symbol_factory self ≠ symbol_factory other) then Raise mismatch
        else
          term ← concatenate_last [term_tensor self; term_tensor other];
          coeff ← concatenate_last [coeff_tensor self; coeff_tensor other];
          bias ← add (bias_tensor self) (bias_tensor other);
          Ok (term, coeff, bias)
    end;
  __init__ [("term_tensor", Array term); ("coeff_tensor", Array coeff);
            ("bias_tensor", Array bias);
            ("symbol_factory", Factory (symbol_factory self))].

(** The three loops of [__mul__] that fill [terms].  The third loop runs over
    the length of [self]'s trailing axis and indexes [other] with [self_dim],
    the variable the second loop left at its last value. *)
Definition mul_terms (self_t other_t : ndarray) : result (list ndarray) :=
  m ← shape_last self_t;
  cross ← mapM (λ self_dim,
             n ← shape_last other_t;
             mapM (λ other_dim,
                a ← getitem_last self_t self_dim;
                b ← getitem_last other_t other_dim;
                ab ← multiply a b;
                Ok (expand_dims_last ab)) (seq 0 n)) (seq 0 m);
  m ← shape_last self_t;
  own ← mapM (λ self_dim,
             a ← getitem_last self_t self_dim;
             Ok (expand_dims_last a)) (seq 0 m);
  let self_dim := (m - 1)%nat in
  m ← shape_last self_t;
  others ← mapM (λ other_dim : nat,
             b ← getitem_last other_t self_dim;
             Ok (expand_dims_last b)) (seq 0 m);
  Ok (concat cross ++ own ++ others).

(** The three loops that fill [coeffs], with the same indexing. *)
Definition mul_coeffs (self other : IntermediateGammaTensor) : result (list ndarray) :=
  m ← shape_last (coeff_tensor self);
  cross ← mapM (λ self_dim,
             n ← shape_last (coeff_tensor other);
             mapM (λ other_dim,
                a ← getitem_last (coeff_tensor self) self_dim;
                b ← getitem_last (coeff_tensor other) other_dim;
                ab ← multiply a b;
                Ok (expand_dims_last ab)) (seq 0 n)) (seq 0 m);
  m ← shape_last (coeff_tensor self);
  own ← mapM (λ self_dim,
             a ← getitem_last (coeff_tensor self) self_dim;
             ab ← multiply a (bias_tensor other);
             Ok (expand_dims_last ab)) (seq 0 m);
  let self_dim := (m - 1)%nat in
  m ← shape_last (coeff_tensor self);
  others ← mapM (λ other_dim : nat,
             b ← getitem_last (coeff_tensor other) self_dim;
             ab ← multiply b (bias_tensor self);
             Ok (expand_dims_last ab)) (seq 0 m);
  Ok (concat cross ++ own ++ others).

(** [__mul__(self, other)] *)
Definition __mul__ (self : IntermediateGammaTensor) (other : operand)
  : result IntermediateGammaTensor :=
  '(term, coeff, bias) ←
    match other with
    | Simple c =>
        coeff ← multiply (coeff_tensor self) c;
        bias ← multiply (bias_tensor self) c;
        Ok (term_tensor self, coeff, bias)
    | Gamma other =>
        if decide (symbol_factory self ≠ symbol_factory other) then Raise mismatch
        else
          terms ← mul_terms (term_tensor self) (term_tensor other);
          term ← concatenate_last terms;
          coeffs ← mul_coeffs self other;
          coeff ← concatenate_last coeffs;
          bias ← multiply (bias_tensor self) (bias_tensor other);
          Ok (term, coeff, bias)
    end;
  __init__ [("term_tensor", Array term); ("coeff_tensor", Array coeff);
            ("bias_tensor", Array bias);
            ("symbol_factory", Factory (symbol_factory self))].

(** The (term, coefficient) pairs of a tensor, cell by cell in row-major
    order along the trailing axis. *)
Definition pairs (t : IntermediateGammaTensor) : list (Z * Z) :=
  zip (tolist (term_tensor t)) (tolist (coeff_tensor t)).

(** Example tensors over one cell: [2*a + 1] and [3*b1 + 5*b2 + 1], the
    terms being the prime codes 2, 3 and 5. *)
Definition one_term : IntermediateGammaTensor :=
  {| term_tensor := matrix 1 1 [2]; coeff_tensor := matrix 1 1 [2];
     bias_tensor := vector [1]; symbol_factory := 0 |}.

Definition two_terms : IntermediateGammaTensor :=
  {| term_tensor := matrix 1 2 [3; 5]; coeff_tensor := matrix 1 2 [3; 5];
     bias_tensor := vector [1]; symbol_factory := 0 |}.

(** A tensor of two cells with one term each, [[2], [3]]. *)
Definition column : IntermediateGammaTensor :=
  {| term_tensor := matrix 2 1 [2; 3]; coeff_tensor := matrix 2 1 [1; 1];
     bias_tensor := vector [0; 0]; symbol_factory := 0 |}.

(** The product of the first two, whatever the loops make of it. *)
Definition product_example : IntermediateGammaTensor :=
  match __mul__ one_term (Gamma two_terms) with
  | Ok r => r
  | Raise _ => one_term
  end.

(** A tensor minted by another symbol factory. *)
Definition other_factory : IntermediateGammaTensor :=
  {| term_tensor := matrix 1 1 [7]; coeff_tensor := matrix 1 1 [1];
     bias_tensor := vector [0]; symbol_factory := 1 |}.

End GammaTensor.


(** ** Symbolic polynomials (the part of sympy that scalar.py uses)

    A symbol is named by a scalar string identifier (ssid).  The constructors
    of [PhiScalar] and [GammaScalar] derive it from freshly drawn UIDs unless
    the caller passes one; a UID is modelled by its serial number, so derived
    names never coincide with a name passed as text.

    Expressions are kept as built: sympy's automatic collection of like terms
    is not modelled (it keeps the value of an expression and can only remove
    free symbols). *)

Module Sympy.

Abbreviation uid := nat (only parsing).

Inductive Ssid :=
| SsidOfId (u : uid)
| SsidOfIdEntity (u : uid) (e : uid)
| SsidGiven (s : string).

#[global] Instance Ssid_eq_dec : EqDecision Ssid.
Proof. solve_decision. Defined.

#[global] Instance Ssid_countable : Countable Ssid.
Proof.
  refine (inj_countable'
    (λ s, match s with
          | SsidOfId u => inl u
          | SsidOfIdEntity u e => inr (inl (u, e))
          | SsidGiven t => inr (inr t)
          end)
    (λ x, match x with
          | inl u => SsidOfId u
          | inr (inl (u, e)) => SsidOfIdEntity u e
          | inr (inr t) => SsidGiven t
          end) _).
  by intros [].
Defined.

Inductive expr :=
| Sym (s : Ssid)
| Num (c : Q)
| Add (p q : expr)
| Mul (p q : expr).

(** [-p] and [p - q] as sympy builds them. *)
Definition Neg (p : expr) : expr := Mul (Num (-1)) p.
Definition Sub (p q : expr) : expr := Add p (Neg q).

Fixpoint free_symbols (p : expr) : gset Ssid :=
  match p with
  | Sym s => {[ s ]}
  | Num _ => ∅
  | Add p q | Mul p q => free_symbols p ∪ free_symbols q
  end.

Fixpoint eval (ρ : Ssid → Q) (p : expr) : Q :=
  match p with
  | Sym s => ρ s
  | Num c => c
  | Add p q => (eval ρ p + eval ρ q)%Q
  | Mul p q => (eval ρ p * eval ρ q)%Q
  end.

(** [p.subs(d)] for a dictionary from symbols to numbers, read as a number;
    [None] when a symbol is left over. *)
Fixpoint subs (d : gmap Ssid Q) (p : expr) : option Q :=
  match p with
  | Sym s => d !! s
  | Num c => Some c
  | Add p q => x ← subs d p; y ← subs d q; Some (x + y)%Q
  | Mul p q => x ← subs d p; y ← subs d q; Some (x * y)%Q
  end.

(** [diff(p, s)] *)
Fixpoint diff (p : expr) (s : Ssid) : expr :=
  match p with
  | Sym s' => if decide (s' = s) then Num 1 else Num 0
  | Num _ => Num 0
  | Add p q => Add (diff p s) (diff q s)
  | Mul p q => Add (Mul (diff p s) q) (Mul p (diff q s))
  end.

End Sympy.

(** ** The scalar algebra (scalar.py) *)

Module Scalars.
Import Sympy.

Local Open Scope Q_scope.

(** An entity is an identity token: the UID it was given at creation. *)
Abbreviation Entity := nat (only parsing).

Abbreviation ref := nat (only parsing).

Inductive class :=
| PhiScalar
| GammaScalar
| IntermediatePhiScalar
| IntermediateGammaScalar.

#[global] Instance class_eq_dec : EqDecision class.
Proof. solve_decision. Defined.

(** An object and the attributes the constructors set.  [None] is an
    attribute the object does not have: [entity] on an
    [IntermediateGammaScalar], the three stored bounds and [ssid] on anything
    but an origin scalar. *)
Record object := {
  cls : class;
  id_ : uid;
  poly : expr;
  _gamma : option ref;
  entity : option Entity;
  _min_val : option Q;
  _value : option Q;
  _max_val : option Q;
  ssid : option Ssid
}.

(** The heap of objects, the process-wide registry [ssid2obj], and the
    supply of UIDs. *)
Record state := {
  heap : list object;
  ssid2obj : gmap Ssid ref;
  next_uid : uid
}.

Definition init : state := {| heap := []; ssid2obj := ∅; next_uid := 0%nat |}.

(** [isinstance] against the class hierarchy of scalar.py. *)
Definition isinstance_OriginScalar (o : object) : bool :=
  match cls o with PhiScalar | GammaScalar => true | _ => false end.

Definition isinstance_IntermediatePhiScalar (o : object) : bool :=
  match cls o with PhiScalar | IntermediatePhiScalar => true | _ => false end.

Definition isinstance_IntermediateGammaScalar (o : object) : bool :=
  match cls o with GammaScalar | IntermediateGammaScalar => true | _ => false end.

(** *** Computations that read and write the state and may raise *)

Definition M (A : Type) : Type := state → result (A * state).

#[global] Instance M_ret : MRet M := λ A a σ, Ok (a, σ).
#[global] Instance M_bind : MBind M := λ A B f m σ,
  match m σ with
  | Ok (a, σ') => f a σ'
  | Raise e => Raise e
  end.

Definition throw {A} (e : exn) : M A := λ _, Raise e.

Definition attr {A} (name : string) (field : option A) : M A :=
  match field with
  | Some v => mret v
  | None => throw (AttributeError name)
  end.

(** The four ways a computation changes the state: a UID is drawn, an
    object is created, an object is assigned to, a symbol is registered. *)
Definition bump (σ : state) : state :=
  {| heap := heap σ; ssid2obj := ssid2obj σ; next_uid := S (next_uid σ) |}.

Definition push (o : object) (σ : state) : state :=
  {| heap := heap σ ++ [o]; ssid2obj := ssid2obj σ; next_uid := next_uid σ |}.

Definition put (r : ref) (o : object) (σ : state) : state :=
  {| heap := <[r := o]> (heap σ); ssid2obj := ssid2obj σ; next_uid := next_uid σ |}.

Definition bind_ssid (key : Ssid) (r : ref) (σ : state) : state :=
  {| heap := heap σ; ssid2obj := <[key := r]> (ssid2obj σ); next_uid := next_uid σ |}.

(** [UID()] *)
Definition UID : M uid := λ σ, Ok (next_uid σ, bump σ).

(** [Entity()]: a new anonymous entity. *)
Definition new_Entity : M Entity := UID.

Definition alloc (o : object) : M ref := λ σ, Ok (length (heap σ), push o σ).

Definition load (r : ref) : M object := λ σ,
  match heap σ !! r with
  | Some o => Ok (o, σ)
  | None => Raise (Exception "no such object")
  end.

Definition store (r : ref) (o : object) : M unit := λ σ, Ok (tt, put r o σ).

(** [ssid2obj[key] = r] *)
Definition register (key : Ssid) (r : ref) : M unit := λ σ, Ok (tt, bind_ssid key r σ).

(** [ssid2obj[key]] *)
Definition lookup_ssid (key : Ssid) : M ref := λ σ,
  match ssid2obj σ !! key with
  | Some r => Ok (r, σ)
  | None => Raise KeyError
  end.

(** *** Constructors *)

(** [IntermediatePhiScalar(poly, entity)]: [IntermediateScalar.__init__]
    stores the polynomial, clears the gamma cache and draws a UID. *)
Definition intermediate (c : class) (i : uid) (p : expr) (e : option Entity) : object :=
  {| cls := c; id_ := i; poly := p; _gamma := None; entity := e;
     _min_val := None; _value := None; _max_val := None; ssid := None |}.

Definition new_IntermediatePhiScalar (p : expr) (e : Entity) : M ref :=
  i ← UID;
  alloc (intermediate IntermediatePhiScalar i p (Some e)).

(** [IntermediateGammaScalar(poly)] *)
Definition new_IntermediateGammaScalar (p : expr) : M ref :=
  i ← UID;
  alloc (intermediate IntermediateGammaScalar i p None).

(** [OriginScalar.__init__]: [id if id else UID()], then
    [entity if entity is not None else Entity()]. *)
Definition OriginScalar_init (e : option Entity) (i : option uid) : M (uid * Entity) :=
  i ← match i with Some i => mret i | None => UID end;
  e ← match e with Some e => mret e | None => new_Entity end;
  mret (i, e).

Definition origin (c : class) (i : uid) (s : Ssid) (e : Entity)
    (min_val value max_val : Q) : object :=
  {| cls := c; id_ := i; poly := Sym s; _gamma := None; entity := Some e;
     _min_val := Some min_val; _value := Some value; _max_val := Some max_val;
     ssid := Some s |}.

(** [PhiScalar(min_val, value, max_val, entity, id, ssid)].  The ssid
    defaults to the text of the id drawn by [OriginScalar.__init__];
    [IntermediatePhiScalar.__init__] then replaces [self.id] by a new UID.
    An ssid passed in is taken to be a plain name, of which [symbols] makes
    one symbol; a text with blanks, commas or colons, which [symbols] would
    split, and the empty text, on which it raises, are not modelled. *)
Definition new_PhiScalar (min_val value max_val : Q)
    (e : option Entity) (i : option uid) (s : option Ssid) : M ref :=
  '(i, e) ← OriginScalar_init e i;
  let s := match s with Some s => s | None => SsidOfId i end in
  i' ← UID;
  r ← alloc (origin PhiScalar i' s e min_val value max_val);
  _ ← register s r;
  mret r.

(** [GammaScalar(min_val, value, max_val, entity, id, ssid)]: the default
    ssid joins the text of the id and of the entity's id.  An ssid passed
    in is a plain name, as for [PhiScalar]. *)
Definition new_GammaScalar (min_val value max_val : Q)
    (e : option Entity) (i : option uid) (s : option Ssid) : M ref :=
  '(i, e) ← OriginScalar_init e i;
  let s := match s with Some s => s | None => SsidOfIdEntity i e end in
  i' ← UID;
  r ← alloc (origin GammaScalar i' s e min_val value max_val);
  _ ← register s r;
  mret r.

(** *** Properties of [IntermediateScalar] *)

(** [input_polys]: the free symbols, in the order the set yields them. *)
Definition input_polys (self : ref) : M (list Ssid) :=
  o ← load self;
  mret (elements (free_symbols (poly o))).

Fixpoint for_each {A B} (f : A → M B) (l : list A) : M (list B) :=
  match l with
  | [] => mret []
  | x :: l => y ← f x; ys ← for_each f l; mret (y :: ys)
  end.

(** [input_scalars] *)
Definition input_scalars (self : ref) : M (list ref) :=
  ssids ← input_polys self;
  for_each lookup_ssid ssids.

(** [input_entities]: [list(set(...))], a list without repetition. *)
Definition input_entities (self : ref) : M (list Entity) :=
  scalars ← input_scalars self;
  es ← for_each (λ x, o ← load x; attr "entity" (entity o)) scalars;
  mret (elements (list_to_set es : gset Entity)).

(** The dictionary [{obj.poly: obj.value for obj in self.input_scalars}].
    Every object in [ssid2obj] was put there by the constructor of an origin
    scalar, so [obj.value] is [OriginScalar.value] and [obj.poly] a symbol. *)
Definition value_dict (self : ref) : M (gmap Ssid Q) :=
  scalars ← input_scalars self;
  foldl (λ acc x,
           d ← acc;
           o ← load x;
           v ← attr "_value" (_value o);
           mret (match poly o with Sym k => <[k := v]> d | _ => d end))
        (mret ∅) scalars.

Section Accessors.

(** [flatten_and_maximize_poly(p)[-1].fun] of search.py, which is not among
    the sources: the objective value the extremum search ends with. *)
Variable flatten_and_maximize_poly : state → expr → Q.

(** [min_val]: for an origin scalar [OriginScalar.min_val] comes first in
    the method resolution order. *)
Definition min_val (self : ref) : M Q :=
  o ← load self;
  if isinstance_OriginScalar o then attr "_min_val" (_min_val o)
  else λ σ, Ok (flatten_and_maximize_poly σ (poly o), σ).

Definition max_val (self : ref) : M Q :=
  o ← load self;
  if isinstance_OriginScalar o then attr "_max_val" (_max_val o)
  else λ σ, Ok (- flatten_and_maximize_poly σ (Neg (poly o)), σ).

Definition value (self : ref) : M Q :=
  o ← load self;
  if isinstance_OriginScalar o then attr "_value" (_value o)
  else
    d ← value_dict self;
    match subs d (poly o) with
    | Some v => mret v
    | None => throw (TypeError "the value is still symbolic")
    end.

Definition with_gamma (g : ref) (o : object) : object :=
  {| cls := cls o; id_ := id_ o; poly := poly o; _gamma := Some g;
     entity := entity o; _min_val := _min_val o; _value := _value o;
     _max_val := _max_val o; ssid := ssid o |}.

(** [IntermediatePhiScalar.gamma]: the cached promotion of a phi value. *)
Definition gamma (self : ref) : M ref :=
  o ← load self;
  match _gamma o with
  | Some g => mret g
  | None =>
      lo ← min_val self;
      v ← value self;
      hi ← max_val self;
      e ← attr "entity" (entity o);
      g ← new_GammaScalar lo v hi (Some e) None None;
      o ← load self;
      _ ← store self (with_gamma g o);
      mret g
  end.

(** The right operand of an operator: a public number or a scalar object. *)
Inductive operand :=
| Public (c : Q)
| Scalar (r : ref).

(** The three operators differ only in how they join two polynomials. *)
Inductive operator := OpAdd | OpSub | OpMul.

Definition join (op : operator) (p q : expr) : expr :=
  match op with
  | OpAdd => Add p q
  | OpSub => Sub p q
  | OpMul => Mul p q
  end.

(** [IntermediateGammaScalar.__add__], [__sub__], [__mul__] *)
Definition gamma_op (op : operator) (self : ref) (other : operand) : M ref :=
  match other with
  | Scalar r =>
      oo ← load r;
      r ← (if isinstance_IntermediatePhiScalar oo then gamma r else mret r);
      so ← load self;
      oo ← load r;
      new_IntermediateGammaScalar (join op (poly so) (poly oo))
  | Public c =>
      so ← load self;
      new_IntermediateGammaScalar (join op (poly so) (Num c))
  end.

(** [IntermediatePhiScalar.__add__], [__sub__], [__mul__].  The test for a
    public value is [not isinstance(other, Scalar)] in [__add__] and
    [not isinstance(other, IntermediatePhiScalar)] in the other two; on a
    gamma operand the first branch has already returned, so they agree on
    every operand modelled here. *)
Definition phi_op (op : operator) (self : ref) (other : operand) : M ref :=
  match other with
  | Public c =>
      so ← load self;
      e ← attr "entity" (entity so);
      new_IntermediatePhiScalar (join op (poly so) (Num c)) e
  | Scalar r =>
      oo ← load r;
      if isinstance_IntermediateGammaScalar oo then
        g ← gamma self;
        gamma_op op g other
      else
        so ← load self;
        se ← attr "entity" (entity so);
        oe ← attr "entity" (entity oo);
        if decide (se = oe) then
          new_IntermediatePhiScalar (join op (poly so) (poly oo)) se
        else
          g ← gamma self;
          g' ← gamma r;
          gamma_op op g (Scalar g')
  end.

(** [self + other], [self - other], [self * other]: dispatch on the class of
    the left operand. *)
Definition binop (op : operator) (self : ref) (other : operand) : M ref :=
  o ← load self;
  if isinstance_IntermediatePhiScalar o then phi_op op self other
  else gamma_op op self other.

Definition __add__ := binop OpAdd.
Definition __sub__ := binop OpSub.
Definition __mul__ := binop OpMul.

(** *** Programs: chains of constructions and operators

    A reference names the object a Python variable is bound to: the
    [n]-th object created. *)
Inductive command :=
| NewPhi (min_val value max_val : Q) (e : option Entity) (i : option uid) (s : option Ssid)
| NewGamma (min_val value max_val : Q) (e : option Entity) (i : option uid) (s : option Ssid)
| Binop (op : operator) (self : ref) (other : operand).

Definition run (c : command) : M ref :=
  match c with
  | NewPhi lo v hi e i s => new_PhiScalar lo v hi e i s
  | NewGamma lo v hi e i s => new_GammaScalar lo v hi e i s
  | Binop op self other => binop op self other
  end.

Fixpoint exec (prog : list command) : M unit :=
  match prog with
  | [] => mret tt
  | c :: prog => _ ← run c; exec prog
  end.

End Accessors.

(** *** What the registry knows about a symbol *)

Definition leaf (σ : state) (s : Ssid) : option object :=
  r ← ssid2obj σ !! s; heap σ !! r.

Definition leaf_value (σ : state) (s : Ssid) : Q :=
  default 0 (leaf σ s ≫= _value).

(** The box of the free symbols of [p]: every symbol within the stored
    bounds of the origin scalar registered under it. *)
Definition in_box (σ : state) (p : expr) (ρ : Ssid → Q) : Prop :=
  ∀ s, s ∈ free_symbols p →
    ∃ o lo hi, leaf σ s = Some o ∧ _min_val o = Some lo ∧ _max_val o = Some hi ∧
               lo <= ρ s <= hi.

(** Modelled from the spec: [flatten_and_maximize_poly] of search.py, which
    is not among the sources.  The spec has [min_val] and [max_val]
    "maximize/minimize the expression over the box constraints of its free
    symbols"; of that, the bound invariant uses that the result of the search
    lies below the polynomial everywhere on the box. *)
Definition sound (search : state → expr → Q) : Prop :=
  ∀ σ p ρ, in_box σ p ρ → search σ p <= eval ρ p.

(** The whole of it: the result is the least value on the box. *)
Definition exact (search : state → expr → Q) (σ : state) (p : expr) : Prop :=
  (∀ ρ, in_box σ p ρ → search σ p <= eval ρ p) ∧
  (∃ ρ, in_box σ p ρ ∧ eval ρ p == search σ p).

(** A construction with ordered bounds; operators ask nothing. *)
Definition well_ordered (c : command) : Prop :=
  match c with
  | NewPhi lo v hi _ _ _ | NewGamma lo v hi _ _ _ => lo <= v <= hi
  | Binop _ _ _ => True
  end.

(** *** Invariants of the heap and the registry *)

Definition has_bounds (o : object) : Prop :=
  is_Some (_min_val o) ∧ is_Some (_value o) ∧ is_Some (_max_val o).

(** Every registered symbol names an object that stores bounds and whose
    polynomial is that symbol; every polynomial mentions registered symbols
    only; origin scalars store their bounds. *)
Record structured (σ : state) : Prop := {
  registered_leaf : ∀ s r, ssid2obj σ !! s = Some r →
    ∃ o, heap σ !! r = Some o ∧ poly o = Sym s ∧ has_bounds o;
  closed : ∀ r o, heap σ !! r = Some o →
    ∀ s, s ∈ free_symbols (poly o) → is_Some (ssid2obj σ !! s);
  origin_bounds : ∀ r o, heap σ !! r = Some o →
    isinstance_OriginScalar o = true → has_bounds o
}.

(** Stored bounds are ordered. *)
Definition ordered (σ : state) : Prop :=
  ∀ r o lo v hi, heap σ !! r = Some o →
    _min_val o = Some lo → _value o = Some v → _max_val o = Some hi →
    lo <= v <= hi.

Definition consistent (σ : state) : Prop := structured σ ∧ ordered σ.

(** A cached promotion is a [GammaScalar] of the same entity, registered
    under the symbol its constructor derived. *)
Definition cached (σ : state) : Prop :=
  ∀ r o g, heap σ !! r = Some o → _gamma o = Some g →
    ∃ og u e, heap σ !! g = Some og ∧ cls og = GammaScalar ∧
              poly og = Sym (SsidOfIdEntity u e) ∧ entity og = entity o ∧
              ssid2obj σ !! SsidOfIdEntity u e = Some g.

(** UIDs not drawn yet name no registered symbol. *)
Definition fresh (σ : state) : Prop :=
  ∀ u e, is_Some (ssid2obj σ !! SsidOfIdEntity u e) → (u < next_uid σ)%nat.

Definition wf (σ : state) : Prop := structured σ ∧ cached σ ∧ fresh σ.

(** The state a first promotion of the object [o] at [r] leaves: two UIDs
    drawn, the new [GammaScalar] created and registered, the cache set. *)
Definition promotion (lo v hi : Q) (e : Entity) (σ : state) : object :=
  origin GammaScalar (S (next_uid σ)) (SsidOfIdEntity (next_uid σ) e) e lo v hi.

Definition promoted (r : ref) (o : object) (lo v hi : Q) (e : Entity) (σ : state) : state :=
  put r (with_gamma (length (heap σ)) o)
    (bind_ssid (SsidOfIdEntity (next_uid σ) e) (length (heap σ))
       (push (promotion lo v hi e σ) (bump (bump σ)))).

(** The entity of the origin scalar registered under a symbol. *)
Definition leaf_entity (σ : state) (s : Ssid) : Entity :=
  default 0%nat (leaf σ s ≫= entity).

(** What an operator may do to the state: objects are added and keep their
    class, and a registry entry that is new or changed names a [GammaScalar]
    created meanwhile. *)
Record grows (σ σ' : state) : Prop := {
  grows_length : (length (heap σ) ≤ length (heap σ'))%nat;
  grows_heap : ∀ r o, heap σ !! r = Some o →
    ∃ o', heap σ' !! r = Some o' ∧ cls o' = cls o;
  grows_registry : ∀ s x, ssid2obj σ' !! s = Some x →
    ssid2obj σ !! s = Some x ∨
    ((length (heap σ) ≤ x)%nat ∧ ∃ o, heap σ' !! x = Some o ∧ cls o = GammaScalar)
}.

(** Operands that call for no promotion: a public number, two phi values of
    one entity, or two gamma values. *)
Definition no_promotion (σ : state) (self : ref) (other : operand) : Prop :=
  match other with
  | Public _ => True
  | Scalar x =>
      ∃ oa ob, heap σ !! self = Some oa ∧ heap σ !! x = Some ob ∧
        ((isinstance_IntermediatePhiScalar oa = true ∧
          isinstance_IntermediatePhiScalar ob = true ∧ entity oa = entity ob) ∨
         (isinstance_IntermediatePhiScalar oa = false ∧
          isinstance_IntermediatePhiScalar ob = false))
  end.

(** Commands that leave the naming of promotions alone: no [GammaScalar]
    with an id of the caller's, no ssid of the derived form passed in. *)
Definition derived_name (s : option Ssid) : Prop :=
  match s with
  | Some (SsidOfIdEntity _ _) => True
  | _ => False
  end.

Definition plain (c : command) : Prop :=
  match c with
  | NewPhi _ _ _ _ _ s => ¬ derived_name s
  | NewGamma _ _ _ _ i s => i = None ∧ ¬ derived_name s
  | Binop _ _ _ => True
  end.

(** *** Values under the operators *)

(** The arithmetic an operator stands for. *)
Definition operate (op : operator) (x y : Q) : Q :=
  match op with
  | OpAdd => x + y
  | OpSub => x - y
  | OpMul => x * y
  end.

(** The polynomial of an object at the stored values of its symbols. *)
Definition val (σ : state) (o : object) : Q := eval (leaf_value σ) (poly o).

(** Constructions that leave every name to the constructor: no id and no
    ssid passed in. *)
Definition default_named (c : command) : Prop :=
  match c with
  | NewPhi _ _ _ _ i s | NewGamma _ _ _ _ i s => i = None ∧ s = None
  | Binop _ _ _ => True
  end.

(** UIDs not drawn yet name no registered symbol of a [PhiScalar] either. *)
Definition fresh_id (σ : state) : Prop :=
  ∀ u, is_Some (ssid2obj σ !! SsidOfId u) → (u < next_uid σ)%nat.

(** An origin scalar is the object registered under its own symbol. *)
Definition self_registered (σ : state) : Prop :=
  ∀ r o, heap σ !! r = Some o → isinstance_OriginScalar o = true →
    ∃ s, poly o = Sym s ∧ ssid2obj σ !! s = Some r.

(** A cached promotion has the value of the scalar it promotes. *)
Definition cache_valued (σ : state) : Prop :=
  ∀ r o g, heap σ !! r = Some o → _gamma o = Some g →
    ∃ og, heap σ !! g = Some og ∧ val σ og = val σ o.

(** A phi value has an entity. *)
Definition entitled (σ : state) : Prop :=
  ∀ r o, heap σ !! r = Some o → isinstance_IntermediatePhiScalar o = true →
    is_Some (entity o).

(** The entities behind the polynomial of an object. *)
Definition ents (σ : state) (o : object) : gset nat :=
  set_map (leaf_entity σ) (free_symbols (poly o)).

(** Every registered object has an entity, and the symbols of a phi value,
    of which there is one at least, are those of leaves of its entity. *)
Definition owned (σ : state) : Prop :=
  (∀ s x o, ssid2obj σ !! s = Some x → heap σ !! x = Some o → is_Some (entity o)) ∧
  (∀ r o e, heap σ !! r = Some o → isinstance_IntermediatePhiScalar o = true →
     entity o = Some e → ents σ o = {[ e ]}).

Definition settled (σ : state) : Prop :=
  wf σ ∧ fresh_id σ ∧ self_registered σ ∧ cache_valued σ ∧ entitled σ ∧ owned σ.

(** A later state that has kept what an earlier one had: every registered
    symbol, and every object but for a cache that was empty and now names an
    object created since. *)
Record extends (σ σ' : state) : Prop := {
  extends_registry : ∀ s x, ssid2obj σ !! s = Some x → ssid2obj σ' !! s = Some x;
  extends_heap : ∀ r o, heap σ !! r = Some o →
    ∃ o', heap σ' !! r = Some o' ∧
          cls o' = cls o ∧ id_ o' = id_ o ∧ poly o' = poly o ∧ entity o' = entity o ∧
          _min_val o' = _min_val o ∧ _value o' = _value o ∧ _max_val o' = _max_val o ∧
          ssid o' = ssid o ∧
          (_gamma o' = _gamma o ∨
           (_gamma o = None ∧ ∃ g, _gamma o' = Some g ∧ (length (heap σ) ≤ g)%nat))
}.

(** An object [o] at [x] whose cache was empty and is set in the later
    state: [o] is a phi value, and its [_gamma] names a [GammaScalar] of its
    entity that was created since. *)
Definition fills_cache (σ σ' : state) (x : ref) (o : object) : Prop :=
  isinstance_IntermediatePhiScalar o = true ∧ _gamma o = None ∧
  ∃ g og, (length (heap σ) ≤ g)%nat ∧ heap σ' !! x = Some (with_gamma g o) ∧
          heap σ' !! g = Some og ∧ cls og = GammaScalar ∧ entity og = entity o.

(** Only origin scalars are registered. *)
Definition registered_origin (σ : state) : Prop :=
  ∀ s r o, ssid2obj σ !! s = Some r → heap σ !! r = Some o →
    isinstance_OriginScalar o = true.

(** *** An extremum search by interval arithmetic

    One total function that bounds a polynomial from below over the box of
    its symbols; it stands in for the absent search wherever a concrete
    search is needed. *)
Definition Qmin4 (a b c d : Q) : Q := Qmin (Qmin a b) (Qmin c d).
Definition Qmax4 (a b c d : Q) : Q := Qmax (Qmax a b) (Qmax c d).

Fixpoint interval (σ : state) (p : expr) : Q * Q :=
  match p with
  | Sym s =>
      match leaf σ s with
      | Some o => (default 0 (_min_val o), default 0 (_max_val o))
      | None => (0, 0)
      end
  | Num c => (c, c)
  | Add p q =>
      let '(a, b) := interval σ p in
      let '(c, d) := interval σ q in
      (a + c, b + d)
  | Mul p q =>
      let '(a, b) := interval σ p in
      let '(c, d) := interval σ q in
      (Qmin4 (a * c) (a * d) (b * c) (b * d), Qmax4 (a * c) (a * d) (b * c) (b * d))
  end.

Definition interval_search (σ : state) (p : expr) : Q := fst (interval σ p).

(** *** Example programs *)

(** [x = PhiScalar(0, 5, 10, entity=X)], [y = PhiScalar(0, 3, 10, entity=Y)],
    [d = x * 2], [s = d + y], [t = s - x]: the objects 0, 1, 2, 5 and 7; the
    objects 3, 4 and 6 are the promotions of [d], [y] and [x]. *)
Definition chain : list command :=
  [NewPhi 0 5 10 (Some 0%nat) None None;
   NewPhi 0 3 10 (Some 1%nat) None None;
   Binop OpMul 0%nat (Public 2);
   Binop OpAdd 2%nat (Scalar 1%nat);
   Binop OpSub 5%nat (Scalar 0%nat)].

(** The two leaves of the examples alone. *)
Definition two_leaves : list command :=
  [NewPhi 0 5 10 (Some 0%nat) None None;
   NewPhi 0 3 10 (Some 1%nat) None None].

(** The state after [x + y] on the two leaves. *)
Definition after (m : M ref) (σ : state) : state :=
  match m σ with
  | Ok (_, σ') => σ'
  | Raise _ => σ
  end.

Definition final (search : state → expr → Q) (prog : list command) : state :=
  match exec search prog init with
  | Ok (_, σ) => σ
  | Raise _ => init
  end.



End Scalars.


(** ** Sensitivity: the Lipschitz accessors and the explicit search *)

Module Search.
Import Sympy Scalars.

Local Open Scope Q_scope.

(** What is read of scipy's [OptimizeResult]: the point found, the objective
    there, and whether the optimizer converged. *)
Record OptimizeResult := {
  x : Ssid → Q;
  fun_ : Q;
  success : bool
}.

(** An entry of the list of results of a search: a float or an
    [OptimizeResult]. *)
Inductive search_result :=
| Float (v : Q)
| Optimized (r : OptimizeResult).

Section Jacobian.

Variable flatten_and_maximize_poly : state → expr → Q.

(** The bounded minimisation of scipy: from the state (for the box) and the
    objective, a point and whether the optimizer converged. *)
Variable minimize : state → ((Ssid → Q) → Q) → (Ssid → Q) * bool.

(** The magnitude of a vector of derivatives, a norm on floats. *)
Variable magnitude : list Q → Q.

(** The input symbols a perturbation may move: all of them, or those whose
    origin scalar belongs to the named entity. *)
Definition belongs (σ : state) (input_entity : option Entity) (s : Ssid) : bool :=
  match input_entity with
  | None => true
  | Some e => bool_decide (leaf σ s ≫= entity = Some e)
  end.

Definition wrt_symbols (σ : state) (p : expr) (input_entity : option Entity) : list Ssid :=
  filter (λ s, Is_true (belongs σ input_entity s)) (elements (free_symbols p)).

Definition gradient (σ : state) (p : expr) (input_entity : option Entity) : list expr :=
  diff p <$> wrt_symbols σ p input_entity.

(** The objective handed to the optimizer: the negated magnitude of the
    derivatives, since the optimizer minimises. *)
Definition objective (σ : state) (p : expr) (input_entity : option Entity)
    (ρ : Ssid → Q) : Q :=
  - magnitude (eval ρ <$> gradient σ p input_entity).


(** The optimizer run on the objective; a run that does not converge is an
    error. *)
Definition optimize (p : expr) (input_entity : option Entity)
  : M (list search_result * unit) :=
  λ σ,
    let '(pt, ok) := minimize σ (objective σ p input_entity) in
    if ok
    then Ok (([Optimized {| x := pt; fun_ := objective σ p input_entity pt;
                            success := true |}], tt), σ)
    else Raise (Exception "the search did not converge").

(** Modelled from the spec: [max_lipschitz_via_jacobian] of search.py, which
    is not among the sources, called with [scalars=[self]].  The spec has it
    compute "the partial derivative of the target polynomial with respect to
    either all input scalars or only those belonging to one named entity",
    then perform "a bounded optimization over the same box constraints to
    find the input configuration maximizing the derivative's magnitude", and
    "fail loudly (not silently return a wrong bound) if the optimizer fails
    to converge".  It returns the list of results and the objective. *)
Definition search_max_lipschitz_via_jacobian (self : ref) (input_entity : option Entity)
  : M (list search_result * unit) :=
  o ← load self;
  _ ← input_scalars self;
  optimize (poly o) input_entity.

(** [IntermediateGammaScalar.max_lipschitz_via_jacobian] with its default
    arguments but for [input_entity]. *)
Definition max_lipschitz_via_jacobian (self : ref) (input_entity : option Entity)
  : M (list search_result * unit) :=
  search_max_lipschitz_via_jacobian self input_entity.

(** [-result] for a float, [-float(result.fun)] otherwise. *)
Definition negated (result : search_result) : Q :=
  match result with
  | Float v => - v
  | Optimized r => - fun_ r
  end.

(** [results[0][-1]] *)
Definition last_result (results : list search_result * unit) : M search_result :=
  match last (fst results) with
  | Some result => mret result
  | None => throw IndexError
  end.

(** [IntermediateGammaScalar.max_lipschitz] *)
Definition gamma_max_lipschitz (self : ref) : M Q :=
  results ← max_lipschitz_via_jacobian self None;
  result ← last_result results;
  mret (negated result).


(** [max_lipschitz] and [max_lipschitz_wrt_entity] of any scalar: a phi
    value hands over to its promotion. *)
Definition max_lipschitz (self : ref) : M Q :=
  o ← load self;
  if isinstance_IntermediatePhiScalar o
  then g ← gamma flatten_and_maximize_poly self; gamma_max_lipschitz g
  else gamma_max_lipschitz self.


End Jacobian.



End Search.

(** ** The constraints of the explicit search

    [IntermediateGammaScalar.max_lipschitz_via_explicit_search] up to its call
    of [minimize_function]: the bounds [rranges] and the list [constraints]
    it hands over. *)

Module ExplicitSearch.
Import Sympy Scalars.

Local Open Scope Q_scope.

(** The function of an entry [{'type': 'ineq', 'fun': f}] of the constraint
    list, on the symbol vector.  The lambdas [f1] and [f2] return a sum of
    floats; [non_negative_additive_terms] returns [out ** 0.5 - slack], kept
    as [out] and the slack since the rationals have no square root. *)
Inductive constraint_fun :=
| Lambda (f : list Q → result Q)
| RootLess (out : list Q → result Q) (slack : Q).

(** Whether the optimizer accepts the vector: [fun(x) >= 0], which for a
    sum of squares [out] and a slack that is not negative is
    [out >= slack ** 2]. *)
Definition holds (c : constraint_fun) (x : list Q) : result bool :=
  match c with
  | Lambda f => v ← f x; mret (Qle_bool 0 v)
  | RootLess out slack => v ← out x; mret (Qle_bool (slack * slack) v)
  end.

(** [l[i]] *)
Definition index {A} (l : list A) (i : nat) : result A :=
  match l !! i with
  | Some a => Ok a
  | None => Raise IndexError
  end.

(** [d[key]] *)
Definition getitem {A} (d : gmap Ssid A) (key : Ssid) : result A :=
  match d !! key with
  | Some a => Ok a
  | None => Raise KeyError
  end.

(** [symbol.name]: an expression that is no symbol has no name. *)
Definition name (p : expr) : result Ssid :=
  match p with
  | Sym s => Ok s
  | _ => Raise (AttributeError "name")
  end.

Definition lift {A} (m : result A) : M A :=
  λ σ, match m with Ok a => Ok (a, σ) | Raise e => Raise e end.

(** [f1] and [f2] of the loop, with [i] bound at definition: the lists are
    indexed when the optimizer calls the function. *)
Definition f1 (r2_indices_list : list (list nat)) (min_max_list : list (Q * Q))
    (i : nat) (x : list Q) : result Q :=
  r2_indices ← index r2_indices_list i;
  a ← index r2_indices 0 ≫= index x;
  b ← index r2_indices 1 ≫= index x;
  min_max ← index min_max_list i;
  mret (a + b + fst min_max).

Definition f2 (r2_indices_list : list (list nat)) (min_max_list : list (Q * Q))
    (i : nat) (x : list Q) : result Q :=
  r2_indices ← index r2_indices_list i;
  a ← index r2_indices 0 ≫= index x;
  b ← index r2_indices 1 ≫= index x;
  min_max ← index min_max_list i;
  mret (- (a + b) + snd min_max).

(** [out] of [non_negative_additive_terms] when the loop ends. *)
Definition additive_terms (s2i : gmap Ssid nat) (r2_diffs : list expr)
    (symbol_vector : list Q) : result Q :=
  indices ← mapM (λ x, name x ≫= getitem s2i) r2_diffs;
  foldl (λ acc i, out ← acc; v ← index symbol_vector i; mret (out + v * v))
        (mret 0) indices.

Section Tables.

Variable flatten_and_maximize_poly : state → expr → Q.

(** [i2s, s2i = create_lookup_tables_for_symbol(C)] of search.py, which is
    not among the sources: the symbols of the ratio in the order of the
    symbol vector, and the index of each. *)
Variable i2s : list Ssid.
Variable s2i : gmap Ssid nat.

(** [GammaScalar(x.min_val, x.value, x.max_val, entity=x.entity).poly] *)
Definition additive_counterpart (x : ref) : M expr :=
  lo ← min_val flatten_and_maximize_poly x;
  v ← value x;
  hi ← max_val flatten_and_maximize_poly x;
  o ← load x;
  g ← new_GammaScalar lo v hi (entity o) None None;
  og ← load g;
  mret (poly og).

(** The loop that fills [s2range]. *)
Definition s2range_step (acc : gmap Ssid (Q * Q)) (entry : expr * expr)
  : M (gmap Ssid (Q * Q)) :=
  input_scalar ← lift (name entry.1) ≫= lookup_ssid;
  additive ← lift (name entry.2) ≫= lookup_ssid;
  lo ← min_val flatten_and_maximize_poly input_scalar;
  hi ← max_val flatten_and_maximize_poly input_scalar;
  k ← load input_scalar ≫= λ o, attr "ssid" (ssid o);
  k' ← load additive ≫= λ o, attr "ssid" (ssid o);
  mret (<[k' := (lo, hi)]> (<[k := (lo, hi)]> acc)).

Fixpoint s2range_loop (acc : gmap Ssid (Q * Q)) (r1r2diff_zip : list (expr * expr))
  : M (gmap Ssid (Q * Q)) :=
  match r1r2diff_zip with
  | [] => mret acc
  | entry :: rest => acc ← s2range_step acc entry; s2range_loop acc rest
  end.

(** The body of the loop over [r2]: the indices of the two symbols of a
    perturbed value and the bounds of the first of them. *)
Definition r2_step (r2_val : expr) : M (list nat * (Q * Q)) :=
  r2_syms ← for_each lookup_ssid (elements (free_symbols r2_val));
  r2_indices ← for_each (λ x, o ← load x; k ← attr "ssid" (ssid o); lift (getitem s2i k))
                        r2_syms;
  first ← lift (index r2_syms 0);
  lo ← min_val flatten_and_maximize_poly first;
  hi ← max_val flatten_and_maximize_poly first;
  mret (r2_indices, (lo, hi)).

(** The arguments [rranges] and [constraints] of [minimize_function]. *)
Definition max_lipschitz_via_explicit_search (self : ref)
  : M (list (Q * Q) * list constraint_fun) :=
  r1 ← input_scalars self ≫= for_each (λ x, o ← load x; mret (poly o));
  r2_diffs ← input_scalars self ≫= for_each additive_counterpart;
  let r2 := zip_with Add r1 r2_diffs in
  s2range ← s2range_loop ∅ (zip r1 r2_diffs);
  rranges ← lift (mapM (getitem s2range) i2s);
  steps ← for_each r2_step r2;
  let r2_indices_list := steps.*1 in
  let min_max_list := steps.*2 in
  let functions :=
    i ← seq 0 2; [f1 r2_indices_list min_max_list i; f2 r2_indices_list min_max_list i] in
  let constraints :=
    (Lambda <$> functions) ++ [RootLess (additive_terms s2i r2_diffs) (1 / 2 ^ 16)] in
  mret (rranges, constraints).

End Tables.

(** *** Example: a product of three inputs

    [a], [b] and [c] are gamma scalars of three entities with the box
    [[1, 2]]; [t = a * b * c] is object 4. *)
Definition three_leaves : list command :=
  [NewGamma 1 1 2 (Some 0%nat) None None;
   NewGamma 1 1 2 (Some 1%nat) None None;
   NewGamma 1 1 2 (Some 2%nat) None None;
   Binop OpMul 0%nat (Scalar 1%nat);
   Binop OpMul 3%nat (Scalar 2%nat)].

Definition three_state : state := final interval_search three_leaves.

(** The ratio [C] of [t] mentions six symbols: those of the input scalars,
    which come in the order [c], [b], [a], and those of their additive
    counterparts, registered under the ids 8, 10 and 12.  Here they are with
    the inputs first; the order in which [create_lookup_tables_for_symbol]
    lists them is not fixed by scalar.py. *)
Definition three_i2s : list Ssid :=
  [SsidOfIdEntity 4 2; SsidOfIdEntity 2 1; SsidOfIdEntity 0 0;
   SsidOfIdEntity 8 2; SsidOfIdEntity 10 1; SsidOfIdEntity 12 0].

(** The table [s2i] that goes with a table [i2s]: the index of each
    symbol. *)
Definition symbol2index (i2s : list Ssid) : gmap Ssid nat :=
  list_to_map (zip i2s (seq 0 (length i2s))).

(** What the explicit search on [t] hands over, and the state it leaves. *)
Definition three_arguments : list (Q * Q) * list constraint_fun * state :=
  match max_lipschitz_via_explicit_search interval_search three_i2s (symbol2index three_i2s)
          4%nat three_state with
  | Ok x => x
  | Raise _ => (([], []), three_state)
  end.

(** Whether a symbol vector is within the bounds [rranges]. *)
Definition within (rranges : list (Q * Q)) (x : list Q) : bool :=
  bool_decide (length x = length rranges) &&
  forallb (λ '(v, (lo, hi)), Qle_bool lo v && Qle_bool v hi) (zip x rranges).

(** The symbol vector, in the order of a table, that has [a] and its
    additive counterpart at 2 and every other entry at 1. *)
Definition third_pair_at_two (i2s : list Ssid) : list Q :=
  (λ s, if bool_decide (s = SsidOfIdEntity 0 0 ∨ s = SsidOfIdEntity 12 0) then 2 else 1)
    <$> i2s.

(** Whether, with the table [i2s], the search on [t] returns and that
    vector is within the bounds, passes every constraint, and has
    [a + a'] above [a.max_val]. *)
Definition third_unconstrained (i2s : list Ssid) : bool :=
  let s2i := symbol2index i2s in
  let x := third_pair_at_two i2s in
  match max_lipschitz_via_explicit_search interval_search i2s s2i 4%nat three_state with
  | Ok ((rranges, constraints), σ) =>
      within rranges x &&
      forallb (λ c, match holds c x with Ok true => true | _ => false end) constraints &&
      match getitem s2i (SsidOfIdEntity 0 0) ≫= index x,
            getitem s2i (SsidOfIdEntity 12 0) ≫= index x,
            max_val interval_search 0%nat σ with
      | Ok va, Ok vd, Ok (hi, _) => negb (Qle_bool (va + vd) hi)
      | _, _, _ => false
      end
  | Raise _ => false
  end.

(** *** Example: a sum of three inputs

    [t = a + b + c] on the same leaves.  When sympy forms [fr1 - fr2] for a
    sum of leaves the input symbols cancel, so the ratio mentions the
    symbols of the additive counterparts only. *)
Definition sum_leaves : list command :=
  [NewGamma 1 1 2 (Some 0%nat) None None;
   NewGamma 1 1 2 (Some 1%nat) None None;
   NewGamma 1 1 2 (Some 2%nat) None None;
   Binop OpAdd 0%nat (Scalar 1%nat);
   Binop OpAdd 3%nat (Scalar 2%nat)].

Definition counterparts : list Ssid :=
  [SsidOfIdEntity 8 2; SsidOfIdEntity 10 1; SsidOfIdEntity 12 0].

End ExplicitSearch.

(** ** The wire form ([Scalar._object2proto], [Scalar._proto2object]) *)

Module Wire.
Import Sympy Scalars.

Local Open Scope Q_scope.

(** The values an attribute can hold. *)
Inductive pyvalue :=
| VNone
| VNum (q : Q)
| VStr (s : string)
| VUid (u : uid)
| VRef (r : ref)
| VExpr (p : expr)
| VSsid (s : Ssid).

Definition opt_attr {A} (name : string) (f : A → pyvalue) (field : option A)
  : list (string * pyvalue) :=
  match field with
  | Some v => [(name, f v)]
  | None => []
  end.

(** The instance dictionary: the attributes the constructors assign.
    [IntermediateScalar.__init__] sets [poly], [_gamma] and [id];
    [IntermediatePhiScalar.__init__] adds [entity]; [OriginScalar.__init__]
    sets [id], [_value], [_min_val], [_max_val] and [entity]; [PhiScalar] and
    [GammaScalar] add [ssid].  No class of scalar.py defines [name] or
    [entity_name], as attribute or as property. *)
Definition __dict__ (o : object) : list (string * pyvalue) :=
  [("id", VUid (id_ o)); ("poly", VExpr (poly o));
   ("_gamma", from_option VRef VNone (_gamma o))]
  ++ opt_attr "entity" VUid (entity o)
  ++ opt_attr "_value" VNum (_value o)
  ++ opt_attr "_min_val" VNum (_min_val o)
  ++ opt_attr "_max_val" VNum (_max_val o)
  ++ opt_attr "ssid" VSsid (ssid o).

Fixpoint dict_get (d : list (string * pyvalue)) (name : string) : option pyvalue :=
  match d with
  | [] => None
  | (k, v) :: d => if decide (k = name) then Some v else dict_get d name
  end.

(** [self.<name>] for a name that is no property of the class. *)
Definition getattr (o : object) (name : string) : result pyvalue :=
  match dict_get (__dict__ o) name with
  | Some v => Ok v
  | None => Raise (AttributeError name)
  end.

(** The protobuf message [Scalar_PB]. *)
Record Scalar_PB := {
  id : uid;
  has_name : bool;
  name : string;
  has_value : bool;
  value : Q;
  has_min_val : bool;
  min_val : Q;
  has_max_val : bool;
  max_val : Q;
  has_entity_name : bool;
  entity_name : string
}.

Definition is_not_None (v : pyvalue) : bool :=
  match v with VNone => false | _ => true end.

(** A text field of the message: [v if v is not None else ""]. *)
Definition text_field (v : pyvalue) : result string :=
  match v with
  | VNone => Ok EmptyString
  | VStr s => Ok s
  | _ => Raise (TypeError "not a string")
  end.

(** A number field of the message: [v if v is not None else 0]. *)
Definition number_field (v : pyvalue) : result Q :=
  match v with
  | VNone => Ok 0
  | VNum q => Ok q
  | _ => Raise (TypeError "not a number")
  end.

Definition uid_field (v : pyvalue) : result uid :=
  match v with
  | VUid u => Ok u
  | _ => Raise (AttributeError "_object2proto")
  end.

(** [_object2proto(self)]: the keyword arguments are evaluated in the order
    they are written. *)
Definition _object2proto (self : object) : result Scalar_PB :=
  i ← getattr self "id" ≫= uid_field;
  hn ← is_not_None <$> getattr self "name";
  n ← getattr self "name" ≫= text_field;
  hv ← is_not_None <$> getattr self "_value";
  v ← getattr self "_value" ≫= number_field;
  hlo ← is_not_None <$> getattr self "_min_val";
  lo ← getattr self "_min_val" ≫= number_field;
  hhi ← is_not_None <$> getattr self "_max_val";
  hi ← getattr self "_max_val" ≫= number_field;
  he ← is_not_None <$> getattr self "entity_name";
  e ← getattr self "entity_name" ≫= text_field;
  Ok {| id := i; has_name := hn; name := n; has_value := hv; value := v;
        has_min_val := hlo; min_val := lo; has_max_val := hhi; max_val := hi;
        has_entity_name := he; entity_name := e |}.

(** [Scalar(...)]: the class defines no [__init__], so [object.__init__]
    runs, which takes no argument.  The result is the instance dictionary of
    the new object. *)
Definition Scalar_call (kwargs : list (string * pyvalue)) : result (list (string * pyvalue)) :=
  match kwargs with
  | [] => Ok []
  | _ :: _ => Raise (TypeError "Scalar() takes no arguments")
  end.

Definition present {A} (flag : bool) (f : A → pyvalue) (v : A) : pyvalue :=
  if flag then f v else VNone.

(** [_proto2object(proto)] *)
Definition _proto2object (proto : Scalar_PB) : result (list (string * pyvalue)) :=
  let name_ := present (has_name proto) VStr (name proto) in
  let value_ := present (has_value proto) VNum (value proto) in
  let min_val_ := present (has_min_val proto) VNum (min_val proto) in
  let max_val_ := present (has_max_val proto) VNum (max_val proto) in
  let entity_name_ := present (has_entity_name proto) VStr (entity_name proto) in
  Scalar_call [("id", VUid (id proto)); ("name", name_); ("value", value_);
               ("min_val", min_val_); ("max_val", max_val_);
               ("entity", entity_name_)].

(** The phi scalar of the round trip example, as its constructor leaves it:
    [PhiScalar(min_val=0, value=1, max_val=2, entity=e)]. *)
Definition example_phi : object :=
  {| cls := PhiScalar; id_ := 1%nat; poly := Sym (SsidOfId 0%nat); _gamma := None;
     entity := Some 7%nat; _min_val := Some 0%Q; _value := Some 1%Q;
     _max_val := Some 2%Q; ssid := Some (SsidOfId 0%nat) |}.

End Wire.

(** ** The wire form of a text document (text_doc.py)

    [TextDoc] and [TokenMeta] are classes of syfertext, [TextDoc_PB],
    [TokenMeta_PB] and [AttributeValues_PB] generated protobuf messages;
    each is modelled by the attributes and fields that [object2proto] and
    [proto2object] read and write.  A Python dictionary and a protobuf map
    are finite maps. *)

Module TextDocWire.

(** [uuid.UUID]: its sixteen bytes. *)
Record UUID := { bytes : list Byte.byte }.

(** [UUID(bytes=b)]: [ValueError] unless there are sixteen bytes. *)
Definition UUID_of_bytes (b : list Byte.byte) : result UUID :=
  if decide (length b = 16%nat) then Ok {| bytes := b |} else Raise ValueError.

(** [UID]: [UID(value=uuid)] and [uid.value]. *)
Record UID := { value : UUID }.

Record TokenMeta := {
  text : string;
  space_after : bool;
  attributes : gmap string (list string)
}.

(** A text document; [id] is an attribute it has once it was assigned. *)
Record TextDoc := {
  id : option UID;
  token_metas : list TokenMeta;
  doc_attributes : gmap string (list string)
}.

Record AttributeValues_PB := { values : list string }.

Record TokenMeta_PB := {
  pb_text : string;
  pb_space_after : bool;
  pb_attributes : gmap string AttributeValues_PB
}.

Record TextDoc_PB := {
  uuid : list Byte.byte;
  pb_token_metas : list TokenMeta_PB;
  pb_doc_attributes : gmap string AttributeValues_PB
}.

(** [pb.attributes[att_name].values.extend(att_values)]: reading a key of a
    protobuf map of messages creates its entry. *)
Definition extend (att_name : string) (att_values : list string)
    (pb : gmap string AttributeValues_PB) : gmap string AttributeValues_PB :=
  <[att_name := {| values := values (default {| values := [] |} (pb !! att_name))
                             ++ att_values |}]> pb.

(** The loop over [attributes.items()]. *)
Definition attributes2proto (attributes : gmap string (list string))
  : gmap string AttributeValues_PB :=
  map_fold extend ∅ attributes.

Definition token_meta2proto (token_meta : TokenMeta) : TokenMeta_PB :=
  {| pb_text := text token_meta;
     pb_space_after := space_after token_meta;
     pb_attributes := attributes2proto (attributes token_meta) |}.

(** [object2proto(obj)]; [fresh] is the [UID()] that [getattr] is given as
    its default. *)
Definition object2proto (fresh : UID) (obj : TextDoc) : TextDoc_PB :=
  {| uuid := bytes (value (default fresh (id obj)));
     pb_token_metas := token_meta2proto <$> token_metas obj;
     pb_doc_attributes := attributes2proto (doc_attributes obj) |}.

(** The loop over the keys of an attributes map of a message. *)
Definition proto2attributes (pb : gmap string AttributeValues_PB)
  : gmap string (list string) :=
  map_fold (λ att_name att_values attributes, <[att_name := values att_values]> attributes)
           ∅ pb.

Definition proto2token_meta (token_meta_pb : TokenMeta_PB) : TokenMeta :=
  {| text := pb_text token_meta_pb;
     space_after := pb_space_after token_meta_pb;
     attributes := proto2attributes (pb_attributes token_meta_pb) |}.

(** [proto2object(proto)]: [TextDoc()] starts with no token and no
    attribute; the id is assigned last. *)
Definition proto2object (proto : TextDoc_PB) : result TextDoc :=
  let token_metas := proto2token_meta <$> pb_token_metas proto in
  let attributes := proto2attributes (pb_doc_attributes proto) in
  uuid ← UUID_of_bytes (uuid proto);
  mret {| id := Some {| value := uuid |};
          token_metas := token_metas;
          doc_attributes := attributes |}.

(** A document of two tokens, and a message as [TextDoc_PB()] makes it. *)
Definition sixteen : list Byte.byte := replicate 16 Byte.x2a.

Definition hello : TextDoc :=
  {| id := Some {| value := {| bytes := sixteen |} |};
     token_metas :=
       [{| text := "Hello"; space_after := true;
           attributes := {[ "pos" := ["INTJ"] ]} |};
        {| text := "world"; space_after := false;
           attributes := {[ "pos" := ["NOUN"]; "tags" := [] ]} |}];
     doc_attributes := {[ "lang" := ["en"] ]} |}.

Definition unset : TextDoc_PB :=
  {| uuid := []; pb_token_metas := []; pb_doc_attributes := ∅ |}.

End TextDocWire.

(** * Properties *)

(** ** The gamma tensor *)

Module TensorProperties.
Import Numpy GammaTensor.

Lemma mapM_result_length {A B} (f : A → result B) (l : list A) (k : list B) :
  mapM f l = Ok k → length k = length l.
Proof.
  revert k. induction l as [|x l IH]; intros k; simpl.
  - by intros [= <-].
  - destruct (f x) as [y|e]; simpl; [|done].
    destruct (mapM f l) as [ys|e]; simpl; [|done].
    intros [= <-]. simpl. f_equal. by apply IH.
Qed.

Lemma mapM_rows_length {A B} (f : A → result (list B)) (l : list A)
    (k : list (list B)) (n : nat) :
  (∀ x ys, f x = Ok ys → length ys = n) →
  mapM f l = Ok k → length (concat k) = (length l * n)%nat.
Proof.
  intros Hf. revert k. induction l as [|x l IH]; intros k; simpl.
  - by intros [= <-].
  - destruct (f x) as [y|e] eqn:Hx; simpl; [|done].
    destruct (mapM f l) as [ys|e]; simpl; [|done].
    intros [= <-]. simpl. rewrite length_app, (Hf _ _ Hx), (IH ys) by done. lia.
Qed.

(** The list [terms] built by [__mul__] has [m*n + m + m] entries, where [m]
    and [n] are the trailing lengths of [self] and [other]. *)
Lemma mul_terms_length (a b : ndarray) (l : list ndarray) (m n : nat) :
  shape_last a = Ok m → shape_last b = Ok n →
  mul_terms a b = Ok l → length l = (m * n + m + m)%nat.
Proof.
  intros Ha Hb. unfold mul_terms. rewrite Ha. simpl. intros H.
  apply bind_Ok in H as (cross & Hc & H).
  apply bind_Ok in H as (own & Ho & H).
  apply bind_Ok in H as (others & Hs & H).
  injection H as <-.
  rewrite !length_app.
  apply mapM_result_length in Ho, Hs. rewrite length_seq in Ho, Hs.
  apply (mapM_rows_length _ _ _ n) in Hc.
  - rewrite length_seq in Hc. lia.
  - intros x ys. rewrite Hb. simpl. intros Hx.
    apply mapM_result_length in Hx. by rewrite length_seq in Hx.
Qed.

Lemma mapM_result_Forall {A B} (P : B → Prop) (f : A → result B) (l : list A) (k : list B) :
  (∀ x y, f x = Ok y → P y) → mapM f l = Ok k → Forall P k.
Proof.
  intros Hf. revert k. induction l as [|x l IH]; intros k; simpl.
  - intros [= <-]. constructor.
  - intros H. apply bind_Ok in H as (y & Hy & H).
    apply bind_Ok in H as (ys & Hys & H). injection H as <-.
    constructor; eauto.
Qed.

Lemma trailing_expand_dims_last (a : ndarray) : trailing (expand_dims_last a) = 1%nat.
Proof. unfold trailing, expand_dims_last. simpl. by rewrite last_snoc. Qed.

Lemma sum_list_ones (l : list ndarray) :
  Forall (λ a, trailing a = 1%nat) l → sum_list (trailing <$> l) = length l.
Proof.
  induction 1 as [|a l Ha _ IH]; [done|].
  rewrite fmap_cons. simpl. by rewrite Ha, IH.
Qed.

(** Every entry of [terms] is an [expand_dims] result, one item wide. *)
Lemma mul_terms_unit (a b : ndarray) (l : list ndarray) :
  mul_terms a b = Ok l → Forall (λ t, trailing t = 1%nat) l.
Proof.
  unfold mul_terms. intros H.
  apply bind_Ok in H as (m & Hm & H).
  apply bind_Ok in H as (cross & Hc & H).
  apply bind_Ok in H as (m' & Hm' & H).
  apply bind_Ok in H as (own & Ho & H).
  apply bind_Ok in H as (m'' & Hm'' & H).
  apply bind_Ok in H as (others & Hs & H).
  injection H as <-.
  rewrite !Forall_app. repeat split.
  - apply Forall_concat.
    eapply mapM_result_Forall; [|exact Hc]. intros x row Hrow. simpl in Hrow.
    apply bind_Ok in Hrow as (n & _ & Hrow).
    eapply mapM_result_Forall; [|exact Hrow]. intros j y Hy. simpl in Hy.
    apply bind_Ok in Hy as (? & _ & Hy). apply bind_Ok in Hy as (? & _ & Hy).
    apply bind_Ok in Hy as (? & _ & Hy). injection Hy as <-.
    apply trailing_expand_dims_last.
  - eapply mapM_result_Forall; [|exact Ho]. intros x y Hy. simpl in Hy.
    apply bind_Ok in Hy as (? & _ & Hy). injection Hy as <-.
    apply trailing_expand_dims_last.
  - eapply mapM_result_Forall; [|exact Hs]. intros x y Hy. simpl in Hy.
    apply bind_Ok in Hy as (? & _ & Hy). injection Hy as <-.
    apply trailing_expand_dims_last.
Qed.

Lemma concatenate_last_shape (arrs : list ndarray) (r : ndarray) :
  concatenate_last arrs = Ok r → shape_last r = Ok (sum_list (trailing <$> arrs)).
Proof.
  unfold concatenate_last. destruct arrs as [|a0 rest]; [done|].
  destruct (forallb _ _); [|done]. intros [= <-].
  unfold shape_last. simpl. by rewrite last_snoc.
Qed.

(** The term-count law the code obeys: the trailing axis of a product has
    [m*n + m + m] entries. *)
Lemma mul_trailing_length (self other r : IntermediateGammaTensor) (m n : nat) :
  shape_last (term_tensor self) = Ok m →
  shape_last (term_tensor other) = Ok n →
  __mul__ self (Gamma other) = Ok r →
  shape_last (term_tensor r) = Ok (m * n + m + m)%nat.
Proof.
  intros Hm Hn. unfold __mul__. intros H.
  apply bind_Ok in H as ([[term coeff] bias] & H & Hinit).
  destruct (decide _); [done|].
  apply bind_Ok in H as (terms & Hterms & H).
  apply bind_Ok in H as (term' & Hcat & H).
  apply bind_Ok in H as (coeffs & _ & H).
  apply bind_Ok in H as (coeff' & _ & H).
  apply bind_Ok in H as (bias' & _ & H).
  injection H as <- <- <-.
  vm_compute in Hinit. injection Hinit as <-. simpl.
  rewrite (concatenate_last_shape _ _ Hcat).
  rewrite (sum_list_ones _ (mul_terms_unit _ _ _ Hterms)).
  by rewrite (mul_terms_length _ _ _ _ _ Hm Hn Hterms).
Qed.

(** [prod] never returns: when the three reductions succeed, the constructor
    is called with a keyword it does not have. *)
Lemma prod_raises (self : IntermediateGammaTensor) (dim : Z) :
  raises (GammaTensor.prod self dim).
Proof.
  unfold GammaTensor.prod.
  destruct (Numpy.prod (term_tensor self) dim); [|done]. simpl.
  destruct (Numpy.prod (coeff_tensor self) dim); [|done]. simpl.
  destruct (Numpy.prod (bias_tensor self) dim); [|done]. simpl.
  done.
Qed.

(** C4, evaluated on the code.  With [m = 1] and [n = 2] the product has four
    terms where the law asks for five, and the term 5 of [other] is missing;
    with [m = n = 2] the count is eight but 5 stands three times and 3 once
    among the own terms; with [m = 2] and [n = 1] the product raises. *)
Theorem mul_term_count :
  full_shape <$> __mul__ one_term (Gamma two_terms) = Ok [1; 4]%nat ∧
  pairs <$> __mul__ one_term (Gamma two_terms) = Ok [(6, 6); (10, 10); (2, 2); (3, 3)] ∧
  pairs <$> __mul__ two_terms (Gamma two_terms)
    = Ok [(9, 9); (15, 15); (15, 15); (25, 25); (3, 3); (5, 5); (5, 5); (5, 5)] ∧
  raises (__mul__ two_terms (Gamma one_term)).
Proof. by vm_compute. Qed.

(** C8, evaluated on the code.  [prod] raises on every tensor and axis.
    [sum] adds nothing: on a column of two cells it returns both items and
    the axis number as bias, and it raises when the trailing axis is longer
    than one. *)
Theorem sum_prod_reduce :
  (∀ self dim, raises (GammaTensor.prod self dim)) ∧
  (λ r, (shape (term_tensor r), tolist (term_tensor r), tolist (bias_tensor r)))
    <$> GammaTensor.sum column 0 = Ok ([2]%nat, [2; 3], [0]) ∧
  GammaTensor.sum two_terms 0 = Raise ValueError.
Proof. split; [apply prod_raises|]. by vm_compute. Qed.

(** Two gamma tensors with different symbol factories are neither added
    nor multiplied. *)
Theorem tensor_mismatch_raises (self other : IntermediateGammaTensor) :
  symbol_factory self ≠ symbol_factory other →
  __add__ self (Gamma other) = Raise mismatch ∧
  __mul__ self (Gamma other) = Raise mismatch.
Proof.
  intros Hne. unfold __add__, __mul__.
  destruct (decide (symbol_factory self ≠ symbol_factory other)); done.
Qed.

Lemma tensor_mismatch_raises_witness :
  __add__ one_term (Gamma other_factory) = Raise mismatch ∧
  __mul__ one_term (Gamma other_factory) = Raise mismatch.
Proof. apply (tensor_mismatch_raises one_term other_factory). simpl. lia. Defined.

End TensorProperties.

(** ** The wire form *)

Module WireProperties.
Import Sympy Scalars Wire.

Lemma getattr_name (o : object) : getattr o "name" = Raise (AttributeError "name").
Proof.
  unfold getattr, __dict__.
  destruct (entity o), (_value o), (_min_val o), (_max_val o), (ssid o); reflexivity.
Qed.

(** C6, evaluated on the code.  Encoding raises on every scalar object, the
    example included, because [self.name] is read and never set; decoding
    raises on every message, because [Scalar] takes no constructor argument. *)
Theorem wire_round_trip :
  (∀ o, _object2proto o = Raise (AttributeError "name")) ∧
  _object2proto example_phi = Raise (AttributeError "name") ∧
  (∀ proto, raises (_proto2object proto)).
Proof.
  assert (∀ o, _object2proto o = Raise (AttributeError "name")) as H.
  { intros o. unfold _object2proto.
    replace (getattr o "id" ≫= uid_field) with (Ok (id_ o)) by reflexivity.
    simpl. by rewrite getattr_name. }
  split; [exact H|]. split; [apply H|]. intros proto. exact I.
Qed.

End WireProperties.

(** ** The scalar algebra *)

Module ScalarProperties.
Import Sympy Scalars.

Local Open Scope Q_scope.

(** *** Inversion of computations *)

Lemma bindM_Ok {A B} (m : M A) (f : A → M B) σ b σ' :
  (m ≫= f) σ = Ok (b, σ') → ∃ a σ1, m σ = Ok (a, σ1) ∧ f a σ1 = Ok (b, σ').
Proof.
  unfold mbind, M_bind. destruct (m σ) as [[a σ1]|e]; [|done]. eauto.
Qed.

Lemma bindM_run {A B} (m : M A) (f : A → M B) σ a σ1 :
  m σ = Ok (a, σ1) → (m ≫= f) σ = f a σ1.
Proof. unfold mbind, M_bind. by intros ->. Qed.

Lemma load_Ok r σ o σ' : load r σ = Ok (o, σ') → σ' = σ ∧ heap σ !! r = Some o.
Proof. unfold load. destruct (heap σ !! r); [|done]. by intros [= <- <-]. Qed.

Lemma load_run r σ o : heap σ !! r = Some o → load r σ = Ok (o, σ).
Proof. unfold load. by intros ->. Qed.

Lemma attr_Ok {A} name (field : option A) σ a σ' :
  attr name field σ = Ok (a, σ') → σ' = σ ∧ field = Some a.
Proof. destruct field; [|done]. by intros [= <- <-]. Qed.

Lemma lookup_ssid_Ok s σ r σ' :
  lookup_ssid s σ = Ok (r, σ') → σ' = σ ∧ ssid2obj σ !! s = Some r.
Proof. unfold lookup_ssid. destruct (ssid2obj σ !! s); [|done]. by intros [= <- <-]. Qed.

(** *** Reading the symbols of a polynomial back from the registry *)

Lemma for_each_lookup σ (l : list Ssid) :
  (∀ s, s ∈ l → is_Some (ssid2obj σ !! s)) →
  ∃ rs, for_each lookup_ssid l σ = Ok (rs, σ) ∧
        Forall2 (λ s r, ssid2obj σ !! s = Some r) l rs.
Proof.
  induction l as [|s l IH]; intros Hl.
  - exists []. split; [done|constructor].
  - destruct (Hl s) as [r Hr]; [left|].
    destruct IH as (rs & Hrs & HF). { intros s' Hs'. apply Hl. by right. }
    exists (r :: rs). split; [|by constructor].
    simpl. erewrite bindM_run; [|unfold lookup_ssid; by rewrite Hr].
    erewrite bindM_run; [|exact Hrs]. done.
Qed.

Lemma for_each_pure {A B} (f : A → M B) (l : list A) σ ys σ' :
  (∀ x y σ1 σ2, f x σ1 = Ok (y, σ2) → σ2 = σ1) →
  for_each f l σ = Ok (ys, σ') → σ' = σ.
Proof.
  intros Hf. revert ys. induction l as [|x l IH]; intros ys; simpl.
  - by intros [= _ <-].
  - intros H. apply bindM_Ok in H as (y & σ1 & Hy & H).
    apply bindM_Ok in H as (ys' & σ2 & Hys & H). injection H as _ <-.
    apply Hf in Hy as ->. by eapply IH.
Qed.

Lemma subs_eval (d : gmap Ssid Q) (ρ : Ssid → Q) (p : expr) :
  (∀ s, s ∈ free_symbols p → d !! s = Some (ρ s)) →
  subs d p = Some (eval ρ p).
Proof.
  induction p as [s|c|p IHp q IHq|p IHp q IHq]; simpl; intros H.
  - apply H. set_solver.
  - done.
  - rewrite IHp, IHq by (intros; apply H; set_solver). done.
  - rewrite IHp, IHq by (intros; apply H; set_solver). done.
Qed.

Lemma leaf_registered σ s r o :
  ssid2obj σ !! s = Some r → heap σ !! r = Some o → leaf σ s = Some o.
Proof. unfold leaf. intros -> Ho. exact Ho. Qed.

Lemma value_dict_fold σ (l : list Ssid) (rs : list ref) (acc : M (gmap Ssid Q)) d0 :
  structured σ →
  Forall2 (λ s r, ssid2obj σ !! s = Some r) l rs →
  acc σ = Ok (d0, σ) →
  ∃ d, foldl (λ acc x,
                d ← acc;
                o ← load x;
                v ← attr "_value" (_value o);
                mret (match poly o with Sym k => <[k := v]> d | _ => d end))
             acc rs σ = Ok (d, σ) ∧
       (∀ s, s ∈ l → d !! s = Some (leaf_value σ s)) ∧
       (∀ s, s ∉ l → d !! s = d0 !! s).
Proof.
  intros Hσ HF. revert acc d0.
  induction HF as [|s r l rs Hs HF IH]; intros acc d0 Hacc; simpl.
  - exists d0. split; [done|]. split; [|done]. intros s Hs. by apply elem_of_nil in Hs.
  - destruct (registered_leaf _ Hσ _ _ Hs) as (o & Ho & Hp & _ & [v Hv] & _).
    edestruct (IH (d ← acc; o ← load r; v ← attr "_value" (_value o);
                   mret (match poly o with Sym k => <[k := v]> d | _ => d end))
                  (<[s := v]> d0)) as (d & Hd & Hin & Hout).
    { erewrite bindM_run; [|exact Hacc].
      erewrite bindM_run; [|by apply load_run].
      rewrite Hv, Hp. done. }
    exists d. split; [exact Hd|]. split.
    + intros s' Hs'. destruct (decide (s' ∈ l)) as [|Hn]; [by apply Hin|].
      apply elem_of_cons in Hs' as [->|]; [|done].
      rewrite (Hout _ Hn), lookup_insert_eq. f_equal.
      unfold leaf_value. rewrite (leaf_registered _ _ _ _ Hs Ho). simpl. by rewrite Hv.
    + intros s' Hs'. apply not_elem_of_cons in Hs' as [Hne Hn].
      rewrite (Hout _ Hn). by rewrite lookup_insert_ne.
Qed.

Lemma value_dict_spec σ r o :
  structured σ → heap σ !! r = Some o →
  ∃ d, value_dict r σ = Ok (d, σ) ∧
       ∀ s, s ∈ free_symbols (poly o) → d !! s = Some (leaf_value σ s).
Proof.
  intros Hσ Ho.
  destruct (for_each_lookup σ (elements (free_symbols (poly o)))) as (rs & Hrs & HF).
  { intros s Hs. apply elem_of_elements in Hs. by eapply closed. }
  destruct (value_dict_fold σ _ _ (mret ∅) ∅ Hσ HF eq_refl) as (d & Hd & Hin & _).
  exists d. split.
  - unfold value_dict, input_scalars, input_polys.
    erewrite bindM_run; [exact Hd|].
    erewrite bindM_run; [exact Hrs|].
    erewrite bindM_run; [|by apply load_run]. done.
  - intros s Hs. apply Hin. by apply elem_of_elements.
Qed.

(** *** How the four state changes act on the invariants *)

Lemma structured_bump σ : structured σ → structured (bump σ).
Proof. intros [H1 H2 H3]. by constructor. Qed.

Lemma structured_push σ o :
  structured σ →
  (∀ s, s ∈ free_symbols (poly o) → is_Some (ssid2obj σ !! s)) →
  (isinstance_OriginScalar o = true → has_bounds o) →
  structured (push o σ).
Proof.
  intros [H1 H2 H3] Hclosed Horigin. constructor; simpl.
  - intros s r Hs. destruct (H1 s r Hs) as (o' & Ho' & H).
    exists o'. split; [by apply lookup_app_l_Some|done].
  - intros r o' Ho'. apply lookup_snoc_Some in Ho' as [[_ Ho']|[_ <-]]; eauto.
  - intros r o' Ho'. apply lookup_snoc_Some in Ho' as [[_ Ho']|[_ <-]]; eauto.
Qed.

Lemma structured_put σ r o g :
  structured σ → heap σ !! r = Some o → structured (put r (with_gamma g o) σ).
Proof.
  intros [H1 H2 H3] Ho. constructor; simpl.
  - intros s r' Hs. destruct (H1 s r' Hs) as (o' & Ho' & Hp & Hb).
    destruct (decide (r = r')) as [<-|Hne].
    + exists (with_gamma g o). rewrite list_lookup_insert_eq by by eapply lookup_lt_Some.
      assert (o' = o) as -> by congruence. done.
    + exists o'. by rewrite list_lookup_insert_ne.
  - intros r' o' Ho'. apply list_lookup_insert_Some in Ho' as [(_ & <- & _)|[_ Ho']]; eauto.
  - intros r' o' Ho'. apply list_lookup_insert_Some in Ho' as [(_ & <- & _)|[_ Ho']]; eauto.
    apply (H3 r o Ho).
Qed.

Lemma structured_bind_ssid σ s r o :
  structured σ → heap σ !! r = Some o → poly o = Sym s → has_bounds o →
  structured (bind_ssid s r σ).
Proof.
  intros [H1 H2 H3] Ho Hp Hb. constructor; simpl.
  - intros s' r' Hs'. apply lookup_insert_Some in Hs' as [[<- <-]|[_ Hs']]; eauto.
  - intros r' o' Ho' s' Hs'. rewrite lookup_insert_is_Some. destruct (decide (s = s')); eauto.
  - done.
Qed.

Lemma ordered_bump σ : ordered σ → ordered (bump σ).
Proof. done. Qed.

Lemma ordered_push σ o :
  ordered σ →
  (∀ lo v hi, _min_val o = Some lo → _value o = Some v → _max_val o = Some hi →
              lo <= v <= hi) →
  ordered (push o σ).
Proof.
  intros H Ho r o' lo v hi Ho'. simpl in Ho'.
  apply lookup_snoc_Some in Ho' as [[_ Ho']|[_ <-]]; eauto.
Qed.

Lemma ordered_put σ r o g :
  ordered σ → heap σ !! r = Some o → ordered (put r (with_gamma g o) σ).
Proof.
  intros H Ho r' o' lo v hi Ho'. simpl in Ho'.
  apply list_lookup_insert_Some in Ho' as [(_ & <- & _)|[_ Ho']]; eauto.
Qed.

Lemma ordered_bind_ssid σ s r : ordered σ → ordered (bind_ssid s r σ).
Proof. done. Qed.

(** *** Inversion of the primitive computations *)

Lemma UID_Ok σ u σ' : UID σ = Ok (u, σ') → u = next_uid σ ∧ σ' = bump σ.
Proof. by intros [= <- <-]. Qed.

Lemma alloc_Ok o σ r σ' : alloc o σ = Ok (r, σ') → r = length (heap σ) ∧ σ' = push o σ.
Proof. by intros [= <- <-]. Qed.

Lemma store_Ok r o σ u σ' : store r o σ = Ok (u, σ') → σ' = put r o σ.
Proof. by intros [= <- <-]. Qed.

Lemma register_Ok s r σ u σ' : register s r σ = Ok (u, σ') → σ' = bind_ssid s r σ.
Proof. by intros [= <- <-]. Qed.

Lemma mret_Ok {A} (a : A) σ b σ' : (mret a : M A) σ = Ok (b, σ') → b = a ∧ σ' = σ.
Proof. by intros [= <- <-]. Qed.

Ltac invM :=
  repeat match goal with
  | H : (_ ≫= _) _ = Ok _ |- _ =>
      let a := fresh "a" in let σ1 := fresh "σ" in let H1 := fresh "H" in
      apply bindM_Ok in H as (a & σ1 & H1 & H)
  | H : UID _ = Ok _ |- _ => apply UID_Ok in H as [-> ->]
  | H : new_Entity _ = Ok _ |- _ => apply UID_Ok in H as [-> ->]
  | H : alloc _ _ = Ok _ |- _ => apply alloc_Ok in H as [-> ->]
  | H : store _ _ _ = Ok _ |- _ => apply store_Ok in H as ->
  | H : register _ _ _ = Ok _ |- _ => apply register_Ok in H as ->
  | H : load _ _ = Ok _ |- _ => apply load_Ok in H as [-> H]
  | H : attr _ _ _ = Ok _ |- _ => apply attr_Ok in H as [-> H]
  | H : @mret M _ _ _ _ = Ok _ |- _ => apply mret_Ok in H as [? ?]; simplify_eq
  | H : @throw _ _ _ = Ok _ |- _ => discriminate H
  end.

(** *** Constructors keep the invariants *)

Lemma structured_new_leaf σ o s :
  structured σ → poly o = Sym s → has_bounds o →
  structured (bind_ssid s (length (heap σ)) (push o σ)).
Proof.
  intros [H1 H2 H3] Hp Hb. constructor; simpl.
  - intros s' r' Hs'. apply lookup_insert_Some in Hs' as [[<- <-]|[_ Hs']].
    + exists o. split; [|done]. apply lookup_snoc_Some. by right.
    + destruct (H1 s' r' Hs') as (o' & Ho' & H). exists o'.
      split; [by apply lookup_app_l_Some|done].
  - intros r' o' Ho' s' Hs'. rewrite lookup_insert_is_Some.
    apply lookup_snoc_Some in Ho' as [[_ Ho']|[_ <-]].
    + destruct (decide (s = s')); eauto.
    + rewrite Hp in Hs'. simpl in Hs'. apply elem_of_singleton in Hs'. by left.
  - intros r' o' Ho'. apply lookup_snoc_Some in Ho' as [[_ Ho']|[_ <-]]; eauto.
Qed.

Lemma origin_has_bounds c i s e lo v hi : has_bounds (origin c i s e lo v hi).
Proof. by repeat split. Qed.

Lemma consistent_new_leaf σ c i s e lo v hi :
  consistent σ → lo <= v <= hi →
  consistent (bind_ssid s (length (heap σ)) (push (origin c i s e lo v hi) σ)).
Proof.
  intros [Hσ Hord] Hlv. split.
  - apply structured_new_leaf; [done|done|apply origin_has_bounds].
  - apply ordered_bind_ssid, ordered_push; [done|]. simpl. by intros ??? [= <-] [= <-] [= <-].
Qed.

Lemma consistent_bump σ : consistent σ → consistent (bump σ).
Proof. intros [??]. split; [by apply structured_bump|by apply ordered_bump]. Qed.

Lemma OriginScalar_init_consistent σ e i i' e' σ' :
  consistent σ → OriginScalar_init e i σ = Ok ((i', e'), σ') →
  consistent σ' ∧ heap σ' = heap σ.
Proof.
  intros Hσ H. unfold OriginScalar_init in H.
  destruct e, i; invM; auto using consistent_bump.
Qed.

Lemma new_PhiScalar_consistent σ lo v hi e i s r σ' :
  consistent σ → lo <= v <= hi →
  new_PhiScalar lo v hi e i s σ = Ok (r, σ') → consistent σ'.
Proof.
  intros Hσ Hlv H. unfold new_PhiScalar in H. invM.
  destruct a as [i0 e0]. invM.
  destruct (OriginScalar_init_consistent _ _ _ _ _ _ Hσ H0) as [Hσ0 Hheap].
  apply (consistent_new_leaf (bump σ0)); [by apply consistent_bump|done].
Qed.

Lemma new_GammaScalar_consistent σ lo v hi e i s r σ' :
  consistent σ → lo <= v <= hi →
  new_GammaScalar lo v hi e i s σ = Ok (r, σ') → consistent σ'.
Proof.
  intros Hσ Hlv H. unfold new_GammaScalar in H. invM.
  destruct a as [i0 e0]. invM.
  destruct (OriginScalar_init_consistent _ _ _ _ _ _ Hσ H0) as [Hσ0 Hheap].
  apply (consistent_new_leaf (bump σ0)); [by apply consistent_bump|done].
Qed.

Lemma consistent_push_intermediate σ c i p e :
  consistent σ → isinstance_OriginScalar (intermediate c i p e) = false →
  (∀ s, s ∈ free_symbols p → is_Some (ssid2obj σ !! s)) →
  consistent (push (intermediate c i p e) σ).
Proof.
  intros [Hσ Hord] Hc Hp. split.
  - apply structured_push; [done|done|]. by rewrite Hc.
  - apply ordered_push; [done|]. done.
Qed.

Lemma new_IntermediatePhiScalar_consistent σ p e r σ' :
  consistent σ → (∀ s, s ∈ free_symbols p → is_Some (ssid2obj σ !! s)) →
  new_IntermediatePhiScalar p e σ = Ok (r, σ') → consistent σ'.
Proof.
  intros Hσ Hp H. unfold new_IntermediatePhiScalar in H. invM.
  apply (consistent_push_intermediate (bump σ)); [by apply consistent_bump|done|done].
Qed.

Lemma new_IntermediateGammaScalar_consistent σ p r σ' :
  consistent σ → (∀ s, s ∈ free_symbols p → is_Some (ssid2obj σ !! s)) →
  new_IntermediateGammaScalar p σ = Ok (r, σ') → consistent σ'.
Proof.
  intros Hσ Hp H. unfold new_IntermediateGammaScalar in H. invM.
  apply (consistent_push_intermediate (bump σ)); [by apply consistent_bump|done|done].
Qed.

Lemma join_closed σ op p q :
  (∀ s, s ∈ free_symbols p → is_Some (ssid2obj σ !! s)) →
  (∀ s, s ∈ free_symbols q → is_Some (ssid2obj σ !! s)) →
  ∀ s, s ∈ free_symbols (join op p q) → is_Some (ssid2obj σ !! s).
Proof.
  intros Hp Hq s. destruct op; simpl; rewrite ?elem_of_union, ?elem_of_empty.
  all: intuition auto.
Qed.

Section Reads.

Variable search : state → expr → Q.

(** The three accessors of a stored object return, leave the state as it
    is, and read either the stored bounds or the polynomial. *)
Lemma accessors_return σ r o :
  structured σ → heap σ !! r = Some o →
  ∃ lo v hi,
    min_val search r σ = Ok (lo, σ) ∧
    value r σ = Ok (v, σ) ∧
    max_val search r σ = Ok (hi, σ) ∧
    if isinstance_OriginScalar o
    then _min_val o = Some lo ∧ _value o = Some v ∧ _max_val o = Some hi
    else lo = search σ (poly o) ∧ v = eval (leaf_value σ) (poly o) ∧
         hi = - search σ (Neg (poly o)).
Proof.
  intros Hσ Ho. unfold min_val, value, max_val.
  destruct (isinstance_OriginScalar o) eqn:Horigin.
  - destruct (origin_bounds _ Hσ _ _ Ho Horigin) as ([lo Hlo] & [v Hv] & [hi Hhi]).
    exists lo, v, hi.
    rewrite !(bindM_run _ _ _ _ _ (load_run _ _ _ Ho)), Horigin, Hlo, Hv, Hhi. done.
  - destruct (value_dict_spec σ r o Hσ Ho) as (d & Hd & Hin).
    exists (search σ (poly o)), (eval (leaf_value σ) (poly o)), (- search σ (Neg (poly o))).
    rewrite !(bindM_run _ _ _ _ _ (load_run _ _ _ Ho)), Horigin.
    rewrite (bindM_run _ _ _ _ _ Hd), (subs_eval d (leaf_value σ)) by done. done.
Qed.

Lemma leaf_values_in_box σ r o :
  structured σ → ordered σ → heap σ !! r = Some o →
  in_box σ (poly o) (leaf_value σ).
Proof.
  intros Hσ Hord Ho s Hs.
  destruct (closed _ Hσ _ _ Ho _ Hs) as [r' Hr'].
  destruct (registered_leaf _ Hσ _ _ Hr') as (o' & Ho' & _ & [lo Hlo] & [v Hv] & [hi Hhi]).
  exists o', lo, hi. rewrite (leaf_registered _ _ _ _ Hr' Ho'). repeat split; try done.
  all: unfold leaf_value; rewrite (leaf_registered _ _ _ _ Hr' Ho'); simpl; rewrite Hv; simpl.
  all: by destruct (Hord _ _ _ _ _ Ho' Hlo Hv Hhi).
Qed.

(** The bound invariant of one object. *)
Lemma bounds_hold σ r o :
  sound search → structured σ → ordered σ → heap σ !! r = Some o →
  ∃ lo v hi,
    min_val search r σ = Ok (lo, σ) ∧
    value r σ = Ok (v, σ) ∧
    max_val search r σ = Ok (hi, σ) ∧
    lo <= v <= hi.
Proof.
  intros Hsound Hσ Hord Ho.
  destruct (accessors_return σ r o Hσ Ho) as (lo & v & hi & Hlo & Hv & Hhi & H).
  exists lo, v, hi. repeat split; try done.
  all: destruct (isinstance_OriginScalar o).
  all: try (destruct H as (Hl & Hv' & Hh); by destruct (Hord _ _ _ _ _ Ho Hl Hv' Hh)).
  all: destruct H as (-> & -> & ->).
  - apply Hsound. by apply (leaf_values_in_box σ r).
  - pose proof (Hsound σ (Neg (poly o)) (leaf_value σ)) as H.
    simpl in H. unfold Neg in H.
    assert (in_box σ (Mul (Num (-1)) (poly o)) (leaf_value σ)) as Hbox.
    { intros s Hs. apply (leaf_values_in_box σ r o); try done.
      apply elem_of_union in Hs as [Hs|Hs]; [by apply elem_of_empty in Hs|done]. }
    specialize (H Hbox). unfold Neg. lra.
Qed.

Hypothesis search_sound : sound search.

Lemma consistent_put σ r o g :
  consistent σ → heap σ !! r = Some o → consistent (put r (with_gamma g o) σ).
Proof. intros [??] ?. split; [by apply structured_put|by apply ordered_put]. Qed.

(** Promotion keeps the invariants: the new [GammaScalar] stores the bounds
    the accessors of the phi value return, which are ordered. *)
Lemma gamma_consistent σ r g σ' :
  consistent σ → gamma search r σ = Ok (g, σ') → consistent σ'.
Proof.
  intros Hσ H. unfold gamma in H. invM.
  destruct (_gamma a) as [g0|]; invM; [done|].
  destruct Hσ as [Hs Hord].
  destruct (bounds_hold σ r a search_sound Hs Hord H0) as (lo & v & hi & Hlo & Hv & Hhi & Hle).
  rewrite Hlo in H1. injection H1 as <- <-.
  rewrite Hv in H2. injection H2 as <- <-.
  rewrite Hhi in H3. injection H3 as <- <-.
  assert (consistent σ4) as Hσ4.
  { eapply new_GammaScalar_consistent; [|exact Hle|exact H5]. by split. }
  by apply consistent_put.
Qed.

Lemma gamma_op_consistent σ op self other r σ' :
  consistent σ → gamma_op search op self other σ = Ok (r, σ') → consistent σ'.
Proof.
  intros Hσ H. unfold gamma_op in H. destruct other as [c|x]; invM.
  - eapply new_IntermediateGammaScalar_consistent; [exact Hσ| |exact H].
    apply join_closed; [|by intros s Hs; apply elem_of_empty in Hs].
    destruct Hσ as [Hs _]. by apply (closed _ Hs self).
  - assert (consistent σ1) as Hσ1.
    { destruct (isinstance_IntermediatePhiScalar a); invM; [|done].
      by eapply gamma_consistent. }
    eapply new_IntermediateGammaScalar_consistent; [exact Hσ1| |exact H].
    destruct Hσ1 as [Hs _].
    apply join_closed; [by apply (closed _ Hs self)|by apply (closed _ Hs a0)].
Qed.

Lemma phi_op_consistent σ op self other r σ' :
  consistent σ → phi_op search op self other σ = Ok (r, σ') → consistent σ'.
Proof.
  intros Hσ H. unfold phi_op in H. destruct other as [c|x]; invM.
  - eapply new_IntermediatePhiScalar_consistent; [exact Hσ| |exact H].
    apply join_closed; [|by intros s Hs; apply elem_of_empty in Hs].
    destruct Hσ as [Hs _]. by apply (closed _ Hs self).
  - destruct (isinstance_IntermediateGammaScalar a); invM.
    + eapply gamma_op_consistent; [|exact H]. by eapply gamma_consistent.
    + destruct (decide (a1 = a2)); invM.
      * eapply new_IntermediatePhiScalar_consistent; [exact Hσ| |exact H].
        destruct Hσ as [Hs _].
        apply join_closed; [by apply (closed _ Hs self)|by apply (closed _ Hs x)].
      * eapply gamma_op_consistent; [|exact H].
        eapply gamma_consistent; [|eassumption]. by eapply gamma_consistent.
Qed.

Lemma binop_consistent σ op self other r σ' :
  consistent σ → binop search op self other σ = Ok (r, σ') → consistent σ'.
Proof.
  intros Hσ H. unfold binop in H. invM.
  destruct (isinstance_IntermediatePhiScalar a).
  - by eapply phi_op_consistent.
  - by eapply gamma_op_consistent.
Qed.

Lemma run_consistent σ c r σ' :
  consistent σ → well_ordered c → run search c σ = Ok (r, σ') → consistent σ'.
Proof.
  intros Hσ Hc H. destruct c; simpl in *.
  - by eapply new_PhiScalar_consistent.
  - by eapply new_GammaScalar_consistent.
  - by eapply binop_consistent.
Qed.

Lemma exec_consistent prog σ u σ' :
  consistent σ → Forall well_ordered prog →
  exec search prog σ = Ok (u, σ') → consistent σ'.
Proof.
  revert σ. induction prog as [|c prog IH]; intros σ Hσ Hprog H; simpl in H; invM.
  - done.
  - apply Forall_cons in Hprog as [Hc Hprog].
    eapply IH; [|exact Hprog|exact H]. by eapply run_consistent.
Qed.

Lemma consistent_init : consistent init.
Proof.
  split; [constructor|]; simpl.
  - intros s r H. by rewrite lookup_empty in H.
  - by intros [] o H.
  - by intros [] o H.
  - by intros [] o lo v hi H.
Qed.

End Reads.

(** *** Promotion, step by step *)

Section Promotion.

Variable search : state → expr → Q.

Lemma gamma_cached σ r o g :
  heap σ !! r = Some o → _gamma o = Some g → gamma search r σ = Ok (g, σ).
Proof.
  intros Ho Hg. unfold gamma. rewrite (bindM_run _ _ _ _ _ (load_run _ _ _ Ho)), Hg. done.
Qed.

Lemma new_GammaScalar_run lo v hi e σ :
  new_GammaScalar lo v hi (Some e) None None σ
  = Ok (length (heap σ),
        bind_ssid (SsidOfIdEntity (next_uid σ) e) (length (heap σ))
          (push (promotion lo v hi e σ) (bump (bump σ)))).
Proof. reflexivity. Qed.

Lemma gamma_first σ r o e :
  structured σ → heap σ !! r = Some o → _gamma o = None → entity o = Some e →
  ∃ lo v hi,
    min_val search r σ = Ok (lo, σ) ∧ value r σ = Ok (v, σ) ∧
    max_val search r σ = Ok (hi, σ) ∧
    gamma search r σ = Ok (length (heap σ), promoted r o lo v hi e σ).
Proof.
  intros Hσ Ho Hg He.
  destruct (accessors_return search σ r o Hσ Ho) as (lo & v & hi & Hlo & Hv & Hhi & _).
  exists lo, v, hi. repeat split; try done.
  unfold gamma. rewrite (bindM_run _ _ _ _ _ (load_run _ _ _ Ho)), Hg.
  rewrite (bindM_run _ _ _ _ _ Hlo), (bindM_run _ _ _ _ _ Hv), (bindM_run _ _ _ _ _ Hhi).
  rewrite He. unfold attr.
  erewrite bindM_run; [|reflexivity].
  rewrite (bindM_run _ _ _ _ _ (new_GammaScalar_run lo v hi e σ)).
  erewrite bindM_run; [|apply load_run; simpl; by apply lookup_app_l_Some].
  reflexivity.
Qed.

(** The accessors only read. *)
Lemma input_scalars_pure r σ rs σ' : input_scalars r σ = Ok (rs, σ') → σ' = σ.
Proof.
  unfold input_scalars, input_polys. intros H. invM.
  eapply for_each_pure; [|exact H]. intros x y σ1 σ2 Hx. by apply lookup_ssid_Ok in Hx as [-> _].
Qed.

Lemma value_dict_fold_pure (rs : list ref) (acc : M (gmap Ssid Q)) :
  (∀ σ d σ', acc σ = Ok (d, σ') → σ' = σ) →
  ∀ σ d σ',
    foldl (λ acc x,
             d ← acc;
             o ← load x;
             v ← attr "_value" (_value o);
             mret (match poly o with Sym k => <[k := v]> d | _ => d end))
          acc rs σ = Ok (d, σ') → σ' = σ.
Proof.
  revert acc. induction rs as [|x rs IH]; intros acc Hacc; simpl; [done|].
  apply IH. intros σ d σ' H. invM. by apply Hacc in H0 as ->.
Qed.

Lemma value_pure r σ v σ' : value r σ = Ok (v, σ') → σ' = σ.
Proof.
  unfold value. intros H. invM.
  destruct (isinstance_OriginScalar a); invM; [done|].
  unfold value_dict in H1. invM.
  apply input_scalars_pure in H2 as ->.
  apply value_dict_fold_pure in H1 as ->.
  - destruct (subs a0 (poly a)); invM; done.
  - intros σ1 d σ2 Hd. by apply mret_Ok in Hd as [_ ->].
Qed.

Lemma min_val_pure r σ x σ' : min_val search r σ = Ok (x, σ') → σ' = σ.
Proof.
  unfold min_val. intros H. invM.
  destruct (isinstance_OriginScalar a); invM; [done|]. by injection H as _ <-.
Qed.

Lemma max_val_pure r σ x σ' : max_val search r σ = Ok (x, σ') → σ' = σ.
Proof.
  unfold max_val. intros H. invM.
  destruct (isinstance_OriginScalar a); invM; [done|]. by injection H as _ <-.
Qed.

(** What a promotion that returns has done: nothing when the cache was set,
    and else exactly the steps of [promoted]. *)
Lemma gamma_Ok σ r g σ' :
  gamma search r σ = Ok (g, σ') →
  ∃ o, heap σ !! r = Some o ∧
       ((_gamma o = Some g ∧ σ' = σ) ∨
        (∃ lo v hi e, _gamma o = None ∧ entity o = Some e ∧ g = length (heap σ) ∧
                      σ' = promoted r o lo v hi e σ)).
Proof.
  intros H. unfold gamma in H.
  apply bindM_Ok in H as (o & σ0 & Ho & H). apply load_Ok in Ho as [-> Ho].
  exists o. split; [done|].
  destruct (_gamma o) as [g0|] eqn:Hg.
  - left. by apply mret_Ok in H as [-> ->].
  - right.
    apply bindM_Ok in H as (lo & σ1 & Hlo & H). apply min_val_pure in Hlo as ->.
    apply bindM_Ok in H as (v & σ1 & Hv & H). apply value_pure in Hv as ->.
    apply bindM_Ok in H as (hi & σ1 & Hhi & H). apply max_val_pure in Hhi as ->.
    apply bindM_Ok in H as (e & σ1 & He & H). apply attr_Ok in He as [-> He].
    rewrite (bindM_run _ _ _ _ _ (new_GammaScalar_run lo v hi e σ)) in H.
    erewrite bindM_run in H; [|apply load_run; simpl; by apply lookup_app_l_Some].
    injection H as <- <-. by exists lo, v, hi, e.
Qed.

(** A promoted state keeps what it had: every object but for its cache,
    and every registered symbol when the new name is unused. *)
Lemma promoted_heap σ r o lo v hi e r' o' :
  heap σ !! r = Some o → heap σ !! r' = Some o' →
  ∃ o'', heap (promoted r o lo v hi e σ) !! r' = Some o'' ∧
         cls o'' = cls o' ∧ poly o'' = poly o' ∧ entity o'' = entity o' ∧
         _min_val o'' = _min_val o' ∧ _value o'' = _value o' ∧ _max_val o'' = _max_val o' ∧
         (r' ≠ r → o'' = o').
Proof.
  intros Ho Ho'. simpl. destruct (decide (r = r')) as [<-|Hne].
  - exists (with_gamma (length (heap σ)) o).
    rewrite list_lookup_insert_eq.
    + assert (o' = o) as -> by congruence. by repeat split.
    + rewrite length_app. apply lookup_lt_Some in Ho. lia.
  - exists o'. rewrite list_lookup_insert_ne by done.
    split; [by apply lookup_app_l_Some|]. by repeat split.
Qed.

Lemma promoted_new σ r o lo v hi e :
  heap σ !! r = Some o →
  heap (promoted r o lo v hi e σ) !! length (heap σ) = Some (promotion lo v hi e σ) ∧
  ssid2obj (promoted r o lo v hi e σ) !! SsidOfIdEntity (next_uid σ) e
    = Some (length (heap σ)).
Proof.
  intros Ho. simpl. split; [|by rewrite lookup_insert_eq].
  rewrite list_lookup_insert_ne.
  - apply lookup_snoc_Some. by right.
  - apply lookup_lt_Some in Ho. lia.
Qed.

Lemma promoted_registry σ r o lo v hi e s x :
  fresh σ → ssid2obj σ !! s = Some x →
  ssid2obj (promoted r o lo v hi e σ) !! s = Some x.
Proof.
  intros Hfresh Hs. simpl. rewrite lookup_insert_ne; [done|].
  intros <-. specialize (Hfresh (next_uid σ) e). rewrite Hs in Hfresh.
  specialize (Hfresh (ltac:(eauto))). lia.
Qed.

Lemma promoted_structured σ r o lo v hi e :
  structured σ → heap σ !! r = Some o → structured (promoted r o lo v hi e σ).
Proof.
  intros Hσ Ho. unfold promoted. apply structured_put.
  - apply (structured_new_leaf (bump (bump σ))); [|done|apply origin_has_bounds].
    by do 2 apply structured_bump.
  - simpl. by apply lookup_app_l_Some.
Qed.

Lemma promoted_wf σ r o lo v hi e :
  wf σ → heap σ !! r = Some o → entity o = Some e → wf (promoted r o lo v hi e σ).
Proof.
  intros (Hσ & Hc & Hf) Ho He. split; [by apply promoted_structured|]. split.
  - intros r' o' g Ho' Hg.
    destruct (promoted_new σ r o lo v hi e Ho) as [Hnew Hreg].
    simpl in Ho'. apply list_lookup_insert_Some in Ho' as [(<- & <- & _)|[Hne Ho']].
    + simpl in Hg. injection Hg as <-.
      exists (promotion lo v hi e σ), (next_uid σ), e. by repeat split.
    + apply lookup_snoc_Some in Ho' as [[_ Ho']|[_ <-]]; [|done].
      destruct (Hc r' o' g Ho' Hg) as (og & u & e' & Hog & Hcls & Hp & Hent & Hs).
      destruct (promoted_heap σ r o lo v hi e g og Ho Hog)
        as (og' & Hog' & Hcls' & Hp' & Hent' & _).
      exists og', u, e'. repeat split; try congruence.
      by apply promoted_registry.
  - intros u e' Hs. simpl in *. apply lookup_insert_is_Some in Hs as [[= <- <-]|[_ Hs]]; [lia|].
    specialize (Hf u e' Hs). lia.
Qed.

(** Promotion under the invariants: it returns a registered [GammaScalar]
    of the entity of the phi value, and the state stays well formed. *)
Lemma gamma_spec σ r o e :
  wf σ → heap σ !! r = Some o → entity o = Some e →
  ∃ g σ' og u e',
    gamma search r σ = Ok (g, σ') ∧ wf σ' ∧
    heap σ' !! g = Some og ∧ cls og = GammaScalar ∧
    poly og = Sym (SsidOfIdEntity u e') ∧ entity og = Some e ∧
    ssid2obj σ' !! SsidOfIdEntity u e' = Some g ∧
    (∀ r' o', heap σ !! r' = Some o' →
       ∃ o'', heap σ' !! r' = Some o'' ∧ cls o'' = cls o' ∧ poly o'' = poly o' ∧
              entity o'' = entity o') ∧
    (∀ s x, ssid2obj σ !! s = Some x → ssid2obj σ' !! s = Some x).
Proof.
  intros Hwf Ho He. pose proof Hwf as (Hσ & Hc & Hf).
  destruct (_gamma o) as [g|] eqn:Hg.
  - destruct (Hc r o g Ho Hg) as (og & u & e' & Hog & Hcls & Hp & Hent & Hs).
    exists g, σ, og, u, e'. rewrite (gamma_cached σ r o g Ho Hg).
    split_and!; try done; [congruence|]. intros r' o' Ho'. by exists o'.
  - destruct (gamma_first σ r o e Hσ Ho Hg He) as (lo & v & hi & _ & _ & _ & Hrun).
    destruct (promoted_new σ r o lo v hi e Ho) as [Hnew Hreg].
    exists (length (heap σ)), (promoted r o lo v hi e σ), (promotion lo v hi e σ),
           (next_uid σ), e.
    split_and!; try done.
    + by apply promoted_wf.
    + intros r' o' Ho'.
      destruct (promoted_heap σ r o lo v hi e r' o' Ho Ho') as (o'' & ? & ? & ? & ? & _).
      by exists o''.
    + intros s x Hs. by apply promoted_registry.
Qed.

End Promotion.

Lemma new_IntermediateGammaScalar_run p σ :
  new_IntermediateGammaScalar p σ
  = Ok (length (heap σ),
        push (intermediate IntermediateGammaScalar (next_uid σ) p None) (bump σ)).
Proof. reflexivity. Qed.

Lemma new_IntermediatePhiScalar_run p e σ :
  new_IntermediatePhiScalar p e σ
  = Ok (length (heap σ),
        push (intermediate IntermediatePhiScalar (next_uid σ) p (Some e)) (bump σ)).
Proof. reflexivity. Qed.

(** *** Every state a plain program reaches is well formed *)

Section Reachable.

Variable search : state → expr → Q.

Lemma wf_bump σ : wf σ → wf (bump σ).
Proof.
  intros (Hσ & Hc & Hf). split; [by apply structured_bump|]. split; [done|].
  intros u e Hs. specialize (Hf u e Hs). simpl. lia.
Qed.

Lemma wf_push_intermediate σ c i p e :
  wf σ → isinstance_OriginScalar (intermediate c i p e) = false →
  (∀ s, s ∈ free_symbols p → is_Some (ssid2obj σ !! s)) →
  wf (push (intermediate c i p e) σ).
Proof.
  intros (Hσ & Hc & Hf) Hcls Hp. split; [|split; [|done]].
  - apply structured_push; [done|done|]. by rewrite Hcls.
  - intros r o g Ho Hg. simpl in Ho.
    apply lookup_snoc_Some in Ho as [[_ Ho]|[_ <-]]; [|done].
    destruct (Hc r o g Ho Hg) as (og & u & e' & Hog & H).
    exists og, u, e'. split; [by apply lookup_app_l_Some|done].
Qed.

Lemma wf_new_leaf σ c i s e lo v hi :
  wf σ →
  (∀ u e', s = SsidOfIdEntity u e' → ssid2obj σ !! s = None ∧ (u < next_uid σ)%nat) →
  wf (bind_ssid s (length (heap σ)) (push (origin c i s e lo v hi) σ)).
Proof.
  intros (Hσ & Hc & Hf) Hs. split; [|split].
  - apply structured_new_leaf; [done|done|apply origin_has_bounds].
  - intros r o g Ho Hg. simpl in Ho.
    apply lookup_snoc_Some in Ho as [[_ Ho]|[_ <-]]; [|done].
    destruct (Hc r o g Ho Hg) as (og & u & e' & Hog & Hcls & Hp & Hent & Hreg).
    exists og, u, e'. split; [by apply lookup_app_l_Some|]. split_and!; try done.
    simpl. rewrite lookup_insert_ne; [done|]. intros ->.
    destruct (Hs u e' eq_refl) as [Hnone _]. congruence.
  - intros u e' Hreg. simpl in *.
    apply lookup_insert_is_Some in Hreg as [->|[_ Hreg]]; [|by apply (Hf u e')].
    by destruct (Hs u e' eq_refl).
Qed.

Lemma new_PhiScalar_wf σ lo v hi e i s r σ' :
  wf σ → ¬ derived_name s → new_PhiScalar lo v hi e i s σ = Ok (r, σ') → wf σ'.
Proof.
  intros Hwf Hs H. unfold new_PhiScalar, OriginScalar_init in H.
  destruct e, i; invM; apply wf_new_leaf; auto using wf_bump.
  all: intros u e' Heq; destruct s as [[]|]; simplify_eq/=; by destruct Hs.
Qed.

Lemma new_GammaScalar_wf σ lo v hi e s r σ' :
  wf σ → ¬ derived_name s → new_GammaScalar lo v hi e None s σ = Ok (r, σ') → wf σ'.
Proof.
  intros Hwf Hs H. unfold new_GammaScalar, OriginScalar_init in H.
  pose proof Hwf as (_ & _ & Hf).
  destruct e; invM; apply wf_new_leaf; auto using wf_bump.
  all: intros u e' Heq; destruct s as [[]|]; simplify_eq/=; try by destruct Hs.
  all: split; [|lia].
  all: match goal with |- ?m !! ?k = None => destruct (m !! k) eqn:Hreg; [|done] end.
  all: match type of Hreg with _ !! SsidOfIdEntity ?u ?e = _ =>
         specialize (Hf u e (ltac:(by rewrite Hreg))) end; lia.
Qed.

Lemma gamma_wf σ r g σ' : wf σ → gamma search r σ = Ok (g, σ') → wf σ'.
Proof.
  intros Hwf H. pose proof Hwf as (Hσ & _).
  destruct (gamma_Ok search σ r g σ' H)
    as (o & Ho & [[_ ->]|(lo & v & hi & e & _ & He & _ & ->)]); [done|].
  by apply promoted_wf.
Qed.

Lemma wf_closed σ r o :
  wf σ → heap σ !! r = Some o →
  ∀ s, s ∈ free_symbols (poly o) → is_Some (ssid2obj σ !! s).
Proof. intros (Hσ & _) Ho. by apply (closed _ Hσ r). Qed.

Lemma gamma_op_wf σ op self other r σ' :
  wf σ → gamma_op search op self other σ = Ok (r, σ') → wf σ'.
Proof.
  intros Hwf H. unfold gamma_op in H. destruct other as [c|x]; invM.
  - rewrite new_IntermediateGammaScalar_run in H. injection H as _ <-.
    apply wf_push_intermediate; [by apply wf_bump|done|].
    apply join_closed; [by apply (wf_closed σ self)|by intros s Hs; apply elem_of_empty in Hs].
  - assert (wf σ1) as Hwf1.
    { destruct (isinstance_IntermediatePhiScalar a); invM; [|done]. by eapply gamma_wf. }
    rewrite new_IntermediateGammaScalar_run in H. injection H as _ <-.
    apply wf_push_intermediate; [by apply wf_bump|done|].
    apply join_closed; [by apply (wf_closed σ1 self)|by apply (wf_closed σ1 a0)].
Qed.

Lemma phi_op_wf σ op self other r σ' :
  wf σ → phi_op search op self other σ = Ok (r, σ') → wf σ'.
Proof.
  intros Hwf H. unfold phi_op in H. destruct other as [c|x]; invM.
  - rewrite new_IntermediatePhiScalar_run in H. injection H as _ <-.
    apply wf_push_intermediate; [by apply wf_bump|done|].
    apply join_closed; [by apply (wf_closed σ self)|by intros s Hs; apply elem_of_empty in Hs].
  - destruct (isinstance_IntermediateGammaScalar a); invM.
    + eapply gamma_op_wf; [|exact H]. by eapply gamma_wf.
    + destruct (decide (a1 = a2)); invM.
      * rewrite new_IntermediatePhiScalar_run in H. injection H as _ <-.
        apply wf_push_intermediate; [by apply wf_bump|done|].
        apply join_closed; [by apply (wf_closed σ self)|by apply (wf_closed σ x)].
      * eapply gamma_op_wf; [|exact H].
        eapply gamma_wf; [|eassumption]. by eapply gamma_wf.
Qed.

Lemma binop_wf σ op self other r σ' :
  wf σ → binop search op self other σ = Ok (r, σ') → wf σ'.
Proof.
  intros Hwf H. unfold binop in H. invM.
  destruct (isinstance_IntermediatePhiScalar a).
  - by eapply phi_op_wf.
  - by eapply gamma_op_wf.
Qed.

Lemma run_wf σ c r σ' : wf σ → plain c → run search c σ = Ok (r, σ') → wf σ'.
Proof.
  intros Hwf Hc H. destruct c; simpl in *.
  - by eapply new_PhiScalar_wf.
  - destruct Hc as [-> Hs]. by eapply new_GammaScalar_wf.
  - by eapply binop_wf.
Qed.

Lemma wf_init : wf init.
Proof.
  split; [apply consistent_init|]. split.
  - by intros [] o g H.
  - intros u e H. simpl in H. rewrite lookup_empty in H. by destruct H.
Qed.

(** Whatever a program of plain commands builds is well formed. *)
Lemma exec_wf prog σ u σ' :
  wf σ → Forall plain prog → exec search prog σ = Ok (u, σ') → wf σ'.
Proof.
  revert σ. induction prog as [|c prog IH]; intros σ Hwf Hprog H; simpl in H; invM.
  - done.
  - apply Forall_cons in Hprog as [Hc Hprog].
    eapply IH; [|exact Hprog|exact H]. by eapply run_wf.
Qed.

End Reachable.

(** *** Reading the entities behind a polynomial *)

Lemma for_each_entity σ (l : list Ssid) (rs : list ref) :
  Forall2 (λ s r, ssid2obj σ !! s = Some r) l rs →
  (∀ s, s ∈ l → ∃ o, leaf σ s = Some o ∧ is_Some (entity o)) →
  for_each (λ x, o ← load x; attr "entity" (entity o)) rs σ = Ok (leaf_entity σ <$> l, σ).
Proof.
  induction 1 as [|s r l rs Hs HF IH]; intros Hl; [done|].
  destruct (Hl s) as (o & Ho & [e He]); [left|].
  simpl. assert (heap σ !! r = Some o) as Hr.
  { unfold leaf in Ho. by rewrite Hs in Ho. }
  erewrite bindM_run; [|erewrite bindM_run; [|by apply load_run]; by rewrite He].
  erewrite bindM_run; [|apply IH; intros s' Hs'; apply Hl; by right].
  unfold leaf_entity. rewrite Ho. simpl. by rewrite He.
Qed.

Lemma input_entities_spec σ r o :
  heap σ !! r = Some o →
  (∀ s, s ∈ free_symbols (poly o) → ∃ o', leaf σ s = Some o' ∧ is_Some (entity o')) →
  input_entities r σ
  = Ok (elements (set_map (leaf_entity σ) (free_symbols (poly o)) : gset nat), σ).
Proof.
  intros Ho Hl.
  destruct (for_each_lookup σ (elements (free_symbols (poly o)))) as (rs & Hrs & HF).
  { intros s Hs. apply elem_of_elements in Hs.
    destruct (Hl s Hs) as (o' & Ho' & _). unfold leaf in Ho'.
    destruct (ssid2obj σ !! s); [done|discriminate Ho']. }
  unfold input_entities, input_scalars, input_polys.
  erewrite bindM_run.
  2:{ erewrite bindM_run; [exact Hrs|]. erewrite bindM_run; [|by apply load_run]. done. }
  erewrite bindM_run.
  2:{ apply for_each_entity; [exact HF|]. intros s Hs. apply Hl. by apply elem_of_elements. }
  done.
Qed.


(** *** C1: promotion is decided by entity identity *)

Lemma leaf_push σ o s og r :
  ssid2obj σ !! s = Some r → heap σ !! r = Some og → leaf (push o (bump σ)) s = Some og.
Proof.
  intros Hs Hr. unfold leaf. simpl. rewrite Hs. simpl. by apply lookup_app_l_Some.
Qed.

(** C1.  For phi values [a] and [b] (a [PhiScalar] or an
    [IntermediatePhiScalar] each) in a well-formed state, [a + b] returns;
    when the entities are equal the result is an [IntermediatePhiScalar] of
    that entity, and when they differ it is gamma-typed and its
    [input_entities] are exactly the two entities. *)
Theorem phi_add_promotion (search : state → expr → Q) (σ : state)
    (a b : ref) (oa ob : object) (ea eb : Entity) :
  wf σ →
  heap σ !! a = Some oa → heap σ !! b = Some ob →
  isinstance_IntermediatePhiScalar oa = true →
  isinstance_IntermediatePhiScalar ob = true →
  entity oa = Some ea → entity ob = Some eb →
  ∃ r σ' o,
    __add__ search a (Scalar b) σ = Ok (r, σ') ∧ heap σ' !! r = Some o ∧
    (ea = eb → cls o = IntermediatePhiScalar ∧ entity o = Some ea) ∧
    (ea ≠ eb → isinstance_IntermediateGammaScalar o = true ∧
               ∃ es, input_entities r σ' = Ok (es, σ') ∧
                     list_to_set es =@{gset nat} {[ea; eb]}).
Proof.
  intros Hwf Ha Hb Hpa Hpb Hea Heb.
  assert (isinstance_IntermediateGammaScalar ob = false) as Hgb.
  { unfold isinstance_IntermediatePhiScalar, isinstance_IntermediateGammaScalar in *.
    by destruct (cls ob). }
  unfold __add__, binop.
  rewrite (bindM_run _ _ _ _ _ (load_run _ _ _ Ha)), Hpa. unfold phi_op.
  rewrite (bindM_run _ _ _ _ _ (load_run _ _ _ Hb)), Hgb.
  rewrite (bindM_run _ _ _ _ _ (load_run _ _ _ Ha)), Hea, Heb.
  unfold attr. erewrite !bindM_run by reflexivity.
  destruct (decide (ea = eb)) as [Heq|Hne].
  - rewrite new_IntermediatePhiScalar_run.
    eexists _, _, _. split; [reflexivity|]. split.
    + simpl. apply lookup_snoc_Some. right. split; reflexivity.
    + split; [done|]. intros Hne. by destruct Hne.
  - destruct (gamma_spec search σ a oa ea Hwf Ha Hea)
      as (g1 & σ1 & og1 & u1 & e1 & Hrun1 & Hwf1 & Hog1 & Hcls1 & Hp1 & Hent1 & Hreg1
          & Hkeep1 & _).
    destruct (Hkeep1 b ob Hb) as (ob' & Hb' & _ & _ & Hentb).
    rewrite Heb in Hentb.
    destruct (gamma_spec search σ1 b ob' eb Hwf1 Hb' Hentb)
      as (g2 & σ2 & og2 & u2 & e2 & Hrun2 & Hwf2 & Hog2 & Hcls2 & Hp2 & Hent2 & Hreg2
          & Hkeep2 & Hregs2).
    destruct (Hkeep2 g1 og1 Hog1) as (og1' & Hog1' & Hcls1' & Hp1' & Hent1').
    specialize (Hregs2 _ _ Hreg1).
    rewrite (bindM_run _ _ _ _ _ Hrun1), (bindM_run _ _ _ _ _ Hrun2).
    unfold gamma_op.
    rewrite (bindM_run _ _ _ _ _ (load_run _ _ _ Hog2)).
    assert (isinstance_IntermediatePhiScalar og2 = false) as ->.
    { unfold isinstance_IntermediatePhiScalar. by rewrite Hcls2. }
    erewrite bindM_run by reflexivity.
    rewrite (bindM_run _ _ _ _ _ (load_run _ _ _ Hog1')).
    rewrite (bindM_run _ _ _ _ _ (load_run _ _ _ Hog2)).
    rewrite new_IntermediateGammaScalar_run.
    eexists _, _, _. split; [reflexivity|]. split.
    { simpl. apply lookup_snoc_Some. right. split; reflexivity. }
    split; [done|]. intros _. split; [done|].
    eexists. split.
    + apply input_entities_spec.
      * simpl. apply lookup_snoc_Some. right. split; reflexivity.
      * simpl. rewrite Hp1', Hp1, Hp2. simpl. intros s Hs.
        apply elem_of_union in Hs as [Hs|Hs]; apply elem_of_singleton in Hs as ->.
        -- exists og1'. split; [by eapply leaf_push|]. rewrite Hent1', Hent1. by eexists.
        -- exists og2. split; [by eapply leaf_push|]. rewrite Hent2. by eexists.
    + rewrite list_to_set_elements_L. simpl. rewrite Hp1', Hp1, Hp2. simpl.
      rewrite set_map_union_L, !set_map_singleton_L.
      unfold leaf_entity.
      rewrite (leaf_push σ2 _ _ og1' g1 Hregs2 Hog1'), (leaf_push σ2 _ _ og2 g2 Hreg2 Hog2).
      simpl. rewrite Hent1', Hent1, Hent2. done.
Qed.

(** *** C10: who writes to the registry *)

Section Registry.

Variable search : state → expr → Q.

Lemma grows_refl σ : grows σ σ.
Proof. constructor; eauto. Qed.

Lemma grows_trans σ1 σ2 σ3 : grows σ1 σ2 → grows σ2 σ3 → grows σ1 σ3.
Proof.
  intros [L1 H1 R1] [L2 H2 R2]. constructor.
  - lia.
  - intros r o Ho. destruct (H1 r o Ho) as (o' & Ho' & Hc).
    destruct (H2 r o' Ho') as (o'' & Ho'' & Hc'). exists o''. split; [done|congruence].
  - intros s x Hs. destruct (R2 s x Hs) as [Hs2|(Hx & o & Ho & Hc)].
    + destruct (R1 s x Hs2) as [?|(Hx & o & Ho & Hc)]; [by left|].
      right. split; [done|]. destruct (H2 x o Ho) as (o' & Ho' & Hc').
      exists o'. split; [done|congruence].
    + right. split; [lia|]. by exists o.
Qed.

Lemma grows_push σ o : grows σ (push o (bump σ)).
Proof.
  constructor; simpl.
  - rewrite length_app. lia.
  - intros r o' Ho'. exists o'. split; [by apply lookup_app_l_Some|done].
  - intros s x Hs. by left.
Qed.

Lemma grows_promoted σ r o lo v hi e :
  heap σ !! r = Some o → grows σ (promoted r o lo v hi e σ).
Proof.
  intros Ho. constructor.
  - simpl. rewrite length_insert, length_app. lia.
  - intros r' o' Ho'.
    destruct (promoted_heap σ r o lo v hi e r' o' Ho Ho') as (o'' & ? & ? & _).
    by exists o''.
  - intros s x Hs. simpl in Hs. apply lookup_insert_Some in Hs as [[<- <-]|[_ Hs]]; [|by left].
    right. split; [done|]. exists (promotion lo v hi e σ).
    split; [|done]. by apply promoted_new.
Qed.

Lemma gamma_grows σ r g σ' : gamma search r σ = Ok (g, σ') → grows σ σ'.
Proof.
  intros H. destruct (gamma_Ok search σ r g σ' H)
    as (o & Ho & [[_ ->]|(lo & v & hi & e & _ & _ & _ & ->)]).
  - apply grows_refl.
  - by apply grows_promoted.
Qed.

Lemma gamma_op_grows σ op self other r σ' :
  gamma_op search op self other σ = Ok (r, σ') → grows σ σ'.
Proof.
  intros H. unfold gamma_op in H. destruct other as [c|x]; invM.
  - rewrite new_IntermediateGammaScalar_run in H. injection H as _ <-. apply grows_push.
  - rewrite new_IntermediateGammaScalar_run in H. injection H as _ <-.
    apply (grows_trans _ σ1); [|apply grows_push].
    destruct (isinstance_IntermediatePhiScalar a); invM; [|apply grows_refl].
    by eapply gamma_grows.
Qed.

Lemma phi_op_grows σ op self other r σ' :
  phi_op search op self other σ = Ok (r, σ') → grows σ σ'.
Proof.
  intros H. unfold phi_op in H. destruct other as [c|x]; invM.
  - rewrite new_IntermediatePhiScalar_run in H. injection H as _ <-. apply grows_push.
  - destruct (isinstance_IntermediateGammaScalar a); invM.
    + eapply grows_trans; [by eapply gamma_grows|by eapply gamma_op_grows].
    + destruct (decide (a1 = a2)); invM.
      * rewrite new_IntermediatePhiScalar_run in H. injection H as _ <-. apply grows_push.
      * eapply grows_trans; [by eapply gamma_grows|].
        eapply grows_trans; [by eapply gamma_grows|by eapply gamma_op_grows].
Qed.

Lemma binop_quiet σ op self other r σ' :
  binop search op self other σ = Ok (r, σ') → no_promotion σ self other →
  ssid2obj σ' = ssid2obj σ.
Proof.
  intros H Hq. unfold binop in H. invM.
  destruct other as [c|x]; simpl in Hq.
  - destruct (isinstance_IntermediatePhiScalar a); simpl in H; invM.
    + rewrite new_IntermediatePhiScalar_run in H. by injection H as _ <-.
    + rewrite new_IntermediateGammaScalar_run in H. by injection H as _ <-.
  - destruct Hq as (oa & ob & Hoa & Hob & Hq). assert (a = oa) as -> by congruence.
    destruct Hq as [(Hpa & Hpb & Hent)|[Hga Hgb]].
    + rewrite Hpa in H. unfold phi_op in H. invM.
      assert (a = ob) as -> by congruence.
      assert (isinstance_IntermediateGammaScalar ob = false) as Hg.
      { unfold isinstance_IntermediatePhiScalar, isinstance_IntermediateGammaScalar in *.
        by destruct (cls ob). }
      rewrite Hg in H. invM.
      assert (a = oa) as -> by congruence.
      destruct (decide (a0 = a1)) as [_|Hne]; [|congruence].
      rewrite new_IntermediatePhiScalar_run in H. by injection H as _ <-.
    + rewrite Hga in H. unfold gamma_op in H. invM.
      assert (a = ob) as -> by congruence.
      rewrite Hgb in H2. invM.
      rewrite new_IntermediateGammaScalar_run in H. by injection H as _ <-.
Qed.

End Registry.

(** C10 as the code has it.  An operator that returns leaves every registry
    entry as it was or pointing to a [GammaScalar] it has created meanwhile:
    the only writes are made by the constructor of an origin scalar, which
    promotion calls.  Where no operand is promoted (a public number, two phi
    values of one entity, two gamma values) the registry is unchanged. *)
Theorem registry_writes (search : state → expr → Q) (op : operator)
    (self : ref) (other : operand) (σ σ' : state) (r : ref) :
  binop search op self other σ = Ok (r, σ') →
  (∀ s x, ssid2obj σ' !! s = Some x →
     ssid2obj σ !! s = Some x ∨
     ((length (heap σ) ≤ x)%nat ∧ ∃ o, heap σ' !! x = Some o ∧ cls o = GammaScalar)) ∧
  (no_promotion σ self other → ssid2obj σ' = ssid2obj σ).
Proof.
  intros H. split; [|by eapply binop_quiet].
  assert (grows σ σ') as [_ _ Hreg]; [|exact Hreg].
  unfold binop in H. invM. destruct (isinstance_IntermediatePhiScalar a).
  - by eapply phi_op_grows.
  - by eapply gamma_op_grows.
Qed.

Lemma registry_writes_witness :
  (∀ s x,
     ssid2obj (after (__add__ interval_search 0%nat (Scalar 1%nat))
                     (final interval_search two_leaves)) !! s = Some x →
     ssid2obj (final interval_search two_leaves) !! s = Some x ∨
     ((length (heap (final interval_search two_leaves)) ≤ x)%nat ∧
      ∃ o, heap (after (__add__ interval_search 0%nat (Scalar 1%nat))
                       (final interval_search two_leaves)) !! x = Some o ∧
           cls o = GammaScalar)) ∧
  (no_promotion (final interval_search two_leaves) 0%nat (Scalar 1%nat) →
   ssid2obj (after (__add__ interval_search 0%nat (Scalar 1%nat))
                   (final interval_search two_leaves))
   = ssid2obj (final interval_search two_leaves)).
Proof.
  apply (registry_writes interval_search OpAdd 0%nat (Scalar 1%nat)
           (final interval_search two_leaves) _ 4%nat).
  by vm_compute.
Defined.

(** C10 as stated fails: adding two phi values of different entities
    registers the two promotions.  Before [x + y] the registry has no entry
    under the name derived from UID 4 and entity 0; after it, that name
    leads to object 2, the promotion of [x]. *)
Lemma addition_registers :
  ssid2obj (final interval_search two_leaves) !! SsidOfIdEntity 4 0 = None ∧
  size (ssid2obj (final interval_search two_leaves)) = 2%nat ∧
  ∃ r σ',
    __add__ interval_search 0%nat (Scalar 1%nat) (final interval_search two_leaves)
      = Ok (r, σ') ∧
    ssid2obj σ' !! SsidOfIdEntity 4 0 = Some 2%nat ∧
    size (ssid2obj σ') = 4%nat.
Proof.
  split; [by vm_compute|]. split; [by vm_compute|].
  eexists _, _. split; [by vm_compute|]. split; by vm_compute.
Qed.

Lemma two_leaves_wf : wf (final interval_search two_leaves).
Proof.
  apply (exec_wf interval_search two_leaves init tt); [apply wf_init| |by vm_compute].
  repeat constructor; simpl; tauto.
Qed.

Lemma phi_add_promotion_witness :
  ∃ r σ' o,
    __add__ interval_search 0%nat (Scalar 1%nat) (final interval_search two_leaves)
      = Ok (r, σ') ∧
    heap σ' !! r = Some o ∧
    (0%nat = 1%nat → cls o = IntermediatePhiScalar ∧ entity o = Some 0%nat) ∧
    (0%nat ≠ 1%nat →
       isinstance_IntermediateGammaScalar o = true ∧
       ∃ es, input_entities r σ' = Ok (es, σ') ∧
             list_to_set es =@{gset nat} {[0%nat; 1%nat]}).
Proof.
  apply (phi_add_promotion interval_search (final interval_search two_leaves) 0%nat 1%nat
           (origin PhiScalar 1 (SsidOfId 0) 0 0 5 10)
           (origin PhiScalar 3 (SsidOfId 2) 1 0 3 10)).
  - apply two_leaves_wf.
  - by vm_compute.
  - by vm_compute.
  - reflexivity.
  - reflexivity.
  - reflexivity.
  - reflexivity.
Defined.

(** *** The interval search is a sound extremum search *)

Lemma Qmin4_le (a b c d : Q) :
  Qmin4 a b c d <= a ∧ Qmin4 a b c d <= b ∧ Qmin4 a b c d <= c ∧ Qmin4 a b c d <= d.
Proof.
  unfold Qmin4.
  pose proof (Q.le_min_l (Qmin a b) (Qmin c d)). pose proof (Q.le_min_r (Qmin a b) (Qmin c d)).
  pose proof (Q.le_min_l a b). pose proof (Q.le_min_r a b).
  pose proof (Q.le_min_l c d). pose proof (Q.le_min_r c d).
  repeat split; lra.
Qed.

Lemma Qmax4_ge (a b c d : Q) :
  a <= Qmax4 a b c d ∧ b <= Qmax4 a b c d ∧ c <= Qmax4 a b c d ∧ d <= Qmax4 a b c d.
Proof.
  unfold Qmax4.
  pose proof (Q.le_max_l (Qmax a b) (Qmax c d)). pose proof (Q.le_max_r (Qmax a b) (Qmax c d)).
  pose proof (Q.le_max_l a b). pose proof (Q.le_max_r a b).
  pose proof (Q.le_max_l c d). pose proof (Q.le_max_r c d).
  repeat split; lra.
Qed.

(** A product lies between the least and the greatest corner product. *)
Lemma product_between (a b c d x y : Q) :
  a <= x <= b → c <= y <= d →
  Qmin4 (a * c) (a * d) (b * c) (b * d) <= x * y <= Qmax4 (a * c) (a * d) (b * c) (b * d).
Proof.
  intros [Hax Hxb] [Hcy Hyd].
  destruct (Qmin4_le (a * c) (a * d) (b * c) (b * d)) as (? & ? & ? & ?).
  destruct (Qmax4_ge (a * c) (a * d) (b * c) (b * d)) as (? & ? & ? & ?).
  destruct (Qlt_le_dec y 0), (Qlt_le_dec a 0), (Qlt_le_dec b 0); split; nra.
Qed.

Lemma in_box_Add_l σ p q ρ : in_box σ (Add p q) ρ → in_box σ p ρ.
Proof. intros H s Hs. apply H. simpl. apply elem_of_union. by left. Qed.

Lemma in_box_Add_r σ p q ρ : in_box σ (Add p q) ρ → in_box σ q ρ.
Proof. intros H s Hs. apply H. simpl. apply elem_of_union. by right. Qed.

Lemma interval_encloses σ p ρ :
  in_box σ p ρ → fst (interval σ p) <= eval ρ p <= snd (interval σ p).
Proof.
  induction p as [s|c|p IHp q IHq|p IHp q IHq]; intros Hbox; simpl.
  - destruct (Hbox s) as (o & lo & hi & -> & -> & -> & H); [|done].
    simpl. by apply elem_of_singleton.
  - lra.
  - specialize (IHp (in_box_Add_l _ _ _ _ Hbox)). specialize (IHq (in_box_Add_r _ _ _ _ Hbox)).
    destruct (interval σ p) as [a b], (interval σ q) as [c d]. simpl in *. lra.
  - specialize (IHp (in_box_Add_l _ _ _ _ Hbox)). specialize (IHq (in_box_Add_r _ _ _ _ Hbox)).
    destruct (interval σ p) as [a b], (interval σ q) as [c d]. simpl in *.
    by apply product_between.
Qed.

Lemma interval_search_sound : sound interval_search.
Proof. intros σ p ρ Hbox. by apply interval_encloses. Qed.

(** *** C3: the bound invariant *)

(** C3.  After any chain of constructions with ordered bounds and of
    operators [+], [-], [*], every scalar object, constructed or derived,
    has [min_val <= value <= max_val]: the three accessors return and are
    ordered.  The extremum search behind [min_val] and [max_val] of a derived
    scalar is assumed to return a value below the polynomial on the box. *)
Theorem bound_invariant (search : state → expr → Q) (prog : list command)
    (σ : state) (r : ref) (o : object) :
  sound search →
  Forall well_ordered prog →
  exec search prog init = Ok (tt, σ) →
  heap σ !! r = Some o →
  ∃ lo v hi,
    min_val search r σ = Ok (lo, σ) ∧
    value r σ = Ok (v, σ) ∧
    max_val search r σ = Ok (hi, σ) ∧
    lo <= v <= hi.
Proof.
  intros Hsound Hprog Hexec Ho.
  destruct (exec_consistent search Hsound prog init tt σ consistent_init Hprog Hexec)
    as [Hs Hord].
  by apply (bounds_hold search σ r o).
Qed.

Lemma bound_invariant_witness :
  ∃ lo v hi,
    min_val interval_search 7%nat (final interval_search chain)
      = Ok (lo, final interval_search chain) ∧
    value 7%nat (final interval_search chain) = Ok (v, final interval_search chain) ∧
    max_val interval_search 7%nat (final interval_search chain)
      = Ok (hi, final interval_search chain) ∧
    lo <= v <= hi.
Proof.
  destruct (heap (final interval_search chain) !! 7%nat) as [o|] eqn:Ho;
    [|by vm_compute in Ho].
  apply (bound_invariant interval_search chain (final interval_search chain) 7%nat o).
  - apply interval_search_sound.
  - repeat constructor; simpl; lra.
  - by vm_compute.
  - exact Ho.
Defined.

End ScalarProperties.

(** ** Sensitivity *)

Module SearchProperties.
Import Sympy Scalars Search ScalarProperties.

Local Open Scope Q_scope.

Section Contract.

Variable search : state → expr → Q.
Variable minimize : state → ((Ssid → Q) → Q) → (Ssid → Q) * bool.
Variable magnitude : list Q → Q.



End Contract.


(** *** C2: the end-to-end scenario *)









End SearchProperties.

(** ** The constraints of the explicit search *)

Module ExplicitSearchProperties.
Import Sympy Scalars ExplicitSearch ScalarProperties.

Local Open Scope Q_scope.

Lemma lift_Ok {A} (m : result A) σ a σ' : lift m σ = Ok (a, σ') → σ' = σ ∧ m = Ok a.
Proof. unfold lift. destruct m; [|done]. by intros [= -> ->]. Qed.

Lemma for_each_length {A B} (f : A → M B) (l : list A) σ ys σ' :
  for_each f l σ = Ok (ys, σ') → length ys = length l.
Proof.
  revert σ ys. induction l as [|x l IH]; intros σ ys H; simpl in H; invM; [done|].
  simpl. f_equal. by eapply IH.
Qed.

Section Reads.

Variable search : state → expr → Q.
Variable i2s : list Ssid.
Variable s2i : gmap Ssid nat.

(** The loops after the counterparts only read. *)
Lemma s2range_loop_pure acc l σ d σ' :
  s2range_loop search acc l σ = Ok (d, σ') → σ' = σ.
Proof.
  revert acc σ. induction l as [|entry l IH]; intros acc σ H; simpl in H.
  - by apply mret_Ok in H as [_ ->].
  - apply bindM_Ok in H as (acc' & σ1 & Hstep & H). apply IH in H as ->.
    unfold s2range_step in Hstep.
    apply bindM_Ok in Hstep as (x & σ2 & Hx & Hstep).
    apply bindM_Ok in Hx as (k & σ3 & Hk & Hx). apply lift_Ok in Hk as [-> _].
    apply lookup_ssid_Ok in Hx as [-> _].
    apply bindM_Ok in Hstep as (y & σ2 & Hy & Hstep).
    apply bindM_Ok in Hy as (k' & σ3 & Hk' & Hy). apply lift_Ok in Hk' as [-> _].
    apply lookup_ssid_Ok in Hy as [-> _].
    apply bindM_Ok in Hstep as (lo & σ2 & Hlo & Hstep). apply min_val_pure in Hlo as ->.
    apply bindM_Ok in Hstep as (hi & σ2 & Hhi & Hstep). apply max_val_pure in Hhi as ->.
    apply bindM_Ok in Hstep as (s & σ2 & Hs & Hstep).
    apply bindM_Ok in Hs as (o & σ3 & Ho & Hs). apply load_Ok in Ho as [-> _].
    apply attr_Ok in Hs as [-> _].
    apply bindM_Ok in Hstep as (s' & σ2 & Hs' & Hstep).
    apply bindM_Ok in Hs' as (o' & σ3 & Ho' & Hs'). apply load_Ok in Ho' as [-> _].
    apply attr_Ok in Hs' as [-> _].
    by apply mret_Ok in Hstep as [_ ->].
Qed.

Lemma r2_step_pure p σ y σ' : r2_step search s2i p σ = Ok (y, σ') → σ' = σ.
Proof.
  intros H. unfold r2_step in H.
  apply bindM_Ok in H as (syms & σ1 & Hsyms & H).
  apply for_each_pure in Hsyms as ->.
  2:{ intros x y' σa σb Hx. by apply lookup_ssid_Ok in Hx as [-> _]. }
  apply bindM_Ok in H as (ids & σ1 & Hids & H).
  apply for_each_pure in Hids as ->.
  2:{ intros x y' σa σb Hx.
      apply bindM_Ok in Hx as (o & σc & Ho & Hx). apply load_Ok in Ho as [-> _].
      apply bindM_Ok in Hx as (k & σc & Hk & Hx). apply attr_Ok in Hk as [-> _].
      by apply lift_Ok in Hx as [-> _]. }
  apply bindM_Ok in H as (first & σ1 & Hfirst & H). apply lift_Ok in Hfirst as [-> _].
  apply bindM_Ok in H as (lo & σ1 & Hlo & H). apply min_val_pure in Hlo as ->.
  apply bindM_Ok in H as (hi & σ1 & Hhi & H). apply max_val_pure in Hhi as ->.
  by apply mret_Ok in H as [_ ->].
Qed.

(** A call that returns has read the input scalars, built one additive
    counterpart for each, which is all it does to the state, and handed
    over one pair of bounds for every symbol of the table and the lambdas of
    [i = 0] and [i = 1] followed by the constraint on the additive terms. *)
Lemma explicit_search_Ok self σ rranges constraints σ' :
  max_lipschitz_via_explicit_search search i2s s2i self σ = Ok ((rranges, constraints), σ') →
  ∃ rs r2_diffs steps,
    input_scalars self σ = Ok (rs, σ) ∧
    for_each (additive_counterpart search) rs σ = Ok (r2_diffs, σ') ∧
    length rranges = length i2s ∧
    constraints
    = (Lambda <$> (i ← seq 0 2; [f1 steps.*1 steps.*2 i; f2 steps.*1 steps.*2 i]))
      ++ [RootLess (additive_terms s2i r2_diffs) (1 / 2 ^ 16)].
Proof.
  intros H. unfold max_lipschitz_via_explicit_search in H.
  apply bindM_Ok in H as (r1 & σ1 & Hr1 & H).
  apply bindM_Ok in Hr1 as (rs & σ0 & Hrs & Hr1).
  pose proof Hrs as Hrs'. apply input_scalars_pure in Hrs' as ->.
  apply for_each_pure in Hr1 as ->.
  2:{ intros x y σa σb Hx. apply bindM_Ok in Hx as (o & σc & Ho & Hx).
      apply load_Ok in Ho as [-> _]. by apply mret_Ok in Hx as [_ ->]. }
  apply bindM_Ok in H as (r2_diffs & σ1 & Hdiffs & H).
  apply bindM_Ok in Hdiffs as (rs' & σ0 & Hrs2 & Hdiffs).
  pose proof Hrs2 as Hrs2'. apply input_scalars_pure in Hrs2' as ->.
  assert (rs' = rs) as -> by congruence.
  apply bindM_Ok in H as (s2range & σ2 & Hloop & H). apply s2range_loop_pure in Hloop as ->.
  apply bindM_Ok in H as (rr & σ2 & Hrr & H). apply lift_Ok in Hrr as [-> Hrr].
  apply bindM_Ok in H as (steps & σ2 & Hsteps & H).
  apply for_each_pure in Hsteps as ->.
  2:{ intros x y σa σb Hx. by eapply r2_step_pure. }
  apply mret_Ok in H as [H ->]. injection H as -> ->.
  exists rs, r2_diffs, steps. split_and!; try done.
  by apply TensorProperties.mapM_result_length in Hrr.
Qed.

End Reads.

(** What the lower lambda computes on one pair: the sum of the two entries
    plus the lower bound. *)
Lemma f1_value a b lo hi x xa xb :
  x !! a = Some xa → x !! b = Some xb →
  f1 [[a; b]] [(lo, hi)] 0%nat x = Ok (xa + xb + lo).
Proof. intros Ha Hb. unfold f1, index. simpl. by rewrite Ha, Hb. Qed.

(** With the box [[-2, -1]] the pair [-1 + -1], which is in the box, is
    refused by the lower lambda. *)
Example lower_constraint_sign :
  holds (Lambda (f1 [[0; 1]%nat] [(-2, -1)] 0%nat)) [-1; -1] = Ok false.
Proof. reflexivity. Qed.

Lemma third_unconstrained_sound i2s :
  third_unconstrained i2s = true →
  ∃ rranges constraints σ va vd hi,
    max_lipschitz_via_explicit_search interval_search i2s (symbol2index i2s) 4%nat
      three_state = Ok ((rranges, constraints), σ) ∧
    within rranges (third_pair_at_two i2s) = true ∧
    Forall (λ c, holds c (third_pair_at_two i2s) = Ok true) constraints ∧
    getitem (symbol2index i2s) (SsidOfIdEntity 0 0) ≫= index (third_pair_at_two i2s) = Ok va ∧
    getitem (symbol2index i2s) (SsidOfIdEntity 12 0) ≫= index (third_pair_at_two i2s) = Ok vd ∧
    max_val interval_search 0%nat σ = Ok (hi, σ) ∧
    hi < va + vd.
Proof.
  unfold third_unconstrained. intros H.
  destruct (max_lipschitz_via_explicit_search _ _ _ _ _) as [[[rranges constraints] σ]|];
    [|done].
  apply andb_prop in H as [H H3]. apply andb_prop in H as [H1 H2].
  destruct (getitem _ (SsidOfIdEntity 0 0) ≫= _) as [va|] eqn:Hva; [|done].
  destruct (getitem _ (SsidOfIdEntity 12 0) ≫= _) as [vd|] eqn:Hvd; [|done].
  destruct (max_val interval_search 0%nat σ) as [[hi σ0]|] eqn:Hhi; [|done].
  pose proof (max_val_pure _ _ _ _ _ Hhi) as ->.
  exists rranges, constraints, σ, va, vd, hi. split_and!; try done.
  - apply Forall_forall. intros c Hc.
    rewrite forallb_forall in H2. specialize (H2 c).
    destruct (holds c (third_pair_at_two i2s)) as [[|]|]; try done.
    all: exfalso; apply list_elem_of_In in Hc; by specialize (H2 Hc).
  - apply negb_true_iff in H3. apply Qnot_le_lt. intros Hle.
    apply Qle_bool_iff in Hle. congruence.
Qed.

Lemma third_unconstrained_all : forallb third_unconstrained (permutations three_i2s) = true.
Proof. by vm_compute. Qed.

(** C9.  On [t = a * b * c], a polynomial of three input scalars with the
    box [[1, 2]] each, and whatever the order in which the lookup table
    lists the six symbols of the ratio, the explicit search builds five
    constraints: the two lambdas of the first input, the two of the second,
    and the constraint on the additive terms with slack [1 / 2 ^ 16].  The
    third input has none: the vector with [a = 2] and its additive
    counterpart at [2] (and every other entry at [1]) is within the bounds
    and passes all five, though [2 + 2] is above [a.max_val]. *)
Theorem explicit_search_constraints (i2s : list Ssid) :
  i2s ≡ₚ three_i2s →
  ∃ rranges constraints σ out x va vd hi,
    input_scalars 4%nat three_state = Ok ([2; 1; 0]%nat, three_state) ∧
    max_lipschitz_via_explicit_search interval_search i2s (symbol2index i2s) 4%nat
      three_state = Ok ((rranges, constraints), σ) ∧
    length constraints = 5%nat ∧
    last constraints = Some (RootLess out (1 / 2 ^ 16)) ∧
    within rranges x = true ∧
    Forall (λ c, holds c x = Ok true) constraints ∧
    getitem (symbol2index i2s) (SsidOfIdEntity 0 0) ≫= index x = Ok va ∧
    getitem (symbol2index i2s) (SsidOfIdEntity 12 0) ≫= index x = Ok vd ∧
    max_val interval_search 0%nat σ = Ok (hi, σ) ∧
    hi < va + vd.
Proof.
  intros Hperm.
  assert (third_unconstrained i2s = true) as Hcheck.
  { pose proof third_unconstrained_all as Hall. rewrite forallb_forall in Hall.
    apply Hall, list_elem_of_In, permutations_Permutation. by symmetry. }
  destruct (third_unconstrained_sound i2s Hcheck)
    as (rranges & constraints & σ & va & vd & hi & Hrun & Hin & Hall & Hva & Hvd & Hhi & Hlt).
  destruct (explicit_search_Ok _ _ _ _ _ _ _ _ Hrun) as (rs & r2_diffs & steps & _ & _ & _ & ->).
  exists rranges. eexists _, σ, _, (third_pair_at_two i2s), va, vd, hi.
  split; [by vm_compute|]. split; [exact Hrun|].
  split; [reflexivity|]. split; [reflexivity|]. by split_and!.
Qed.

Lemma explicit_search_constraints_witness :
  ∃ rranges constraints σ out x va vd hi,
    input_scalars 4%nat three_state = Ok ([2; 1; 0]%nat, three_state) ∧
    max_lipschitz_via_explicit_search interval_search three_i2s (symbol2index three_i2s) 4%nat
      three_state = Ok ((rranges, constraints), σ) ∧
    length constraints = 5%nat ∧
    last constraints = Some (RootLess out (1 / 2 ^ 16)) ∧
    within rranges x = true ∧
    Forall (λ c, holds c x = Ok true) constraints ∧
    getitem (symbol2index three_i2s) (SsidOfIdEntity 0 0) ≫= index x = Ok va ∧
    getitem (symbol2index three_i2s) (SsidOfIdEntity 12 0) ≫= index x = Ok vd ∧
    max_val interval_search 0%nat σ = Ok (hi, σ) ∧
    hi < va + vd.
Proof. apply (explicit_search_constraints three_i2s). reflexivity. Defined.

(** On a sum of leaves the search gets no further than the loop over the
    perturbed values.  In [t = a + b + c] the input symbols cancel when
    sympy forms [fr1 - fr2], so the ratio mentions the three counterparts
    only and the table lists no input symbol: looking up the index of the
    first one raises [KeyError]. *)
Example explicit_search_on_sum :
  max_lipschitz_via_explicit_search interval_search counterparts (symbol2index counterparts)
    4%nat (final interval_search sum_leaves) = Raise KeyError.
Proof. by vm_compute. Qed.

(** The explicit search registers the additive counterparts: the registry
    of three symbols has six after the call. *)
Example explicit_search_registers :
  size (ssid2obj three_state) = 3%nat ∧ size (ssid2obj three_arguments.2) = 6%nat.
Proof. split; by vm_compute. Qed.

End ExplicitSearchProperties.

(** ** Mismatched symbol factories *)

Module MismatchProperties.
Import Sympy Scalars.

(** C7.  Two gamma tensors whose symbol factories differ are neither added
    nor multiplied: each operator raises at once and returns nothing.  Only
    tensors can meet the condition: no class of scalar.py gives a scalar a
    [symbol_factory], reading it off a scalar raises [AttributeError]. *)
Theorem symbol_factory_mismatch
    (self other : GammaTensor.IntermediateGammaTensor) (x : object) :
  GammaTensor.symbol_factory self ≠ GammaTensor.symbol_factory other →
  GammaTensor.__add__ self (GammaTensor.Gamma other) = Raise GammaTensor.mismatch ∧
  GammaTensor.__mul__ self (GammaTensor.Gamma other) = Raise GammaTensor.mismatch ∧
  Wire.getattr x "symbol_factory" = Raise (AttributeError "symbol_factory").
Proof.
  intros Hne.
  destruct (TensorProperties.tensor_mismatch_raises self other Hne) as [Hadd Hmul].
  split; [exact Hadd|]. split; [exact Hmul|].
  unfold Wire.getattr, Wire.__dict__, Wire.opt_attr.
  by destruct (entity x), (_value x), (_min_val x), (_max_val x), (ssid x).
Qed.

Lemma symbol_factory_mismatch_witness :
  GammaTensor.__add__ GammaTensor.one_term (GammaTensor.Gamma GammaTensor.other_factory)
    = Raise GammaTensor.mismatch ∧
  GammaTensor.__mul__ GammaTensor.one_term (GammaTensor.Gamma GammaTensor.other_factory)
    = Raise GammaTensor.mismatch ∧
  Wire.getattr Wire.example_phi "symbol_factory" = Raise (AttributeError "symbol_factory").
Proof.
  apply (symbol_factory_mismatch GammaTensor.one_term GammaTensor.other_factory).
  simpl. lia.
Defined.

End MismatchProperties.

(** ** Values, entities and the registry under the operators *)

Module AlgebraProperties.
Import Sympy Scalars ScalarProperties.

Local Open Scope Q_scope.

(** *** States that keep what they had *)

Lemma eval_ext (ρ ρ' : Ssid → Q) (p : expr) :
  (∀ s, s ∈ free_symbols p → ρ s = ρ' s) → eval ρ p = eval ρ' p.
Proof.
  induction p as [s|c|p IHp q IHq|p IHp q IHq]; intros H; simpl in *.
  - apply H. by apply elem_of_singleton.
  - done.
  - rewrite IHp, IHq; [done|intros s Hs; apply H, elem_of_union; auto..].
  - rewrite IHp, IHq; [done|intros s Hs; apply H, elem_of_union; auto..].
Qed.

Lemma eval_join (ρ : Ssid → Q) op p q :
  eval ρ (join op p q) == operate op (eval ρ p) (eval ρ q).
Proof. destruct op; simpl; lra. Qed.

Lemma free_symbols_join op p q :
  free_symbols (join op p q) = free_symbols p ∪ free_symbols q.
Proof. destruct op; simpl; [done| |done]. by rewrite (left_id_L ∅ (∪)). Qed.

Lemma set_map_agree (f g : Ssid → nat) (X : gset Ssid) :
  (∀ s, s ∈ X → f s = g s) → set_map f X =@{gset nat} set_map g X.
Proof.
  intros H. apply set_eq. intros y. rewrite !elem_of_map.
  split; intros (s & -> & Hs); exists s; split; auto. symmetry. auto.
Qed.

Lemma extends_refl σ : extends σ σ.
Proof. constructor; [done|]. intros r o Ho. exists o. split_and!; auto. Qed.

Lemma extends_length σ σ' : extends σ σ' → (length (heap σ) ≤ length (heap σ'))%nat.
Proof.
  intros [_ H]. destruct (decide (length (heap σ) = 0%nat)) as [->|Hne]; [lia|].
  destruct (lookup_lt_is_Some_2 (heap σ) (length (heap σ) - 1)) as [o Ho]; [lia|].
  destruct (H _ o Ho) as (o' & Ho' & _). apply lookup_lt_Some in Ho'. lia.
Qed.

Lemma extends_trans σ1 σ2 σ3 : extends σ1 σ2 → extends σ2 σ3 → extends σ1 σ3.
Proof.
  intros H12 H23. pose proof (extends_length _ _ H12) as Hlen.
  destruct H12 as [R1 H1], H23 as [R2 H2]. constructor; [auto|].
  intros r o Ho.
  destruct (H1 r o Ho) as (o' & Ho' & ? & ? & ? & ? & ? & ? & ? & ? & Hg).
  destruct (H2 r o' Ho') as (o'' & Ho'' & ? & ? & ? & ? & ? & ? & ? & ? & Hg').
  exists o''. split_and!; try congruence.
  destruct Hg as [Hg|(Hg & g & Hs & Hge)], Hg' as [Hg'|(Hg' & g' & Hs' & Hge')].
  - left. congruence.
  - right. split; [congruence|]. exists g'. split; [done|lia].
  - right. split; [done|]. exists g. split; [congruence|done].
  - congruence.
Qed.

Lemma extends_bump σ : extends σ (bump σ).
Proof. constructor; [done|]. intros r o Ho. exists o. split_and!; auto. Qed.

Lemma extends_push σ o : extends σ (push o σ).
Proof.
  constructor; [done|]. intros r o' Ho'. exists o'.
  split; [by apply lookup_app_l_Some|]. split_and!; auto.
Qed.

Lemma extends_new_leaf σ s o :
  ssid2obj σ !! s = None → extends σ (bind_ssid s (length (heap σ)) (push o σ)).
Proof.
  intros Hs. constructor.
  - intros s' x Hs'. simpl. rewrite lookup_insert_ne; [done|]. congruence.
  - intros r o' Ho'. exists o'. split; [by apply lookup_app_l_Some|]. split_and!; auto.
Qed.

Lemma extends_promoted σ r o lo v hi e :
  fresh σ → heap σ !! r = Some o → _gamma o = None →
  extends σ (promoted r o lo v hi e σ).
Proof.
  intros Hf Ho Hg. constructor.
  - intros s x Hs. by apply promoted_registry.
  - intros r' o' Ho'. simpl. destruct (decide (r = r')) as [<-|Hne].
    + exists (with_gamma (length (heap σ)) o).
      rewrite list_lookup_insert_eq.
      * assert (o' = o) as -> by congruence. split_and!; try done.
        right. split; [done|]. by exists (length (heap σ)).
      * rewrite length_app. apply lookup_lt_Some in Ho. lia.
    + exists o'. rewrite list_lookup_insert_ne by done.
      split; [by apply lookup_app_l_Some|]. split_and!; auto.
Qed.

(** An object of the later state is one that was kept or one that is new. *)
Lemma extends_old σ σ' r o' :
  extends σ σ' → heap σ' !! r = Some o' → (r < length (heap σ))%nat →
  ∃ o, heap σ !! r = Some o ∧
       cls o' = cls o ∧ poly o' = poly o ∧ entity o' = entity o ∧ _value o' = _value o ∧
       (_gamma o' = _gamma o ∨
        (_gamma o = None ∧ ∃ g, _gamma o' = Some g ∧ (length (heap σ) ≤ g)%nat)).
Proof.
  intros Hext Ho' Hr. destruct (lookup_lt_is_Some_2 _ _ Hr) as [o Ho].
  destruct (extends_heap _ _ Hext r o Ho) as (o'' & Ho'' & ? & ? & ? & ? & ? & ? & ? & ? & ?).
  assert (o'' = o') as -> by congruence. by exists o.
Qed.

Lemma extends_leaf σ σ' s :
  structured σ → extends σ σ' → is_Some (ssid2obj σ !! s) →
  ∃ o o', leaf σ s = Some o ∧ leaf σ' s = Some o' ∧
          _value o' = _value o ∧ entity o' = entity o.
Proof.
  intros Hσ [R H] [x Hx]. unfold leaf.
  destruct (registered_leaf _ Hσ s x Hx) as (o & Ho & _).
  destruct (H x o Ho) as (o' & Ho' & _ & _ & _ & He & _ & Hv & _).
  exists o, o'. rewrite (R s x Hx), Hx. simpl. by rewrite Ho, Ho'.
Qed.

Lemma extends_leaf_value σ σ' s :
  structured σ → extends σ σ' → is_Some (ssid2obj σ !! s) →
  leaf_value σ' s = leaf_value σ s.
Proof.
  intros Hσ Hext Hs. destruct (extends_leaf σ σ' s Hσ Hext Hs) as (o & o' & Ho & Ho' & Hv & _).
  unfold leaf_value. rewrite Ho, Ho'. simpl. by rewrite Hv.
Qed.

Lemma extends_leaf_entity σ σ' s :
  structured σ → extends σ σ' → is_Some (ssid2obj σ !! s) →
  leaf_entity σ' s = leaf_entity σ s.
Proof.
  intros Hσ Hext Hs. destruct (extends_leaf σ σ' s Hσ Hext Hs) as (o & o' & Ho & Ho' & _ & He).
  unfold leaf_entity. rewrite Ho, Ho'. simpl. by rewrite He.
Qed.

(** A polynomial over registered symbols denotes what it did. *)
Lemma extends_eval σ σ' p :
  structured σ → extends σ σ' →
  (∀ s, s ∈ free_symbols p → is_Some (ssid2obj σ !! s)) →
  eval (leaf_value σ') p = eval (leaf_value σ) p ∧
  set_map (leaf_entity σ') (free_symbols p) =@{gset nat}
    set_map (leaf_entity σ) (free_symbols p).
Proof.
  intros Hσ Hext Hp. split.
  - apply eval_ext. intros s Hs. apply extends_leaf_value; auto.
  - apply set_map_agree. intros s Hs. apply extends_leaf_entity; auto.
Qed.

Lemma extends_val σ σ' r o o' :
  structured σ → extends σ σ' → heap σ !! r = Some o → heap σ' !! r = Some o' →
  val σ' o' = val σ o ∧ ents σ' o' = ents σ o.
Proof.
  intros Hσ Hext Ho Ho'.
  destruct (extends_heap _ _ Hext r o Ho) as (o'' & Ho'' & _ & _ & Hp & _).
  assert (o'' = o') as -> by congruence.
  unfold val, ents. rewrite Hp. apply extends_eval; [done|done|]. by eapply closed.
Qed.

(** [value] reads the denotation of the object. *)
Lemma value_val σ r o :
  structured σ → self_registered σ → heap σ !! r = Some o →
  value r σ = Ok (val σ o, σ).
Proof.
  intros Hσ Hreg Ho.
  destruct (accessors_return (λ _ _, 0) σ r o Hσ Ho) as (lo & v & hi & _ & Hv & _ & H).
  rewrite Hv. destruct (isinstance_OriginScalar o) eqn:Horigin.
  - destruct H as (_ & Hval & _).
    destruct (Hreg r o Ho Horigin) as (s & Hp & Hs).
    unfold val, leaf_value, leaf. rewrite Hp. simpl. rewrite Hs. simpl.
    by rewrite Ho; simpl; rewrite Hval.
  - destruct H as (_ & -> & _). done.
Qed.

(** [input_entities] lists the entities behind the polynomial. *)
Lemma input_entities_ents σ r o :
  structured σ → owned σ → heap σ !! r = Some o →
  input_entities r σ = Ok (elements (ents σ o), σ).
Proof.
  intros Hσ [Hown _] Ho. apply input_entities_spec; [done|].
  intros s Hs. destruct (closed _ Hσ r o Ho s Hs) as [x Hx].
  destruct (registered_leaf _ Hσ s x Hx) as (ol & Hol & _).
  exists ol. split; [by eapply leaf_registered|by eapply Hown].
Qed.

(** *** The invariant under the steps of the operators *)

(** A state that extends a settled one is settled when the objects and
    the registry entries it adds, and the caches it sets, are as the
    invariant asks. *)
Lemma settled_extension σ σ' :
  settled σ → extends σ σ' → wf σ' → fresh_id σ' →
  (∀ r o, heap σ' !! r = Some o → (length (heap σ) ≤ r)%nat →
     _gamma o = None ∧
     (isinstance_OriginScalar o = true → ∃ s, poly o = Sym s ∧ ssid2obj σ' !! s = Some r) ∧
     (isinstance_IntermediatePhiScalar o = true →
      ∃ e, entity o = Some e ∧ ents σ' o = {[ e ]})) →
  (∀ r o o' g, heap σ !! r = Some o → _gamma o = None →
     heap σ' !! r = Some o' → _gamma o' = Some g →
     ∃ og, heap σ' !! g = Some og ∧ val σ' og = val σ' o') →
  (∀ s x o, ssid2obj σ !! s = None → ssid2obj σ' !! s = Some x →
     heap σ' !! x = Some o → is_Some (entity o)) →
  settled σ'.
Proof.
  intros (Hwf & Hid & Hreg & Hc & Hent & Hown1 & Hown2) Hext Hwf' Hid' Hnew Hcache Hentry.
  pose proof Hwf as (Hσ & _).
  unfold settled, owned. split_and!; try done.
  - intros r o' Ho' Horigin.
    destruct (decide (r < length (heap σ))%nat) as [Hr|Hr]; [|apply Hnew; [done|lia|done]].
    destruct (extends_old σ σ' r o' Hext Ho' Hr) as (o & Ho & Hcls & Hp & _).
    destruct (Hreg r o Ho) as (s & Hs & Hrs).
    { unfold isinstance_OriginScalar in *. by rewrite <- Hcls. }
    exists s. split; [congruence|]. by apply (extends_registry _ _ Hext).
  - intros r o' g Ho' Hg.
    destruct (decide (r < length (heap σ))%nat) as [Hr|Hr].
    2:{ destruct (Hnew r o' Ho') as (Hnone & _); [lia|congruence]. }
    destruct (extends_old σ σ' r o' Hext Ho' Hr) as (o & Ho & _ & _ & _ & _ & [Hsame|[Hnone _]]).
    + rewrite Hsame in Hg. destruct (Hc r o g Ho Hg) as (og & Hog & Hval).
      destruct (extends_heap _ _ Hext g og Hog) as (og' & Hog' & _).
      exists og'. split; [done|].
      destruct (extends_val σ σ' g og og' Hσ Hext Hog Hog') as [-> _].
      by destruct (extends_val σ σ' r o o' Hσ Hext Ho Ho') as [-> _].
    + by eapply Hcache.
  - intros r o' Ho' Hphi.
    destruct (decide (r < length (heap σ))%nat) as [Hr|Hr].
    2:{ destruct (Hnew r o' Ho') as (_ & _ & He); [lia|].
        destruct (He Hphi) as (e & -> & _). by eexists. }
    destruct (extends_old σ σ' r o' Hext Ho' Hr) as (o & Ho & Hcls & _ & He & _).
    rewrite He. apply (Hent r o Ho).
    unfold isinstance_IntermediatePhiScalar in *. by rewrite <- Hcls.
  - intros s x o' Hs Ho'.
    destruct (ssid2obj σ !! s) as [x0|] eqn:Hs0; [|by eapply Hentry].
    pose proof (extends_registry _ _ Hext s x0 Hs0) as Hs'.
    assert (x0 = x) as -> by congruence.
    destruct (registered_leaf _ Hσ s x Hs0) as (o & Ho & _).
    destruct (extends_heap _ _ Hext x o Ho) as (o'' & Ho'' & _ & _ & _ & He & _).
    assert (o'' = o') as -> by congruence.
    rewrite He. by eapply Hown1.
  - intros r o' e Ho' Hphi He.
    destruct (decide (r < length (heap σ))%nat) as [Hr|Hr].
    2:{ destruct (Hnew r o' Ho') as (_ & _ & H); [lia|].
        destruct (H Hphi) as (e' & He' & Hents). congruence. }
    destruct (extends_old σ σ' r o' Hext Ho' Hr) as (o & Ho & Hcls & _ & Hentity & _).
    destruct (extends_val σ σ' r o o' Hσ Hext Ho Ho') as [_ ->].
    apply (Hown2 r o e Ho); [|congruence].
    unfold isinstance_IntermediatePhiScalar in *. by rewrite <- Hcls.
Qed.

Lemma settled_bump σ : settled σ → settled (bump σ).
Proof.
  intros (Hwf & Hid & Hreg & Hc & He & Hown).
  split_and!; [by apply wf_bump| |done|done|done|done].
  intros u Hu. specialize (Hid u Hu). simpl. lia.
Qed.

Lemma settled_push_intermediate σ c i p e :
  settled σ → isinstance_OriginScalar (intermediate c i p e) = false →
  (isinstance_IntermediatePhiScalar (intermediate c i p e) = true →
   ∃ e', e = Some e' ∧ set_map (leaf_entity σ) (free_symbols p) =@{gset nat} {[ e' ]}) →
  (∀ s, s ∈ free_symbols p → is_Some (ssid2obj σ !! s)) →
  settled (push (intermediate c i p e) σ).
Proof.
  intros Hset Hcls He Hp. pose proof Hset as (Hwf & Hid & _). pose proof Hwf as (Hσ & _).
  apply (settled_extension σ); try done.
  - apply extends_push.
  - by apply wf_push_intermediate.
  - intros r o Ho Hr. simpl in Ho.
    apply lookup_snoc_Some in Ho as [[Hlt _]|[_ <-]]; [lia|].
    split; [done|]. split; [congruence|]. intros Hphi.
    destruct (He Hphi) as (e' & -> & Hents). exists e'. split; [done|].
    unfold ents. simpl poly.
    destruct (extends_eval σ (push (intermediate c i p (Some e')) σ) p Hσ
                (extends_push σ _) Hp) as [_ ->]. done.
  - intros r o o' g Ho Hnone Ho' Hg. simpl in Ho'.
    apply lookup_snoc_Some in Ho' as [[_ Ho']|[_ <-]]; [congruence|done].
  - intros s x o Hs Hs'. simpl in Hs'. congruence.
Qed.

Lemma settled_new_leaf σ c i s e lo v hi :
  settled σ → isinstance_OriginScalar (origin c i s e lo v hi) = true →
  ssid2obj σ !! s = None →
  (∀ u, s = SsidOfId u → (u < next_uid σ)%nat) →
  (∀ u e', s = SsidOfIdEntity u e' → (u < next_uid σ)%nat) →
  settled (bind_ssid s (length (heap σ)) (push (origin c i s e lo v hi) σ)).
Proof.
  intros Hset Hcls Hs Hu Hue. pose proof Hset as (Hwf & Hid & _).
  apply (settled_extension σ); try done.
  - by apply extends_new_leaf.
  - apply wf_new_leaf; [done|]. intros u e' ->. split; [done|by eapply Hue].
  - intros u Hreg'. simpl in *.
    apply lookup_insert_is_Some in Hreg' as [->|[_ Hreg']]; [by apply Hu|by apply Hid].
  - intros r o Ho Hr. simpl in Ho.
    apply lookup_snoc_Some in Ho as [[Hlt _]|[-> <-]]; [lia|].
    split; [done|]. split.
    + intros _. exists s. split; [done|]. simpl. by rewrite lookup_insert_eq.
    + intros _. exists e. split; [done|]. unfold ents. simpl poly. simpl free_symbols.
      rewrite set_map_singleton_L. unfold leaf_entity, leaf. simpl.
      rewrite lookup_insert_eq. simpl.
      by rewrite lookup_app_r, Nat.sub_diag.
  - intros r o o' g Ho Hnone Ho' Hg. simpl in Ho'.
    apply lookup_snoc_Some in Ho' as [[_ Ho']|[_ <-]]; [congruence|done].
  - intros s' x o Hs' Hx Ho. simpl in *.
    apply lookup_insert_Some in Hx as [[<- <-]|[_ Hx]]; [|congruence].
    rewrite lookup_app_r, Nat.sub_diag in Ho by done. injection Ho as <-. by eexists.
Qed.

Lemma settled_promoted σ r o lo hi e :
  settled σ → heap σ !! r = Some o → _gamma o = None → entity o = Some e →
  settled (promoted r o lo (val σ o) hi e σ).
Proof.
  intros Hset Ho Hg He. pose proof Hset as (Hwf & Hid & _).
  pose proof Hwf as (Hσ & _ & Hf).
  pose proof (extends_promoted σ r o lo (val σ o) hi e Hf Ho Hg) as Hext.
  destruct (promoted_new σ r o lo (val σ o) hi e Ho) as [Hnew Hnewreg].
  assert (∀ r' o', heap (promoted r o lo (val σ o) hi e σ) !! r' = Some o' →
                   (length (heap σ) ≤ r')%nat →
                   r' = length (heap σ) ∧ o' = promotion lo (val σ o) hi e σ) as Hlast.
  { intros r' o' Ho' Hr. apply lookup_lt_Some in Ho' as Hlt. simpl in Hlt.
    rewrite length_insert, length_app in Hlt. simpl in Hlt.
    assert (r' = length (heap σ)) as -> by lia. split; [done|]. congruence. }
  apply (settled_extension σ); try done.
  - by apply promoted_wf.
  - intros u Hu. simpl in *. rewrite lookup_insert_ne in Hu by done.
    specialize (Hid u Hu). lia.
  - intros r' o' Ho' Hr. destruct (Hlast r' o' Ho' Hr) as [-> ->].
    split; [done|]. split; [|done]. intros _. by eexists.
  - intros r' o0 o' g Ho0 Hnone Ho' Hg'.
    assert (r' = r ∧ g = length (heap σ)) as [-> ->].
    { simpl in Ho'. destruct (decide (r' = r)) as [->|Hne].
      - rewrite list_lookup_insert_eq in Ho'.
        + injection Ho' as <-. simpl in Hg'. split; congruence.
        + rewrite length_app. apply lookup_lt_Some in Ho. lia.
      - rewrite list_lookup_insert_ne in Ho' by done.
        apply lookup_app_Some in Ho' as [Ho'|[Hge _]]; [congruence|].
        apply lookup_lt_Some in Ho0. lia. }
    exists (promotion lo (val σ o) hi e σ). split; [done|].
    destruct (extends_val σ _ r o o' Hσ Hext Ho Ho') as [-> _].
    unfold val at 1, leaf_value, leaf. simpl poly. cbn [eval].
    rewrite Hnewreg. cbn [mbind option_bind]. by rewrite Hnew.
  - intros s x o' Hs Hx Ho'. simpl in Hx.
    apply lookup_insert_Some in Hx as [[<- <-]|[_ Hx]]; [|congruence].
    rewrite Hnew in Ho'. injection Ho' as <-. by eexists.
Qed.

Section Steps.

Variable search : state → expr → Q.

(** What a promotion that returns has done, with the value it stored. *)
Lemma gamma_settled σ r g σ' :
  settled σ → gamma search r σ = Ok (g, σ') →
  settled σ' ∧ extends σ σ' ∧
  ∃ o og, heap σ !! r = Some o ∧ heap σ' !! g = Some og ∧
          cls og = GammaScalar ∧ entity og = entity o ∧ val σ' og = val σ o ∧
          (isinstance_IntermediatePhiScalar o = true → ents σ' og = ents σ o).
Proof.
  intros Hset H. pose proof Hset as (Hwf & Hid & Hreg & Hc & Hent & Hown1 & Hown2).
  pose proof Hwf as (Hσ & Hcached & Hf).
  unfold gamma in H.
  apply bindM_Ok in H as (o & σ0 & Ho & H). apply load_Ok in Ho as [-> Ho].
  destruct (_gamma o) as [g0|] eqn:Hg.
  - apply mret_Ok in H as [-> ->]. split; [done|]. split; [apply extends_refl|].
    destruct (Hc r o g0 Ho Hg) as (og & Hog & Hval).
    destruct (Hcached r o g0 Ho Hg) as (og' & u & e & Hog' & Hcls & Hp & He & Hs).
    assert (og' = og) as -> by congruence.
    exists o, og. split_and!; try done. intros Hphi.
    destruct (Hent r o Ho Hphi) as [e0 He0].
    rewrite (Hown2 r o e0 Ho Hphi He0). unfold ents. rewrite Hp. simpl.
    rewrite set_map_singleton_L. unfold leaf_entity.
    rewrite (leaf_registered σ _ g0 og Hs Hog). simpl. by rewrite He, He0.
  - apply bindM_Ok in H as (lo & σ1 & Hlo & H). apply min_val_pure in Hlo as ->.
    apply bindM_Ok in H as (v & σ1 & Hv & H).
    rewrite (value_val σ r o Hσ Hreg Ho) in Hv. injection Hv as <- <-.
    apply bindM_Ok in H as (hi & σ1 & Hhi & H). apply max_val_pure in Hhi as ->.
    apply bindM_Ok in H as (e & σ1 & He & H). apply attr_Ok in He as [-> He].
    rewrite (bindM_run _ _ _ _ _ (new_GammaScalar_run lo (val σ o) hi e σ)) in H.
    erewrite bindM_run in H; [|apply load_run; simpl; by apply lookup_app_l_Some].
    injection H as <- <-. fold (promoted r o lo (val σ o) hi e σ).
    destruct (promoted_new σ r o lo (val σ o) hi e Ho) as [Hnew Hnewreg].
    split; [by apply settled_promoted|]. split; [by apply extends_promoted|].
    exists o, (promotion lo (val σ o) hi e σ). split_and!; try done.
    + unfold val at 1, leaf_value, leaf. simpl poly. cbn [eval].
      rewrite Hnewreg. cbn [mbind option_bind]. by rewrite Hnew.
    + intros Hphi. rewrite (Hown2 r o e Ho Hphi He).
      unfold ents. simpl poly. simpl free_symbols. rewrite set_map_singleton_L.
      unfold leaf_entity, leaf. rewrite Hnewreg. cbn [mbind option_bind]. by rewrite Hnew.
Qed.


(** The state a gamma operator leaves: a settled state [σ2] that keeps
    what there was, and on top of it the result, whose polynomial joins two
    polynomials that denote what the operands did. *)
Lemma gamma_op_shape σ op self other r σ' so :
  settled σ → heap σ !! self = Some so →
  gamma_op search op self other σ = Ok (r, σ') →
  ∃ σ2 p q,
    settled σ2 ∧ extends σ σ2 ∧ r = length (heap σ2) ∧
    σ' = push (intermediate IntermediateGammaScalar (next_uid σ2) (join op p q) None)
              (bump σ2) ∧
    (∀ s, s ∈ free_symbols (join op p q) → is_Some (ssid2obj σ2 !! s)) ∧
    eval (leaf_value σ2) p = val σ so ∧
    set_map (leaf_entity σ2) (free_symbols p) = ents σ so ∧
    match other with
    | Public c => q = Num c
    | Scalar b => ∀ ob, heap σ !! b = Some ob →
        eval (leaf_value σ2) q = val σ ob ∧
        set_map (leaf_entity σ2) (free_symbols q) = ents σ ob
    end.
Proof.
  intros Hset Hso H. pose proof Hset as ((Hσ & _) & _).
  unfold gamma_op in H. destruct other as [c|b].
  - apply bindM_Ok in H as (so' & σ1 & Hso' & H). apply load_Ok in Hso' as [-> Hso'].
    assert (so' = so) as -> by congruence.
    rewrite new_IntermediateGammaScalar_run in H. injection H as <- <-.
    exists σ, (poly so), (Num c). split_and!; try done; [apply extends_refl|].
    apply join_closed; [by apply (closed _ Hσ self)|by intros s Hs; apply elem_of_empty in Hs].
  - apply bindM_Ok in H as (ob & σ1 & Hob & H). apply load_Ok in Hob as [-> Hob].
    apply bindM_Ok in H as (b' & σ2 & Hb' & H).
    assert (settled σ2 ∧ extends σ σ2 ∧
            ∃ ob', heap σ2 !! b' = Some ob' ∧ val σ2 ob' = val σ ob ∧
                   ents σ2 ob' = ents σ ob) as (Hset2 & Hext2 & ob' & Hob' & Hvb & Heb).
    { destruct (isinstance_IntermediatePhiScalar ob) eqn:Hphi.
      - destruct (gamma_settled σ b b' σ2 Hset Hb')
          as (? & ? & o1 & og & Ho1 & Hog & _ & _ & Hv & He).
        assert (o1 = ob) as -> by congruence.
        split_and!; try done. exists og. split_and!; auto.
      - apply mret_Ok in Hb' as [-> ->]. split_and!; [done|apply extends_refl|by exists ob]. }
    apply bindM_Ok in H as (so' & σ3 & Hso' & H). apply load_Ok in Hso' as [-> Hso'].
    apply bindM_Ok in H as (ob'' & σ3 & Hob'' & H). apply load_Ok in Hob'' as [-> Hob''].
    assert (ob'' = ob') as -> by congruence.
    rewrite new_IntermediateGammaScalar_run in H. injection H as <- <-.
    pose proof Hset2 as ((Hσ2 & _) & _).
    destruct (extends_val σ σ2 self so so' Hσ Hext2 Hso Hso') as [Hvs Hes].
    exists σ2, (poly so'), (poly ob'). split_and!; try done.
    + apply join_closed; [by apply (closed _ Hσ2 self)|by apply (closed _ Hσ2 b')].
    + intros ob0 Hob0. assert (ob0 = ob) as -> by congruence. by split.
Qed.

(** The same for any operator, whatever the class of the left operand. *)
Lemma binop_shape σ op self other r σ' so :
  settled σ → heap σ !! self = Some so →
  binop search op self other σ = Ok (r, σ') →
  ∃ σ2 c e p q,
    settled σ2 ∧ extends σ σ2 ∧ r = length (heap σ2) ∧
    σ' = push (intermediate c (next_uid σ2) (join op p q) e) (bump σ2) ∧
    isinstance_OriginScalar (intermediate c (next_uid σ2) (join op p q) e) = false ∧
    (isinstance_IntermediatePhiScalar (intermediate c (next_uid σ2) (join op p q) e) = true →
     ∃ e', e = Some e' ∧
           set_map (leaf_entity σ2) (free_symbols (join op p q)) =@{gset nat} {[ e' ]}) ∧
    (∀ s, s ∈ free_symbols (join op p q) → is_Some (ssid2obj σ2 !! s)) ∧
    eval (leaf_value σ2) p = val σ so ∧
    set_map (leaf_entity σ2) (free_symbols p) = ents σ so ∧
    match other with
    | Public c => q = Num c
    | Scalar b => ∀ ob, heap σ !! b = Some ob →
        eval (leaf_value σ2) q = val σ ob ∧
        set_map (leaf_entity σ2) (free_symbols q) = ents σ ob
    end.
Proof.
  intros Hset Hso H. pose proof Hset as ((Hσ & _) & _ & _ & _ & _ & _ & Hown).
  unfold binop in H.
  apply bindM_Ok in H as (so' & σ1 & Hso' & H). apply load_Ok in Hso' as [-> Hso'].
  assert (so' = so) as -> by congruence.
  destruct (isinstance_IntermediatePhiScalar so) eqn:Hphi.
  2:{ destruct (gamma_op_shape σ op self other r σ' so Hset Hso H)
        as (σ2 & p & q & ? & ? & ? & ? & ? & ? & ? & ?).
      exists σ2, IntermediateGammaScalar, None, p, q. by split_and!. }
  unfold phi_op in H. destruct other as [c|b].
  - apply bindM_Ok in H as (so' & σ1 & Hso'' & H). apply load_Ok in Hso'' as [-> Hso''].
    assert (so' = so) as -> by congruence.
    apply bindM_Ok in H as (e & σ1 & He & H). apply attr_Ok in He as [-> He].
    rewrite new_IntermediatePhiScalar_run in H. injection H as <- <-.
    exists σ, IntermediatePhiScalar, (Some e), (poly so), (Num c).
    split_and!; try done; [apply extends_refl| |].
    + intros _. exists e. split; [done|].
      rewrite free_symbols_join. simpl. rewrite (right_id_L ∅ (∪)).
      by apply (Hown self so e).
    + apply join_closed; [by apply (closed _ Hσ self)|by intros s Hs; apply elem_of_empty in Hs].
  - apply bindM_Ok in H as (ob & σ1 & Hob & H). apply load_Ok in Hob as [-> Hob].
    destruct (isinstance_IntermediateGammaScalar ob) eqn:Hgam.
    + apply bindM_Ok in H as (g & σ1 & Hg & H).
      destruct (gamma_settled σ self g σ1 Hset Hg)
        as (Hset1 & Hext1 & o1 & og & Ho1 & Hog & _ & _ & Hv & He).
      assert (o1 = so) as -> by congruence.
      destruct (gamma_op_shape σ1 op g (Scalar b) r σ' og Hset1 Hog H)
        as (σ2 & p & q & ? & ? & ? & ? & ? & Hp & Hep & Hq).
      exists σ2, IntermediateGammaScalar, None, p, q. split_and!; try done.
      * by eapply extends_trans.
      * congruence.
      * rewrite Hep. by apply He.
      * intros ob' Hob'. assert (ob' = ob) as -> by congruence.
        destruct (extends_heap _ _ Hext1 b ob Hob) as (ob1 & Hob1 & _).
        destruct (Hq ob1 Hob1) as [-> ->]. by apply (extends_val σ σ1 b).
    + apply bindM_Ok in H as (so' & σ1 & Hso'' & H). apply load_Ok in Hso'' as [-> Hso''].
      assert (so' = so) as -> by congruence.
      apply bindM_Ok in H as (se & σ1 & Hse & H). apply attr_Ok in Hse as [-> Hse].
      apply bindM_Ok in H as (oe & σ1 & Hoe & H). apply attr_Ok in Hoe as [-> Hoe].
      assert (isinstance_IntermediatePhiScalar ob = true) as Hphib.
      { unfold isinstance_IntermediatePhiScalar, isinstance_IntermediateGammaScalar in *.
        by destruct (cls ob). }
      destruct (decide (se = oe)) as [->|Hne].
      * rewrite new_IntermediatePhiScalar_run in H. injection H as <- <-.
        exists σ, IntermediatePhiScalar, (Some oe), (poly so), (poly ob).
        split_and!; try done; [apply extends_refl| | |].
        -- intros _. exists oe. split; [done|].
           rewrite free_symbols_join, set_map_union_L.
           fold (ents σ so) (ents σ ob).
           rewrite (Hown self so oe Hso Hphi Hse), (Hown b ob oe Hob Hphib Hoe).
           by rewrite (idemp_L (∪)).
        -- apply join_closed; [by apply (closed _ Hσ self)|by apply (closed _ Hσ b)].
        -- intros ob' Hob'. by assert (ob' = ob) as -> by congruence.
      * apply bindM_Ok in H as (g & σ1 & Hg & H).
        destruct (gamma_settled σ self g σ1 Hset Hg)
          as (Hset1 & Hext1 & o1 & og & Ho1 & Hog & _ & _ & Hv & He).
        assert (o1 = so) as -> by congruence.
        apply bindM_Ok in H as (g' & σ2 & Hg' & H).
        destruct (gamma_settled σ1 b g' σ2 Hset1 Hg')
          as (Hset2 & Hext2 & ob1 & og' & Hob1 & Hog' & _ & _ & Hv' & He').
        destruct (extends_heap _ _ Hext2 g og Hog) as (og2 & Hog2 & _).
        pose proof Hset1 as ((Hσ1 & _) & _).
        destruct (extends_heap _ _ Hext1 b ob Hob) as (ob1' & Hob1' & Hclsb & _).
        assert (ob1' = ob1) as -> by congruence.
        destruct (gamma_op_shape σ2 op g (Scalar g') r σ' og2 Hset2 Hog2 H)
          as (σ3 & p & q & ? & ? & ? & ? & ? & Hp & Hep & Hq).
        destruct (extends_val σ1 σ2 g og og2 Hσ1 Hext2 Hog Hog2) as [Hv2 He2].
        destruct (extends_val σ σ1 b ob ob1 Hσ Hext1 Hob Hob1) as [Hvb Heb].
        exists σ3, IntermediateGammaScalar, None, p, q. split_and!; try done.
        -- eapply extends_trans; [exact Hext1|]. by eapply extends_trans.
        -- congruence.
        -- rewrite Hep, He2. by apply He.
        -- intros ob' Hob'. assert (ob' = ob) as -> by congruence.
           destruct (Hq og' Hog') as [-> ->]. split; [congruence|].
           rewrite He'; [done|].
           unfold isinstance_IntermediatePhiScalar in *. by rewrite Hclsb.
Qed.

Lemma binop_settled σ op self other r σ' :
  settled σ → binop search op self other σ = Ok (r, σ') →
  settled σ' ∧ extends σ σ' ∧ (length (heap σ) ≤ r)%nat ∧ length (heap σ') = S r.
Proof.
  intros Hset H.
  assert (∃ so, heap σ !! self = Some so) as [so Hso].
  { unfold binop in H. apply bindM_Ok in H as (so & σ1 & Hso & _).
    apply load_Ok in Hso as [_ Hso]. by exists so. }
  destruct (binop_shape σ op self other r σ' so Hset Hso H)
    as (σ2 & c & e & p & q & Hset2 & Hext & -> & -> & Hc & He & Hp & _).
  split_and!.
  - apply settled_push_intermediate; [by apply settled_bump|done|done|done].
  - eapply extends_trans; [exact Hext|].
    eapply extends_trans; [apply extends_bump|apply extends_push].
  - by apply extends_length.
  - simpl. rewrite length_app. simpl. lia.
Qed.

(** The value of a result is the arithmetic of the values of the operands,
    and the entities behind it are those behind the operands. *)
Lemma binop_value σ op self other r σ' so :
  settled σ → heap σ !! self = Some so →
  binop search op self other σ = Ok (r, σ') →
  ∃ o, heap σ' !! r = Some o ∧
       match other with
       | Public c => val σ' o == operate op (val σ so) c ∧ ents σ' o = ents σ so
       | Scalar b => ∀ ob, heap σ !! b = Some ob →
           val σ' o == operate op (val σ so) (val σ ob) ∧
           ents σ' o = ents σ so ∪ ents σ ob
       end.
Proof.
  intros Hset Hso H.
  destruct (binop_shape σ op self other r σ' so Hset Hso H)
    as (σ2 & c & e & p & q & Hset2 & Hext & -> & -> & Hc & He & Hpq & Hp & Hep & Hq).
  pose proof Hset2 as ((Hσ2 & _) & _).
  eexists. split.
  { simpl. apply lookup_snoc_Some. right. split; reflexivity. }
  set (σ' := push (intermediate c (next_uid σ2) (join op p q) e) (bump σ2)).
  assert (extends σ2 σ') as Hext'.
  { eapply extends_trans; [apply extends_bump|apply extends_push]. }
  assert (∀ s, s ∈ free_symbols p → is_Some (ssid2obj σ2 !! s)) as Hcp.
  { intros s Hs. apply Hpq. rewrite free_symbols_join. apply elem_of_union. auto. }
  assert (∀ s, s ∈ free_symbols q → is_Some (ssid2obj σ2 !! s)) as Hcq.
  { intros s Hs. apply Hpq. rewrite free_symbols_join. apply elem_of_union. auto. }
  destruct (extends_eval σ2 σ' p Hσ2 Hext' Hcp) as [Hvp Hentp].
  destruct (extends_eval σ2 σ' q Hσ2 Hext' Hcq) as [Hvq Hentq].
  pose proof (eval_join (leaf_value σ') op p q) as Hv.
  rewrite Hvp, Hvq, Hp in Hv.
  assert (set_map (leaf_entity σ') (free_symbols (join op p q))
          =@{gset nat} ents σ so ∪ set_map (leaf_entity σ2) (free_symbols q)) as He'.
  { by rewrite free_symbols_join, set_map_union_L, Hentp, Hentq, Hep. }
  destruct other as [c'|b].
  - subst q. split; [done|]. unfold ents at 1. simpl poly. rewrite He'. simpl.
    by rewrite set_map_empty, (right_id_L ∅ (∪)).
  - intros ob Hob. destruct (Hq ob Hob) as [Hvb Heb]. rewrite <- Hvb, <- Heb. by split.
Qed.

(** *** Constructors and programs *)

Lemma unregistered_id σ : fresh_id σ → ssid2obj σ !! SsidOfId (next_uid σ) = None.
Proof.
  intros Hid. destruct (ssid2obj σ !! SsidOfId (next_uid σ)) eqn:H; [|done].
  specialize (Hid (next_uid σ) ltac:(by rewrite H)). lia.
Qed.

Lemma unregistered_id_entity σ e :
  fresh σ → ssid2obj σ !! SsidOfIdEntity (next_uid σ) e = None.
Proof.
  intros Hf. destruct (ssid2obj σ !! SsidOfIdEntity (next_uid σ) e) eqn:H; [|done].
  specialize (Hf (next_uid σ) e ltac:(by rewrite H)). lia.
Qed.

Lemma new_leaf_settled σ σ1 c i s e lo v hi :
  settled σ → isinstance_OriginScalar (origin c i s e lo v hi) = true →
  settled σ1 → extends σ σ1 → heap σ1 = heap σ → ssid2obj σ1 = ssid2obj σ →
  ssid2obj σ !! s = None →
  (∀ u, s = SsidOfId u → (u < next_uid σ1)%nat) →
  (∀ u e', s = SsidOfIdEntity u e' → (u < next_uid σ1)%nat) →
  settled (bind_ssid s (length (heap σ1)) (push (origin c i s e lo v hi) σ1)) ∧
  extends σ (bind_ssid s (length (heap σ1)) (push (origin c i s e lo v hi) σ1)).
Proof.
  intros Hset Hc Hset1 Hext Hheap Hreg Hs Hu Hue. split.
  - apply settled_new_leaf; try done. by rewrite Hreg.
  - eapply extends_trans; [exact Hext|]. apply extends_new_leaf. by rewrite Hreg.
Qed.

Lemma new_PhiScalar_settled σ lo v hi e r σ' :
  settled σ → new_PhiScalar lo v hi e None None σ = Ok (r, σ') →
  settled σ' ∧ extends σ σ'.
Proof.
  intros Hset H. pose proof Hset as (_ & Hid & _).
  pose proof (unregistered_id σ Hid) as Hs.
  unfold new_PhiScalar, OriginScalar_init in H.
  destruct e; invM.
  - apply (new_leaf_settled σ); try done.
    + by do 2 apply settled_bump.
    + eapply extends_trans; apply extends_bump.
    + intros u [= <-]. simpl. lia.
  - apply (new_leaf_settled σ); try done.
    + by do 3 apply settled_bump.
    + eapply extends_trans; [apply extends_bump|]. eapply extends_trans; apply extends_bump.
    + intros u [= <-]. simpl. lia.
Qed.

Lemma new_GammaScalar_settled σ lo v hi e r σ' :
  settled σ → new_GammaScalar lo v hi e None None σ = Ok (r, σ') →
  settled σ' ∧ extends σ σ'.
Proof.
  intros Hset H. pose proof Hset as ((_ & _ & Hf) & _).
  unfold new_GammaScalar, OriginScalar_init in H.
  destruct e as [e|]; invM.
  - apply (new_leaf_settled σ); try done.
    + by do 2 apply settled_bump.
    + eapply extends_trans; apply extends_bump.
    + by apply unregistered_id_entity.
    + intros u e' [= <- _]. simpl. lia.
  - apply (new_leaf_settled σ); try done.
    + by do 3 apply settled_bump.
    + eapply extends_trans; [apply extends_bump|]. eapply extends_trans; apply extends_bump.
    + by apply unregistered_id_entity.
    + intros u e' [= <- _]. simpl. lia.
Qed.

Lemma run_settled σ c r σ' :
  settled σ → default_named c → run search c σ = Ok (r, σ') →
  settled σ' ∧ extends σ σ'.
Proof.
  intros Hset Hc H. destruct c; simpl in *.
  - destruct Hc as [-> ->]. by eapply new_PhiScalar_settled.
  - destruct Hc as [-> ->]. by eapply new_GammaScalar_settled.
  - destruct (binop_settled _ _ _ _ _ _ Hset H) as (? & ? & _). done.
Qed.

Lemma settled_init : settled init.
Proof.
  split; [apply wf_init|]. unfold owned. split_and!.
  - intros u H. simpl in H. rewrite lookup_empty in H. by destruct H.
  - by intros [] o H.
  - by intros [] o g H.
  - by intros [] o H.
  - intros s x o H. simpl in H. by rewrite lookup_empty in H.
  - by intros [] o e H.
Qed.

(** Whatever a program of default-named commands builds is settled. *)
Lemma exec_settled prog σ u σ' :
  settled σ → Forall default_named prog → exec search prog σ = Ok (u, σ') → settled σ'.
Proof.
  revert σ. induction prog as [|c prog IH]; intros σ Hset Hprog H; simpl in H; invM.
  - done.
  - apply Forall_cons in Hprog as [Hc Hprog].
    eapply IH; [|exact Hprog|exact H]. by eapply run_settled.
Qed.

(** *** Operators return *)

Lemma gamma_op_returns σ op self other so :
  wf σ → entitled σ → heap σ !! self = Some so →
  match other with Public _ => True | Scalar b => is_Some (heap σ !! b) end →
  ∃ r σ', gamma_op search op self other σ = Ok (r, σ').
Proof.
  intros Hwf Hent Hso Hother. unfold gamma_op. destruct other as [c|b].
  - rewrite (bindM_run _ _ _ _ _ (load_run _ _ _ Hso)).
    rewrite new_IntermediateGammaScalar_run. by eexists _, _.
  - destruct Hother as [ob Hob].
    rewrite (bindM_run _ _ _ _ _ (load_run _ _ _ Hob)).
    destruct (isinstance_IntermediatePhiScalar ob) eqn:Hphi.
    + destruct (Hent b ob Hob Hphi) as [e He].
      destruct (gamma_spec search σ b ob e Hwf Hob He)
        as (g & σ1 & og & u & e' & Hrun & _ & Hog & _ & _ & _ & _ & Hkeep & _).
      destruct (Hkeep self so Hso) as (so' & Hso' & _).
      rewrite (bindM_run _ _ _ _ _ Hrun).
      rewrite (bindM_run _ _ _ _ _ (load_run _ _ _ Hso')).
      rewrite (bindM_run _ _ _ _ _ (load_run _ _ _ Hog)).
      rewrite new_IntermediateGammaScalar_run. by eexists _, _.
    + erewrite bindM_run by reflexivity.
      rewrite (bindM_run _ _ _ _ _ (load_run _ _ _ Hso)).
      rewrite (bindM_run _ _ _ _ _ (load_run _ _ _ Hob)).
      rewrite new_IntermediateGammaScalar_run. by eexists _, _.
Qed.

Lemma binop_returns σ op self other :
  settled σ → is_Some (heap σ !! self) →
  match other with Public _ => True | Scalar b => is_Some (heap σ !! b) end →
  ∃ r σ', binop search op self other σ = Ok (r, σ').
Proof.
  intros Hset [so Hso] Hother. pose proof Hset as (Hwf & _ & _ & _ & Hent & _).
  unfold binop. rewrite (bindM_run _ _ _ _ _ (load_run _ _ _ Hso)).
  destruct (isinstance_IntermediatePhiScalar so) eqn:Hphi;
    [|by eapply gamma_op_returns].
  destruct (Hent self so Hso Hphi) as [se Hse].
  unfold phi_op. destruct other as [c|b].
  - rewrite (bindM_run _ _ _ _ _ (load_run _ _ _ Hso)), Hse.
    unfold attr. erewrite bindM_run by reflexivity.
    rewrite new_IntermediatePhiScalar_run. by eexists _, _.
  - destruct Hother as [ob Hob].
    rewrite (bindM_run _ _ _ _ _ (load_run _ _ _ Hob)).
    destruct (isinstance_IntermediateGammaScalar ob) eqn:Hgam.
    + destruct (gamma_spec search σ self so se Hwf Hso Hse) as (g & σ1 & og & u & e' & Hrun & _).
      rewrite (bindM_run _ _ _ _ _ Hrun).
      destruct (gamma_settled σ self g σ1 Hset Hrun)
        as ((Hwf1 & _ & _ & _ & Hent1 & _) & Hext1 & _ & og' & _ & Hog & _).
      destruct (extends_heap _ _ Hext1 b ob Hob) as (ob' & Hob' & _).
      eapply gamma_op_returns; eauto.
    + assert (isinstance_IntermediatePhiScalar ob = true) as Hphib.
      { unfold isinstance_IntermediatePhiScalar, isinstance_IntermediateGammaScalar in *.
        by destruct (cls ob). }
      destruct (Hent b ob Hob Hphib) as [oe Hoe].
      rewrite (bindM_run _ _ _ _ _ (load_run _ _ _ Hso)), Hse, Hoe.
      unfold attr. erewrite !bindM_run by reflexivity.
      destruct (decide (se = oe)) as [->|Hne].
      * rewrite new_IntermediatePhiScalar_run. by eexists _, _.
      * destruct (gamma_spec search σ self so se Hwf Hso Hse)
          as (g & σ1 & og & u & e' & Hrun & _).
        rewrite (bindM_run _ _ _ _ _ Hrun).
        destruct (gamma_settled σ self g σ1 Hset Hrun)
          as (Hset1 & Hext1 & _ & og' & _ & Hog & _).
        pose proof Hset1 as (Hwf1 & _ & _ & _ & Hent1 & _).
        destruct (extends_heap _ _ Hext1 b ob Hob)
          as (ob' & Hob' & _ & _ & _ & Hentb & _).
        rewrite Hoe in Hentb.
        destruct (gamma_spec search σ1 b ob' oe Hwf1 Hob' Hentb)
          as (g' & σ2 & og2 & u2 & e2 & Hrun2 & _).
        rewrite (bindM_run _ _ _ _ _ Hrun2).
        destruct (gamma_settled σ1 b g' σ2 Hset1 Hrun2)
          as ((Hwf2 & _ & _ & _ & Hent2 & _) & Hext2 & _ & og2' & _ & Hog2 & _).
        destruct (extends_heap _ _ Hext2 g og' Hog) as (og'' & Hog'' & _).
        eapply gamma_op_returns; eauto.
Qed.

End Steps.

End AlgebraProperties.

(** ** What the operators promise *)

Module OperatorProperties.
Import Sympy Scalars ScalarProperties AlgebraProperties.

Local Open Scope Q_scope.

Lemma reachable_settled search prog σ :
  Forall default_named prog → exec search prog init = Ok (tt, σ) → settled σ.
Proof. intros Hprog H. eapply exec_settled; [apply settled_init|exact Hprog|exact H]. Qed.

Lemma value_Ok σ r v σ' :
  settled σ → value r σ = Ok (v, σ') → ∃ o, heap σ !! r = Some o ∧ v = val σ o.
Proof.
  intros ((Hσ & _) & _ & Hreg & _) H.
  assert (∃ o, heap σ !! r = Some o) as [o Ho].
  { unfold value in H. apply bindM_Ok in H as (o & σ1 & Ho & _).
    apply load_Ok in Ho as [_ Ho]. by exists o. }
  exists o. split; [done|]. rewrite (value_val σ r o Hσ Hreg Ho) in H. congruence.
Qed.

Lemma input_entities_Ok σ r es σ' :
  settled σ → input_entities r σ = Ok (es, σ') →
  ∃ o, heap σ !! r = Some o ∧ es = elements (ents σ o).
Proof.
  intros ((Hσ & _) & _ & _ & _ & _ & Hown) H.
  assert (∃ o, heap σ !! r = Some o) as [o Ho].
  { unfold input_entities, input_scalars, input_polys in H. invM. by eexists. }
  exists o. split; [done|]. rewrite (input_entities_ents σ r o Hσ Hown Ho) in H. congruence.
Qed.

(** X1.  In a state built by a program that leaves every name to the
    constructors, an operator on two scalars returns, and the value of the
    result is the sum, the difference or the product of the values the
    operands had. *)
Theorem value_of_operation (search : state → expr → Q) (prog : list command)
    (σ : state) (op : operator) (a b : ref) (va vb : Q) :
  Forall default_named prog → exec search prog init = Ok (tt, σ) →
  value a σ = Ok (va, σ) → value b σ = Ok (vb, σ) →
  ∃ r σ' v,
    binop search op a (Scalar b) σ = Ok (r, σ') ∧
    value r σ' = Ok (v, σ') ∧ v == operate op va vb.
Proof.
  intros Hprog Hexec Ha Hb.
  pose proof (reachable_settled search prog σ Hprog Hexec) as Hset.
  destruct (value_Ok σ a va σ Hset Ha) as (oa & Hoa & ->).
  destruct (value_Ok σ b vb σ Hset Hb) as (ob & Hob & ->).
  destruct (binop_returns search σ op a (Scalar b) Hset) as (r & σ' & Hrun);
    [by eexists|by eexists|].
  destruct (binop_settled search σ op a (Scalar b) r σ' Hset Hrun)
    as (((Hσ' & _) & _ & Hreg' & _) & _).
  destruct (binop_value search σ op a (Scalar b) r σ' oa Hset Hoa Hrun) as (o & Ho & Hv).
  exists r, σ', (val σ' o). split; [done|]. split; [by apply value_val|].
  by destruct (Hv ob Hob).
Qed.

Lemma value_of_operation_witness :
  ∃ r σ' v,
    binop interval_search OpMul 0%nat (Scalar 1%nat) (final interval_search two_leaves)
      = Ok (r, σ') ∧
    value r σ' = Ok (v, σ') ∧ v == operate OpMul 5 3.
Proof.
  apply (value_of_operation interval_search two_leaves).
  - repeat constructor.
  - reflexivity.
  - reflexivity.
  - reflexivity.
Defined.

(** X2.  In such a state an operator on two scalars brings in no entity
    from elsewhere: every entity that [input_entities] lists for the result
    was listed for one of the operands, or is the entity of an operand (a
    phi value whose symbols have cancelled, as in [x - x], lists no entity,
    yet its promotion carries its own).  The other way round is not
    claimed: sympy drops a symbol that cancels when the polynomials are
    joined, as in [(x + y) - x]. *)
Theorem entities_of_operation (search : state → expr → Q) (prog : list command)
    (σ : state) (op : operator) (a b : ref) (oa ob : object) (ea eb : list nat) :
  Forall default_named prog → exec search prog init = Ok (tt, σ) →
  heap σ !! a = Some oa → heap σ !! b = Some ob →
  input_entities a σ = Ok (ea, σ) → input_entities b σ = Ok (eb, σ) →
  ∃ r σ' es,
    binop search op a (Scalar b) σ = Ok (r, σ') ∧
    input_entities r σ' = Ok (es, σ') ∧ NoDup es ∧
    ∀ e, e ∈ es → e ∈ ea ∨ e ∈ eb ∨ entity oa = Some e ∨ entity ob = Some e.
Proof.
  intros Hprog Hexec Hoa Hob Ha Hb.
  pose proof (reachable_settled search prog σ Hprog Hexec) as Hset.
  destruct (input_entities_Ok σ a ea σ Hset Ha) as (oa' & Hoa' & ->).
  destruct (input_entities_Ok σ b eb σ Hset Hb) as (ob' & Hob' & ->).
  assert (oa' = oa) as -> by congruence. assert (ob' = ob) as -> by congruence.
  destruct (binop_returns search σ op a (Scalar b) Hset) as (r & σ' & Hrun);
    [by eexists|by eexists|].
  destruct (binop_settled search σ op a (Scalar b) r σ' Hset Hrun)
    as (((Hσ' & _) & _ & _ & _ & _ & Hown') & _).
  destruct (binop_value search σ op a (Scalar b) r σ' oa Hset Hoa Hrun) as (o & Ho & Hv).
  destruct (Hv ob Hob) as [_ Hents].
  exists r, σ', (elements (ents σ' o)).
  split; [done|]. split; [by apply input_entities_ents|]. split; [apply NoDup_elements|].
  intros e. rewrite !elem_of_elements, Hents, elem_of_union. tauto.
Qed.

Lemma entities_of_operation_witness :
  ∃ r σ' es,
    binop interval_search OpSub 0%nat (Scalar 1%nat) (final interval_search two_leaves)
      = Ok (r, σ') ∧
    input_entities r σ' = Ok (es, σ') ∧ NoDup es ∧
    ∀ e, e ∈ es → e ∈ [0%nat] ∨ e ∈ [1%nat] ∨
                  entity (origin PhiScalar 1 (SsidOfId 0) 0 0 5 10) = Some e ∨
                  entity (origin PhiScalar 3 (SsidOfId 2) 1 0 3 10) = Some e.
Proof.
  apply (entities_of_operation interval_search two_leaves).
  - repeat constructor.
  - reflexivity.
  - reflexivity.
  - reflexivity.
  - by vm_compute.
  - by vm_compute.
Defined.

(** X3.  In such a state an operator with a public number on the right
    returns a new intermediate scalar of the kind of the left operand (a
    phi value stays a phi value of its entity, a gamma value stays gamma),
    writes nothing to the registry, and the result has the value of the
    operand combined with the number and draws on no entity the operand did
    not draw on. *)
Theorem public_operand (search : state → expr → Q) (prog : list command)
    (σ : state) (op : operator) (a : ref) (oa : object) (c : Q) :
  Forall default_named prog → exec search prog init = Ok (tt, σ) →
  heap σ !! a = Some oa →
  ∃ r σ' o va v es es',
    binop search op a (Public c) σ = Ok (r, σ') ∧ heap σ' !! r = Some o ∧
    cls o = (if isinstance_IntermediatePhiScalar oa
             then IntermediatePhiScalar else IntermediateGammaScalar) ∧
    entity o = (if isinstance_IntermediatePhiScalar oa then entity oa else None) ∧
    poly o = join op (poly oa) (Num c) ∧
    ssid2obj σ' = ssid2obj σ ∧
    value a σ = Ok (va, σ) ∧ value r σ' = Ok (v, σ') ∧ v == operate op va c ∧
    input_entities a σ = Ok (es, σ) ∧ input_entities r σ' = Ok (es', σ') ∧
    ∀ e, e ∈ es' → e ∈ es.
Proof.
  intros Hprog Hexec Hoa.
  pose proof (reachable_settled search prog σ Hprog Hexec) as Hset.
  pose proof Hset as ((Hσ & _) & _ & Hreg & _ & Hent & Hown).
  destruct (binop_returns search σ op a (Public c) Hset) as (r & σ' & Hrun);
    [by eexists|done|].
  destruct (binop_settled search σ op a (Public c) r σ' Hset Hrun)
    as (((Hσ' & _) & _ & Hreg' & _ & _ & Hown') & _).
  destruct (binop_value search σ op a (Public c) r σ' oa Hset Hoa Hrun)
    as (o & Ho & Hv & Hents).
  exists r, σ', o, (val σ oa), (val σ' o), (elements (ents σ oa)), (elements (ents σ' o)).
  split; [done|]. split; [done|].
  assert (cls o = (if isinstance_IntermediatePhiScalar oa
                   then IntermediatePhiScalar else IntermediateGammaScalar) ∧
          entity o = (if isinstance_IntermediatePhiScalar oa then entity oa else None) ∧
          poly o = join op (poly oa) (Num c)) as (Hcls & Hentity & Hpoly).
  { pose proof Hrun as Hrun'. unfold binop in Hrun'.
    rewrite (bindM_run _ _ _ _ _ (load_run _ _ _ Hoa)) in Hrun'.
    destruct (isinstance_IntermediatePhiScalar oa) eqn:Hphi.
    - destruct (Hent a oa Hoa Hphi) as [e He].
      unfold phi_op in Hrun'.
      rewrite (bindM_run _ _ _ _ _ (load_run _ _ _ Hoa)), He in Hrun'.
      unfold attr in Hrun'. erewrite bindM_run in Hrun' by reflexivity.
      rewrite new_IntermediatePhiScalar_run in Hrun'. injection Hrun' as <- <-.
      simpl in Ho. rewrite lookup_app_r, Nat.sub_diag in Ho by done.
      injection Ho as <-. by rewrite He.
    - unfold gamma_op in Hrun'.
      rewrite (bindM_run _ _ _ _ _ (load_run _ _ _ Hoa)) in Hrun'.
      rewrite new_IntermediateGammaScalar_run in Hrun'. injection Hrun' as <- <-.
      simpl in Ho. rewrite lookup_app_r, Nat.sub_diag in Ho by done.
      by injection Ho as <-. }
  split_and!; try done.
  - by apply (binop_quiet search σ op a (Public c) r σ').
  - by apply value_val.
  - by apply value_val.
  - by apply input_entities_ents.
  - by apply input_entities_ents.
  - intros e. by rewrite Hents.
Qed.

Lemma public_operand_witness :
  ∃ r σ' o va v es es',
    binop interval_search OpSub 0%nat (Public 2) (final interval_search two_leaves)
      = Ok (r, σ') ∧
    heap σ' !! r = Some o ∧
    cls o = (if isinstance_IntermediatePhiScalar (origin PhiScalar 1 (SsidOfId 0) 0 0 5 10)
             then IntermediatePhiScalar else IntermediateGammaScalar) ∧
    entity o = (if isinstance_IntermediatePhiScalar (origin PhiScalar 1 (SsidOfId 0) 0 0 5 10)
                then entity (origin PhiScalar 1 (SsidOfId 0) 0 0 5 10) else None) ∧
    poly o = join OpSub (poly (origin PhiScalar 1 (SsidOfId 0) 0 0 5 10)) (Num 2) ∧
    ssid2obj σ' = ssid2obj (final interval_search two_leaves) ∧
    value 0%nat (final interval_search two_leaves)
      = Ok (va, final interval_search two_leaves) ∧
    value r σ' = Ok (v, σ') ∧ v == operate OpSub va 2 ∧
    input_entities 0%nat (final interval_search two_leaves)
      = Ok (es, final interval_search two_leaves) ∧
    input_entities r σ' = Ok (es', σ') ∧
    ∀ e, e ∈ es' → e ∈ es.
Proof.
  apply (public_operand interval_search two_leaves).
  - repeat constructor.
  - reflexivity.
  - reflexivity.
Defined.

(** X4.  In such a state a phi value (a [PhiScalar] or an
    [IntermediatePhiScalar]) has an entity and traces back to no other:
    whatever [input_entities] lists for it is that entity.  (The list is
    empty when the symbols have cancelled, as in [x - x].) *)
Theorem phi_value_single_entity (search : state → expr → Q) (prog : list command)
    (σ : state) (x : ref) (o : object) :
  Forall default_named prog → exec search prog init = Ok (tt, σ) →
  heap σ !! x = Some o → isinstance_IntermediatePhiScalar o = true →
  ∃ e es, entity o = Some e ∧ input_entities x σ = Ok (es, σ) ∧ ∀ e', e' ∈ es → e' = e.
Proof.
  intros Hprog Hexec Ho Hphi.
  pose proof (reachable_settled search prog σ Hprog Hexec)
    as ((Hσ & _) & _ & _ & _ & Hent & Hown).
  destruct (Hent x o Ho Hphi) as [e He]. exists e, (elements (ents σ o)).
  split; [done|]. split; [by apply input_entities_ents|].
  destruct Hown as [_ Hown]. rewrite (Hown x o e Ho Hphi He).
  intros e'. rewrite elements_singleton. by intros ->%list_elem_of_singleton.
Qed.

Lemma phi_value_single_entity_witness :
  ∃ e es, entity (intermediate IntermediatePhiScalar 4 (Mul (Sym (SsidOfId 0)) (Num 2))
                    (Some 0%nat)) = Some e ∧
          input_entities 2%nat (final interval_search (take 3 chain))
            = Ok (es, final interval_search (take 3 chain)) ∧
          ∀ e', e' ∈ es → e' = e.
Proof.
  apply (phi_value_single_entity interval_search (take 3 chain)).
  - repeat constructor.
  - reflexivity.
  - reflexivity.
  - reflexivity.
Defined.

(** X5.  In such a state, whatever one more construction or operator does,
    every scalar that had a value has the same value afterwards. *)
Theorem values_are_stable (search : state → expr → Q) (prog : list command)
    (σ : state) (c : command) (r : ref) (σ' : state) (x : ref) (v : Q) :
  Forall default_named prog → exec search prog init = Ok (tt, σ) →
  default_named c → run search c σ = Ok (r, σ') →
  value x σ = Ok (v, σ) → value x σ' = Ok (v, σ').
Proof.
  intros Hprog Hexec Hc Hrun Hv.
  pose proof (reachable_settled search prog σ Hprog Hexec) as Hset.
  destruct (run_settled search σ c r σ' Hset Hc Hrun) as (((Hσ' & _) & _ & Hreg' & _) & Hext).
  destruct (value_Ok σ x v σ Hset Hv) as (o & Ho & ->).
  destruct (extends_heap _ _ Hext x o Ho) as (o' & Ho' & _).
  pose proof Hset as ((Hσ & _) & _).
  rewrite (value_val σ' x o' Hσ' Hreg' Ho').
  by destruct (extends_val σ σ' x o o' Hσ Hext Ho Ho') as [-> _].
Qed.

Lemma values_are_stable_witness :
  value 0%nat (after (run interval_search (Binop OpAdd 0%nat (Scalar 1%nat)))
                     (final interval_search two_leaves))
  = Ok (5, after (run interval_search (Binop OpAdd 0%nat (Scalar 1%nat)))
                 (final interval_search two_leaves)).
Proof.
  apply (values_are_stable interval_search two_leaves (final interval_search two_leaves)
           (Binop OpAdd 0%nat (Scalar 1%nat)) 4%nat).
  - repeat constructor.
  - reflexivity.
  - exact I.
  - reflexivity.
  - reflexivity.
Defined.

(** *** What an operator does to the objects that were there *)

Section Caches.

Variable search : state → expr → Q.

Lemma gamma_fills σ y g σ' oy :
  heap σ !! y = Some oy → isinstance_IntermediatePhiScalar oy = true →
  gamma search y σ = Ok (g, σ') →
  ∀ x o, heap σ !! x = Some o →
    heap σ' !! x = Some o ∨ (x = y ∧ fills_cache σ σ' x o).
Proof.
  intros Hoy Hphi H x o Ho.
  destruct (gamma_Ok search σ y g σ' H)
    as (oy' & Hoy' & [[_ ->]|(lo & v & hi & e & Hnone & He & -> & ->)]); [by left|].
  assert (oy' = oy) as -> by congruence.
  destruct (decide (x = y)) as [->|Hne].
  - right. split; [done|]. assert (o = oy) as -> by congruence.
    split; [done|]. split; [done|].
    destruct (promoted_new σ y oy lo v hi e Hoy) as [Hnew _].
    exists (length (heap σ)), (promotion lo v hi e σ). split_and!; try done.
    simpl. apply list_lookup_insert_eq. rewrite length_app.
    apply lookup_lt_Some in Hoy. lia.
  - left. destruct (promoted_heap σ y oy lo v hi e x o Hoy Ho) as (o'' & Ho'' & H').
    destruct H' as (_ & _ & _ & _ & _ & _ & Heq). by rewrite Ho'', (Heq Hne).
Qed.

Lemma fills_then (P1 P2 : ref → Prop) σ σ1 σ2 :
  (length (heap σ) ≤ length (heap σ1))%nat →
  (∀ x o, heap σ !! x = Some o →
     heap σ1 !! x = Some o ∨ (P1 x ∧ fills_cache σ σ1 x o)) →
  (∀ x o, heap σ1 !! x = Some o →
     heap σ2 !! x = Some o ∨ (P2 x ∧ fills_cache σ1 σ2 x o)) →
  ∀ x o, heap σ !! x = Some o →
    heap σ2 !! x = Some o ∨ ((P1 x ∨ P2 x) ∧ fills_cache σ σ2 x o).
Proof.
  intros Hlen H1 H2 x o Ho.
  destruct (H1 x o Ho) as [Ho1|[HP (Hphi & Hnone & g & og & Hg & Hx & Hog & Hcls & He)]].
  - destruct (H2 x o Ho1) as [Ho2|[HP (Hphi & Hnone & g & og & Hg & Hx & Hog & Hcls & He)]];
      [by left|].
    right. split; [by right|]. split; [done|]. split; [done|].
    exists g, og. split_and!; try done. lia.
  - right. split; [by left|]. split; [done|]. split; [done|].
    exists g, og. split; [done|].
    destruct (H2 x _ Hx) as [Hx2|[_ (_ & Hnone' & _)]]; [|done].
    destruct (H2 g og Hog) as [Hog2|[_ (Hphi' & _)]]; [done|].
    unfold isinstance_IntermediatePhiScalar in Hphi'. by rewrite Hcls in Hphi'.
Qed.

Lemma gamma_op_fills σ op self other r σ' :
  settled σ → gamma_op search op self other σ = Ok (r, σ') →
  ∀ x o, heap σ !! x = Some o →
    heap σ' !! x = Some o ∨ (other = Scalar x ∧ fills_cache σ σ' x o).
Proof.
  intros Hset H. unfold gamma_op in H. destruct other as [c|b].
  - apply bindM_Ok in H as (so & σ1 & Hso & H). apply load_Ok in Hso as [-> Hso].
    rewrite new_IntermediateGammaScalar_run in H. injection H as <- <-.
    intros x o Ho. left. simpl. by apply lookup_app_l_Some.
  - apply bindM_Ok in H as (ob & σ1 & Hob & H). apply load_Ok in Hob as [-> Hob].
    apply bindM_Ok in H as (b' & σ2 & Hb' & H).
    apply bindM_Ok in H as (so & σ3 & Hso & H). apply load_Ok in Hso as [-> Hso].
    apply bindM_Ok in H as (ob' & σ3 & Hob' & H). apply load_Ok in Hob' as [-> Hob'].
    rewrite new_IntermediateGammaScalar_run in H. injection H as <- <-.
    assert ((length (heap σ) ≤ length (heap σ2))%nat ∧
            ∀ x o, heap σ !! x = Some o →
              heap σ2 !! x = Some o ∨ (Scalar b = Scalar x ∧ fills_cache σ σ2 x o))
      as [Hlen H1].
    { destruct (isinstance_IntermediatePhiScalar ob) eqn:Hphi.
      - destruct (gamma_settled search σ b b' σ2 Hset Hb') as (_ & Hext & _).
        split; [by apply extends_length|]. intros x o Ho.
        destruct (gamma_fills σ b b' σ2 ob Hob Hphi Hb' x o Ho) as [?|[-> ?]]; auto.
      - apply mret_Ok in Hb' as [_ ->]. split; [done|]. by left. }
    intros x o Ho.
    destruct (fills_then (λ x, Scalar b = Scalar x) (λ _, False) σ σ2
                (push (intermediate IntermediateGammaScalar (next_uid σ2)
                         (join op (poly so) (poly ob')) None) (bump σ2)) Hlen H1) with x o
      as [?|[[?|[]] ?]]; auto.
    intros y oy Hy. left. simpl. by apply lookup_app_l_Some.
Qed.

Lemma binop_fills σ op self other r σ' :
  settled σ → binop search op self other σ = Ok (r, σ') →
  ∀ x o, heap σ !! x = Some o →
    heap σ' !! x = Some o ∨ ((x = self ∨ other = Scalar x) ∧ fills_cache σ σ' x o).
Proof.
  intros Hset H. unfold binop in H.
  apply bindM_Ok in H as (so & σ1 & Hso & H). apply load_Ok in Hso as [-> Hso].
  destruct (isinstance_IntermediatePhiScalar so) eqn:Hphi.
  2:{ intros x o Ho.
      destruct (gamma_op_fills σ op self other r σ' Hset H x o Ho) as [?|[? ?]]; auto. }
  unfold phi_op in H. destruct other as [c|b].
  - apply bindM_Ok in H as (so' & σ1 & Hso' & H). apply load_Ok in Hso' as [-> Hso'].
    apply bindM_Ok in H as (e & σ1 & He & H). apply attr_Ok in He as [-> He].
    rewrite new_IntermediatePhiScalar_run in H. injection H as <- <-.
    intros x o Ho. left. simpl. by apply lookup_app_l_Some.
  - apply bindM_Ok in H as (ob & σ1 & Hob & H). apply load_Ok in Hob as [-> Hob].
    destruct (isinstance_IntermediateGammaScalar ob) eqn:Hgam.
    + apply bindM_Ok in H as (g & σ1 & Hg & H).
      destruct (gamma_settled search σ self g σ1 Hset Hg) as (Hset1 & Hext1 & _).
      intros x o Ho.
      destruct (fills_then (λ x, x = self) (λ x, Scalar b = Scalar x) σ σ1 σ'
                  (extends_length _ _ Hext1)) with x o as [?|[[?|?] ?]]; auto.
      * intros y oy Hy. by apply (gamma_fills σ self g σ1 so).
      * intros y oy Hy. by apply (gamma_op_fills σ1 op g (Scalar b) r σ').
    + apply bindM_Ok in H as (so' & σ1 & Hso' & H). apply load_Ok in Hso' as [-> Hso'].
      apply bindM_Ok in H as (se & σ1 & Hse & H). apply attr_Ok in Hse as [-> Hse].
      apply bindM_Ok in H as (oe & σ1 & Hoe & H). apply attr_Ok in Hoe as [-> Hoe].
      assert (isinstance_IntermediatePhiScalar ob = true) as Hphib.
      { unfold isinstance_IntermediatePhiScalar, isinstance_IntermediateGammaScalar in *.
        by destruct (cls ob). }
      destruct (decide (se = oe)) as [->|Hne].
      * rewrite new_IntermediatePhiScalar_run in H. injection H as <- <-.
        intros x o Ho. left. simpl. by apply lookup_app_l_Some.
      * apply bindM_Ok in H as (g & σ1 & Hg & H).
        destruct (gamma_settled search σ self g σ1 Hset Hg) as (Hset1 & Hext1 & _).
        apply bindM_Ok in H as (g' & σ2 & Hg' & H).
        destruct (gamma_settled search σ1 b g' σ2 Hset1 Hg')
          as (Hset2 & Hext2 & ob1 & og' & Hob1 & Hog' & Hcls' & _).
        destruct (extends_heap _ _ Hext1 b ob Hob) as (ob1' & Hob1' & Hclsb & _).
        assert (ob1' = ob1) as -> by congruence.
        assert (isinstance_IntermediatePhiScalar ob1 = true) as Hphib1.
        { unfold isinstance_IntermediatePhiScalar in *. by rewrite Hclsb. }
        assert (∀ x o, heap σ !! x = Some o →
                  heap σ2 !! x = Some o ∨ ((x = self ∨ x = b) ∧ fills_cache σ σ2 x o)) as H12.
        { apply (fills_then (λ x, x = self) (λ x, x = b) σ σ1 σ2 (extends_length _ _ Hext1)).
          - intros y oy Hy. by apply (gamma_fills σ self g σ1 so).
          - intros y oy Hy. by apply (gamma_fills σ1 b g' σ2 ob1). }
        assert (extends σ σ2) as Hext by (by eapply extends_trans).
        intros x o Ho.
        pose proof (gamma_op_fills σ2 op g (Scalar g') r σ' Hset2 H) as H23.
        destruct (fills_then (λ x, x = self ∨ x = b) (λ x, Scalar g' = Scalar x) σ σ2 σ'
                    (extends_length _ _ Hext) H12 H23 x o Ho)
          as [?|[[[?|?]|Hx] Hf]]; [by left|by right; split; [left|]| |].
        { right. split; [|done]. right. by subst. }
        exfalso. injection Hx as <-.
        destruct (extends_heap _ _ Hext g' o Ho) as (o2 & Ho2 & Hcls2 & _).
        assert (o2 = og') as -> by congruence.
        destruct Hf as (Hphio & _). unfold isinstance_IntermediatePhiScalar in Hphio.
        by rewrite <- Hcls2, Hcls' in Hphio.
Qed.

End Caches.

(** X6.  In such a state one more construction or operator changes no
    object that was there, with one exception: an operator sets the cache
    of an operand that is a phi value and had none, to a [GammaScalar] of
    the operand's entity that it has created.  A constructor changes
    nothing; what is created comes after what was there. *)
Theorem objects_only_gain_cache (search : state → expr → Q) (prog : list command)
    (σ : state) (c : command) (r : ref) (σ' : state) (x : ref) (o : object) :
  Forall default_named prog → exec search prog init = Ok (tt, σ) →
  default_named c → run search c σ = Ok (r, σ') →
  heap σ !! x = Some o →
  (length (heap σ) ≤ length (heap σ'))%nat ∧
  (heap σ' !! x = Some o ∨
   ∃ op self other,
     c = Binop op self other ∧ (x = self ∨ other = Scalar x) ∧ fills_cache σ σ' x o).
Proof.
  intros Hprog Hexec Hc Hrun Ho.
  pose proof (reachable_settled search prog σ Hprog Hexec) as Hset.
  destruct (run_settled search σ c r σ' Hset Hc Hrun) as (Hset' & Hext).
  split; [by apply extends_length|].
  destruct c as [lo v hi e i s|lo v hi e i s|op self other]; simpl in Hrun, Hc.
  - left. destruct Hc as [-> ->]. unfold new_PhiScalar, OriginScalar_init in Hrun.
    destruct e; invM; simpl; by apply lookup_app_l_Some.
  - left. destruct Hc as [-> ->]. unfold new_GammaScalar, OriginScalar_init in Hrun.
    destruct e; invM; simpl; by apply lookup_app_l_Some.
  - destruct (binop_fills search σ op self other r σ' Hset Hrun x o Ho) as [?|[? ?]];
      [by left|].
    right. by exists op, self, other.
Qed.

Lemma objects_only_gain_cache_witness :
  (length (heap (final interval_search two_leaves))
   ≤ length (heap (after (run interval_search (Binop OpAdd 0%nat (Scalar 1%nat)))
                         (final interval_search two_leaves))))%nat ∧
  (heap (after (run interval_search (Binop OpAdd 0%nat (Scalar 1%nat)))
               (final interval_search two_leaves)) !! 0%nat
   = Some (origin PhiScalar 1 (SsidOfId 0) 0 0 5 10) ∨
   ∃ op self other,
     Binop OpAdd 0%nat (Scalar 1%nat) = Binop op self other ∧
     (0%nat = self ∨ other = Scalar 0%nat) ∧
     fills_cache (final interval_search two_leaves)
       (after (run interval_search (Binop OpAdd 0%nat (Scalar 1%nat)))
              (final interval_search two_leaves))
       0%nat (origin PhiScalar 1 (SsidOfId 0) 0 0 5 10)).
Proof.
  apply (objects_only_gain_cache interval_search two_leaves (final interval_search two_leaves)
           (Binop OpAdd 0%nat (Scalar 1%nat)) 4%nat).
  - repeat constructor.
  - reflexivity.
  - exact I.
  - reflexivity.
  - reflexivity.
Defined.

(** X7.  In such a state one more construction or operator removes no
    entry of the registry and rebinds none: every symbol that was
    registered names the object it named. *)
Theorem registry_only_grows (search : state → expr → Q) (prog : list command)
    (σ : state) (c : command) (r : ref) (σ' : state) :
  Forall default_named prog → exec search prog init = Ok (tt, σ) →
  default_named c → run search c σ = Ok (r, σ') →
  ssid2obj σ ⊆ ssid2obj σ'.
Proof.
  intros Hprog Hexec Hc Hrun.
  pose proof (reachable_settled search prog σ Hprog Hexec) as Hset.
  destruct (run_settled search σ c r σ' Hset Hc Hrun) as (_ & Hext).
  apply map_subseteq_spec. intros s x. apply (extends_registry _ _ Hext).
Qed.

Lemma registry_only_grows_witness :
  ssid2obj (final interval_search two_leaves)
  ⊆ ssid2obj (after (run interval_search (Binop OpAdd 0%nat (Scalar 1%nat)))
                    (final interval_search two_leaves)).
Proof.
  apply (registry_only_grows interval_search two_leaves (final interval_search two_leaves)
           (Binop OpAdd 0%nat (Scalar 1%nat)) 4%nat).
  - repeat constructor.
  - reflexivity.
  - exact I.
  - reflexivity.
Defined.

(** X8.  A promotion is made once: when [x.gamma] has returned, asking
    again returns the same object and changes nothing. *)
Theorem gamma_is_cached (search : state → expr → Q) (σ : state) (x g : ref) (σ' : state) :
  gamma search x σ = Ok (g, σ') → gamma search x σ' = Ok (g, σ').
Proof.
  intros H.
  destruct (gamma_Ok search σ x g σ' H)
    as (o & Ho & [[Hg ->]|(lo & v & hi & e & Hg & He & -> & ->)]).
  - by apply (gamma_cached search σ x o).
  - apply (gamma_cached search _ x (with_gamma (length (heap σ)) o)); [|done].
    simpl. apply list_lookup_insert_eq. rewrite length_app.
    apply lookup_lt_Some in Ho. lia.
Qed.

Lemma gamma_is_cached_witness :
  gamma interval_search 0%nat
    (after (gamma interval_search 0%nat) (final interval_search two_leaves))
  = Ok (2%nat, after (gamma interval_search 0%nat) (final interval_search two_leaves)).
Proof.
  apply (gamma_is_cached interval_search (final interval_search two_leaves)).
  reflexivity.
Defined.

(** X9.  In such a state the first promotion of a phi value returns a new
    [GammaScalar] of the same entity, registered under its own symbol, whose
    [min_val], [value] and [max_val] are those the phi value had. *)
Theorem promotion_carries_bounds (search : state → expr → Q) (prog : list command)
    (σ : state) (x : ref) (o : object) :
  Forall default_named prog → exec search prog init = Ok (tt, σ) →
  heap σ !! x = Some o → isinstance_IntermediatePhiScalar o = true → _gamma o = None →
  ∃ lo v hi g σ' og s,
    min_val search x σ = Ok (lo, σ) ∧ value x σ = Ok (v, σ) ∧
    max_val search x σ = Ok (hi, σ) ∧
    gamma search x σ = Ok (g, σ') ∧ heap σ' !! g = Some og ∧
    cls og = GammaScalar ∧ entity og = entity o ∧
    poly og = Sym s ∧ ssid2obj σ !! s = None ∧ ssid2obj σ' !! s = Some g ∧
    min_val search g σ' = Ok (lo, σ') ∧ value g σ' = Ok (v, σ') ∧
    max_val search g σ' = Ok (hi, σ').
Proof.
  intros Hprog Hexec Ho Hphi Hg.
  pose proof (reachable_settled search prog σ Hprog Hexec)
    as ((Hσ & _ & Hf) & _ & _ & _ & Hent & _).
  destruct (Hent x o Ho Hphi) as [e He].
  destruct (gamma_first search σ x o e Hσ Ho Hg He) as (lo & v & hi & Hlo & Hv & Hhi & Hrun).
  destruct (promoted_new σ x o lo v hi e Ho) as [Hnew Hreg].
  exists lo, v, hi, (length (heap σ)), (promoted x o lo v hi e σ),
         (promotion lo v hi e σ), (SsidOfIdEntity (next_uid σ) e).
  split_and!; try done.
  - by apply unregistered_id_entity.
  - unfold min_val. by rewrite (bindM_run _ _ _ _ _ (load_run _ _ _ Hnew)).
  - unfold value. by rewrite (bindM_run _ _ _ _ _ (load_run _ _ _ Hnew)).
  - unfold max_val. by rewrite (bindM_run _ _ _ _ _ (load_run _ _ _ Hnew)).
Qed.

Lemma promotion_carries_bounds_witness :
  ∃ lo v hi g σ' og s,
    min_val interval_search 2%nat (final interval_search (take 3 chain))
      = Ok (lo, final interval_search (take 3 chain)) ∧
    value 2%nat (final interval_search (take 3 chain))
      = Ok (v, final interval_search (take 3 chain)) ∧
    max_val interval_search 2%nat (final interval_search (take 3 chain))
      = Ok (hi, final interval_search (take 3 chain)) ∧
    gamma interval_search 2%nat (final interval_search (take 3 chain)) = Ok (g, σ') ∧
    heap σ' !! g = Some og ∧
    cls og = GammaScalar ∧
    entity og = entity (intermediate IntermediatePhiScalar 4
                          (Mul (Sym (SsidOfId 0)) (Num 2)) (Some 0%nat)) ∧
    poly og = Sym s ∧
    ssid2obj (final interval_search (take 3 chain)) !! s = None ∧
    ssid2obj σ' !! s = Some g ∧
    min_val interval_search g σ' = Ok (lo, σ') ∧ value g σ' = Ok (v, σ') ∧
    max_val interval_search g σ' = Ok (hi, σ').
Proof.
  apply (promotion_carries_bounds interval_search (take 3 chain)).
  - repeat constructor.
  - reflexivity.
  - reflexivity.
  - reflexivity.
  - reflexivity.
Defined.


(** What comes out of a gamma operator is an [IntermediateGammaScalar]. *)
Lemma gamma_op_class search σ op self other r σ' :
  gamma_op search op self other σ = Ok (r, σ') →
  ∃ o, heap σ' !! r = Some o ∧ cls o = IntermediateGammaScalar ∧ entity o = None.
Proof.
  intros H. unfold gamma_op in H. destruct other as [c|b]; invM.
  all: rewrite new_IntermediateGammaScalar_run in H; injection H as <- <-.
  all: eexists; split; [simpl; apply lookup_snoc_Some; right; split; reflexivity|done].
Qed.

(** X10.  In such a state the three operators follow one rule of
    promotion: on two phi values of one entity the result is an
    [IntermediatePhiScalar] of that entity over the joined polynomials, and
    nothing is registered; in every other case (a gamma value on either
    side, or phi values of two entities) it is an [IntermediateGammaScalar],
    which has no entity. *)
Theorem result_class (search : state → expr → Q) (prog : list command)
    (σ : state) (op : operator) (a b : ref) (oa ob : object) :
  Forall default_named prog → exec search prog init = Ok (tt, σ) →
  heap σ !! a = Some oa → heap σ !! b = Some ob →
  ∃ r σ' o,
    binop search op a (Scalar b) σ = Ok (r, σ') ∧ heap σ' !! r = Some o ∧
    if bool_decide (isinstance_IntermediatePhiScalar oa = true ∧
                    isinstance_IntermediatePhiScalar ob = true ∧
                    entity oa = entity ob)
    then cls o = IntermediatePhiScalar ∧ entity o = entity oa ∧
         poly o = join op (poly oa) (poly ob) ∧ ssid2obj σ' = ssid2obj σ
    else cls o = IntermediateGammaScalar ∧ entity o = None.
Proof.
  intros Hprog Hexec Hoa Hob.
  pose proof (reachable_settled search prog σ Hprog Hexec) as Hset.
  pose proof Hset as (_ & _ & _ & _ & Hent & _).
  destruct (binop_returns search σ op a (Scalar b) Hset) as (r & σ' & Hrun);
    [by eexists|by eexists|].
  exists r, σ'. pose proof Hrun as H. unfold binop in H.
  rewrite (bindM_run _ _ _ _ _ (load_run _ _ _ Hoa)) in H.
  destruct (isinstance_IntermediatePhiScalar oa) eqn:Hpa.
  2:{ destruct (gamma_op_class search σ op a (Scalar b) r σ' H) as (o & Ho & Hcls & He).
      exists o. rewrite bool_decide_eq_false_2; [done|]. by intros [? _]. }
  unfold phi_op in H. rewrite (bindM_run _ _ _ _ _ (load_run _ _ _ Hob)) in H.
  destruct (isinstance_IntermediateGammaScalar ob) eqn:Hgb.
  { apply bindM_Ok in H as (g & σ1 & _ & H).
    destruct (gamma_op_class search σ1 op g (Scalar b) r σ' H) as (o & Ho & Hcls & He).
    exists o. rewrite bool_decide_eq_false_2; [done|]. intros (_ & Hpb & _).
    unfold isinstance_IntermediatePhiScalar, isinstance_IntermediateGammaScalar in *.
    by destruct (cls ob). }
  assert (isinstance_IntermediatePhiScalar ob = true) as Hpb.
  { unfold isinstance_IntermediatePhiScalar, isinstance_IntermediateGammaScalar in *.
    by destruct (cls ob). }
  destruct (Hent a oa Hoa Hpa) as [ea Hea]. destruct (Hent b ob Hob Hpb) as [eb Heb].
  rewrite (bindM_run _ _ _ _ _ (load_run _ _ _ Hoa)), Hea, Heb in H.
  unfold attr in H. erewrite !bindM_run in H by reflexivity.
  destruct (decide (ea = eb)) as [->|Hne].
  - rewrite new_IntermediatePhiScalar_run in H. injection H as <- <-.
    eexists. split; [done|]. split.
    { simpl. apply lookup_snoc_Some. right. split; reflexivity. }
    rewrite bool_decide_eq_true_2; [|by rewrite Hea, Heb]. by rewrite Hea.
  - apply bindM_Ok in H as (g & σ1 & _ & H). apply bindM_Ok in H as (g' & σ2 & _ & H).
    destruct (gamma_op_class search σ2 op g (Scalar g') r σ' H) as (o & Ho & Hcls & He).
    exists o. rewrite bool_decide_eq_false_2; [done|]. intros (_ & _ & Heq). congruence.
Qed.

Lemma result_class_witness :
  ∃ r σ' o,
    binop interval_search OpMul 0%nat (Scalar 1%nat) (final interval_search two_leaves)
      = Ok (r, σ') ∧ heap σ' !! r = Some o ∧
    if bool_decide
         (isinstance_IntermediatePhiScalar (origin PhiScalar 1 (SsidOfId 0) 0 0 5 10) = true ∧
          isinstance_IntermediatePhiScalar (origin PhiScalar 3 (SsidOfId 2) 1 0 3 10) = true ∧
          entity (origin PhiScalar 1 (SsidOfId 0) 0 0 5 10)
          = entity (origin PhiScalar 3 (SsidOfId 2) 1 0 3 10))
    then cls o = IntermediatePhiScalar ∧
         entity o = entity (origin PhiScalar 1 (SsidOfId 0) 0 0 5 10) ∧
         poly o = join OpMul (poly (origin PhiScalar 1 (SsidOfId 0) 0 0 5 10))
                             (poly (origin PhiScalar 3 (SsidOfId 2) 1 0 3 10)) ∧
         ssid2obj σ' = ssid2obj (final interval_search two_leaves)
    else cls o = IntermediateGammaScalar ∧ entity o = None.
Proof.
  apply (result_class interval_search two_leaves).
  - repeat constructor.
  - reflexivity.
  - reflexivity.
  - reflexivity.
Defined.

(** *** Leaves and the registry *)

Lemma leaf_reads_back search σ1 c i k en lo v hi :
  isinstance_OriginScalar (origin c i k en lo v hi) = true →
  let r := length (heap σ1) in
  let σ' := bind_ssid k r (push (origin c i k en lo v hi) σ1) in
  heap σ' !! r = Some (origin c i k en lo v hi) ∧
  lookup_ssid k σ' = Ok (r, σ') ∧
  input_scalars r σ' = Ok ([r], σ') ∧ input_entities r σ' = Ok ([en], σ') ∧
  min_val search r σ' = Ok (lo, σ') ∧ value r σ' = Ok (v, σ') ∧
  max_val search r σ' = Ok (hi, σ').
Proof.
  intros Hc r σ'.
  assert (heap σ' !! r = Some (origin c i k en lo v hi)) as Ho.
  { simpl. apply lookup_snoc_Some. right. split; reflexivity. }
  assert (lookup_ssid k σ' = Ok (r, σ')) as Hk.
  { unfold lookup_ssid. simpl. by rewrite lookup_insert_eq. }
  assert (input_scalars r σ' = Ok ([r], σ')) as Hin.
  { unfold input_scalars, input_polys.
    erewrite bindM_run; [|erewrite bindM_run; [reflexivity|by apply load_run]].
    simpl poly. simpl free_symbols.
    rewrite elements_singleton. simpl. by rewrite (bindM_run _ _ _ _ _ Hk). }
  split_and!; try done.
  - unfold input_entities. rewrite (bindM_run _ _ _ _ _ Hin). simpl.
    assert ((load r ≫= λ o, attr "entity" (entity o)) σ' = Ok (en, σ')) as He.
    { by rewrite (bindM_run _ _ _ _ _ (load_run _ _ _ Ho)). }
    erewrite bindM_run; [|erewrite bindM_run; [reflexivity|exact He]].
    unfold mret, M_ret. f_equal. f_equal. simpl.
    rewrite (right_id_L ∅ (∪)). by rewrite elements_singleton.
  - unfold min_val. by rewrite (bindM_run _ _ _ _ _ (load_run _ _ _ Ho)), Hc.
  - unfold value. by rewrite (bindM_run _ _ _ _ _ (load_run _ _ _ Ho)), Hc.
  - unfold max_val. by rewrite (bindM_run _ _ _ _ _ (load_run _ _ _ Ho)), Hc.
Qed.

(** X11.  Whatever the state, the three numbers and the entity passed in
    (or left out), the constructor of a [PhiScalar] that is left to draw its
    id and to name its symbol returns a new object registered under the
    symbol of the id it drew; the new leaf is its own only input scalar, its
    only input entity is its entity, and its accessors read the three
    numbers it was built with.  No other symbol of the registry is
    touched. *)
Theorem phi_leaf_reads_back (search : state → expr → Q) (σ : state)
    (lo v hi : Q) (e : option nat) :
  ∃ r σ' o en,
    new_PhiScalar lo v hi e None None σ = Ok (r, σ') ∧ r = length (heap σ) ∧
    heap σ' !! r = Some o ∧ cls o = PhiScalar ∧ poly o = Sym (SsidOfId (next_uid σ)) ∧
    entity o = Some en ∧ (∀ e', e = Some e' → en = e') ∧
    ssid2obj σ' = <[SsidOfId (next_uid σ) := r]> (ssid2obj σ) ∧
    lookup_ssid (SsidOfId (next_uid σ)) σ' = Ok (r, σ') ∧
    input_scalars r σ' = Ok ([r], σ') ∧ input_entities r σ' = Ok ([en], σ') ∧
    min_val search r σ' = Ok (lo, σ') ∧ value r σ' = Ok (v, σ') ∧
    max_val search r σ' = Ok (hi, σ').
Proof.
  unfold new_PhiScalar, OriginScalar_init.
  destruct e as [e|]; simpl.
  all: eexists _, _, _, _; split; [reflexivity|].
  all: split; [reflexivity|].
  all: match goal with
       |- context [bind_ssid ?k _ (push (origin ?c ?i ?k ?en ?lo ?v ?hi) ?σ1)] =>
         destruct (leaf_reads_back search σ1 c i k en lo v hi eq_refl)
           as (H1 & H2 & H3 & H4 & H5 & H6 & H7)
       end.
  all: split_and!; try done; try (by intros ? [= <-]).
Qed.

(** X12.  The same for the constructor of a [GammaScalar], whose symbol
    joins the id it drew and the id of its entity. *)
Theorem gamma_leaf_reads_back (search : state → expr → Q) (σ : state)
    (lo v hi : Q) (e : option nat) :
  ∃ r σ' o en,
    new_GammaScalar lo v hi e None None σ = Ok (r, σ') ∧ r = length (heap σ) ∧
    heap σ' !! r = Some o ∧ cls o = GammaScalar ∧
    poly o = Sym (SsidOfIdEntity (next_uid σ) en) ∧
    entity o = Some en ∧ (∀ e', e = Some e' → en = e') ∧
    ssid2obj σ' = <[SsidOfIdEntity (next_uid σ) en := r]> (ssid2obj σ) ∧
    lookup_ssid (SsidOfIdEntity (next_uid σ) en) σ' = Ok (r, σ') ∧
    input_scalars r σ' = Ok ([r], σ') ∧ input_entities r σ' = Ok ([en], σ') ∧
    min_val search r σ' = Ok (lo, σ') ∧ value r σ' = Ok (v, σ') ∧
    max_val search r σ' = Ok (hi, σ').
Proof.
  unfold new_GammaScalar, OriginScalar_init.
  destruct e as [e|]; simpl.
  all: eexists _, _, _, _; split; [reflexivity|].
  all: split; [reflexivity|].
  all: match goal with
       |- context [bind_ssid ?k _ (push (origin ?c ?i ?k ?en ?lo ?v ?hi) ?σ1)] =>
         destruct (leaf_reads_back search σ1 c i k en lo v hi eq_refl)
           as (H1 & H2 & H3 & H4 & H5 & H6 & H7)
       end.
  all: split_and!; try done; try (by intros ? [= <-]).
Qed.


Lemma for_each_lookup_KeyError σ (l : list Ssid) s :
  s ∈ l → ssid2obj σ !! s = None → for_each lookup_ssid l σ = Raise KeyError.
Proof.
  intros Hs Hnone. induction l as [|k l IH]; [by apply elem_of_nil in Hs|].
  simpl. unfold mbind, M_bind at 1. unfold lookup_ssid at 1.
  destruct (ssid2obj σ !! k) as [x|] eqn:Hk; [|done].
  apply elem_of_cons in Hs as [->|Hs]; [congruence|].
  unfold mbind, M_bind in IH. unfold M_bind at 1. by rewrite (IH Hs).
Qed.

(** X13.  A scalar whose polynomial mentions a symbol the registry does
    not hold cannot be read: [input_scalars] and [input_entities] raise
    [KeyError], and so does [value] unless the scalar is an origin scalar,
    which stores its value. *)
Theorem unregistered_symbol_raises (σ : state) (x : ref) (o : object) (s : Ssid) :
  heap σ !! x = Some o → s ∈ free_symbols (poly o) → ssid2obj σ !! s = None →
  input_scalars x σ = Raise KeyError ∧
  input_entities x σ = Raise KeyError ∧
  (isinstance_OriginScalar o = false → value x σ = Raise KeyError).
Proof.
  intros Ho Hs Hnone.
  assert (input_scalars x σ = Raise KeyError) as Hin.
  { unfold input_scalars, input_polys.
    erewrite bindM_run; [|erewrite bindM_run; [reflexivity|by apply load_run]].
    apply (for_each_lookup_KeyError σ _ s); [by apply elem_of_elements|done]. }
  split; [done|]. split.
  - unfold input_entities. unfold mbind, M_bind at 1. by rewrite Hin.
  - intros Horigin. unfold value.
    rewrite (bindM_run _ _ _ _ _ (load_run _ _ _ Ho)), Horigin.
    unfold value_dict. unfold mbind, M_bind at 1. unfold M_bind at 1. by rewrite Hin.
Qed.

Lemma unregistered_symbol_raises_witness :
  input_scalars 0%nat
    {| heap := [intermediate IntermediateGammaScalar 0 (Sym (SsidOfId 7)) None];
       ssid2obj := ∅; next_uid := 1 |} = Raise KeyError ∧
  input_entities 0%nat
    {| heap := [intermediate IntermediateGammaScalar 0 (Sym (SsidOfId 7)) None];
       ssid2obj := ∅; next_uid := 1 |} = Raise KeyError ∧
  (isinstance_OriginScalar (intermediate IntermediateGammaScalar 0 (Sym (SsidOfId 7)) None)
   = false →
   value 0%nat
     {| heap := [intermediate IntermediateGammaScalar 0 (Sym (SsidOfId 7)) None];
        ssid2obj := ∅; next_uid := 1 |} = Raise KeyError).
Proof.
  apply (unregistered_symbol_raises _ 0%nat _ (SsidOfId 7)).
  - reflexivity.
  - simpl. by apply elem_of_singleton.
  - reflexivity.
Defined.

(** X14.  The registry is read when a value is asked for, not when a
    scalar is built: after a [PhiScalar] is constructed with an ssid [s],
    the value of any derived scalar is its polynomial at the new leaf's
    value for [s] and at the stored values for every other symbol, so a
    scalar built from an earlier leaf of that name now has another value. *)
Theorem ssid_reuse_rebinds (σ : state) (x : ref) (o : object)
    (lo v hi : Q) (e i : option nat) (s : Ssid) (r : ref) (σ' : state) :
  structured σ → heap σ !! x = Some o → isinstance_OriginScalar o = false →
  new_PhiScalar lo v hi e i (Some s) σ = Ok (r, σ') →
  value x σ = Ok (eval (leaf_value σ) (poly o), σ) ∧
  value x σ' = Ok (eval (λ k, if decide (k = s) then v else leaf_value σ k) (poly o), σ').
Proof.
  intros Hσ Ho Horigin H.
  assert (∃ σ1 i' en, structured σ1 ∧ heap σ1 = heap σ ∧ ssid2obj σ1 = ssid2obj σ ∧
            σ' = bind_ssid s (length (heap σ1)) (push (origin PhiScalar i' s en lo v hi) σ1))
    as (σ1 & i' & en & Hσ1 & Hheap & Hreg & ->).
  { unfold new_PhiScalar, OriginScalar_init in H.
    destruct e, i; invM; eexists _, _, _; (split; [|split; [|split; [|reflexivity]]]);
      auto using structured_bump. }
  destruct (accessors_return (λ _ _, 0) σ x o Hσ Ho) as (? & v0 & ? & _ & Hv0 & _ & H0).
  rewrite Horigin in H0. destruct H0 as (_ & -> & _). split; [done|].
  set (σ' := bind_ssid s (length (heap σ1)) (push (origin PhiScalar i' s en lo v hi) σ1)).
  assert (structured σ') as Hσ'.
  { apply structured_new_leaf; [done|done|apply origin_has_bounds]. }
  assert (heap σ' !! x = Some o) as Ho'.
  { simpl. apply lookup_app_l_Some. by rewrite Hheap. }
  destruct (accessors_return (λ _ _, 0) σ' x o Hσ' Ho') as (? & v1 & ? & _ & Hv1 & _ & H1).
  rewrite Horigin in H1. destruct H1 as (_ & -> & _). rewrite Hv1. f_equal. f_equal.
  apply eval_ext. intros k Hk. unfold leaf_value, leaf. simpl.
  destruct (decide (k = s)) as [->|Hne].
  - rewrite lookup_insert_eq. simpl. by rewrite lookup_app_r, Nat.sub_diag.
  - rewrite lookup_insert_ne by done. rewrite Hreg.
    destruct (ssid2obj σ !! k) as [y|] eqn:Hy; [|done]. simpl.
    destruct (registered_leaf _ Hσ k y Hy) as (oy & Hoy & _).
    rewrite Hheap. by rewrite (lookup_app_l_Some _ _ _ _ Hoy), Hoy.
Qed.

Lemma ssid_reuse_rebinds_witness :
  value 2%nat (final interval_search (take 3 chain))
  = Ok (eval (leaf_value (final interval_search (take 3 chain)))
             (Mul (Sym (SsidOfId 0)) (Num 2)),
        final interval_search (take 3 chain)) ∧
  value 2%nat (after (new_PhiScalar 0 1 10 (Some 0%nat) None (Some (SsidOfId 0)))
                     (final interval_search (take 3 chain)))
  = Ok (eval (λ k, if decide (k = SsidOfId 0) then 1
                   else leaf_value (final interval_search (take 3 chain)) k)
             (Mul (Sym (SsidOfId 0)) (Num 2)),
        after (new_PhiScalar 0 1 10 (Some 0%nat) None (Some (SsidOfId 0)))
              (final interval_search (take 3 chain))).
Proof.
  apply (ssid_reuse_rebinds (final interval_search (take 3 chain)) 2%nat
           (intermediate IntermediatePhiScalar 4 (Mul (Sym (SsidOfId 0)) (Num 2)) (Some 0%nat))
           0 1 10 (Some 0%nat) None (SsidOfId 0) 3%nat).
  - apply (exec_wf interval_search (take 3 chain) init tt); [apply wf_init| |reflexivity].
    repeat constructor; simpl; auto.
  - reflexivity.
  - reflexivity.
  - reflexivity.
Defined.

End OperatorProperties.

(** ** Laws of the gamma tensor *)

Module TensorLaws.
Import Numpy GammaTensor TensorProperties.

(** Two arrays with one leading shape, joined along the trailing axis. *)
Lemma concatenate_pair (a b : ndarray) :
  shape a ≠ [] → shape b ≠ [] → removelast (shape b) = removelast (shape a) →
  ∃ r, concatenate_last [a; b] = Ok r ∧
       shape r = removelast (shape a) ++ [(trailing a + trailing b)%nat] ∧
       (∀ lead k, (k < trailing a)%nat → item r (lead ++ [k]) = item a (lead ++ [k])) ∧
       (∀ lead k, (k < trailing b)%nat →
          item r (lead ++ [(trailing a + k)%nat]) = item b (lead ++ [k])).
Proof.
  intros Ha Hb Hlead. unfold concatenate_last. simpl.
  rewrite !bool_decide_eq_true_2 by done. simpl.
  eexists. split; [reflexivity|]. simpl. split_and!.
  - by rewrite Nat.add_0_r.
  - intros lead k Hk. rewrite removelast_last, last_snoc. simpl.
    by destruct (decide (k < trailing a)%nat).
  - intros lead k Hk. rewrite removelast_last, last_snoc. simpl.
    destruct (decide (trailing a + k < trailing a)%nat); [lia|].
    replace (trailing a + k - trailing a)%nat with k by lia.
    by destruct (decide (k < trailing b)%nat).
Qed.

(** X15.  Two gamma tensors of one symbol factory whose term tensors, and
    whose coefficient tensors, agree on all axes but the trailing one, and
    whose biases broadcast, are added by joining the terms: the sum has
    [m + n] terms per cell, those of [self] first and those of [other]
    after them, each with its coefficient, and the biases added. *)
Theorem tensor_add_law (self other : IntermediateGammaTensor) :
  symbol_factory self = symbol_factory other →
  shape (term_tensor self) ≠ [] → shape (term_tensor other) ≠ [] →
  removelast (shape (term_tensor other)) = removelast (shape (term_tensor self)) →
  shape (coeff_tensor self) ≠ [] → shape (coeff_tensor other) ≠ [] →
  removelast (shape (coeff_tensor other)) = removelast (shape (coeff_tensor self)) →
  is_Some (broadcast_shapes (shape (bias_tensor self)) (shape (bias_tensor other))) →
  ∃ r, __add__ self (Gamma other) = Ok r ∧
    symbol_factory r = symbol_factory self ∧
    full_shape r = tensor_shape self
                   ++ [(trailing (term_tensor self) + trailing (term_tensor other))%nat] ∧
    shape (coeff_tensor r)
    = removelast (shape (coeff_tensor self))
      ++ [(trailing (coeff_tensor self) + trailing (coeff_tensor other))%nat] ∧
    (∀ lead k, (k < trailing (term_tensor self))%nat →
       item (term_tensor r) (lead ++ [k]) = item (term_tensor self) (lead ++ [k])) ∧
    (∀ lead k, (k < trailing (term_tensor other))%nat →
       item (term_tensor r) (lead ++ [(trailing (term_tensor self) + k)%nat])
       = item (term_tensor other) (lead ++ [k])) ∧
    (∀ lead k, (k < trailing (coeff_tensor self))%nat →
       item (coeff_tensor r) (lead ++ [k]) = item (coeff_tensor self) (lead ++ [k])) ∧
    (∀ lead k, (k < trailing (coeff_tensor other))%nat →
       item (coeff_tensor r) (lead ++ [(trailing (coeff_tensor self) + k)%nat])
       = item (coeff_tensor other) (lead ++ [k])) ∧
    add (bias_tensor self) (bias_tensor other) = Ok (bias_tensor r).
Proof.
  intros Hf Ht Ht' Htl Hc Hc' Hcl [s Hs].
  destruct (concatenate_pair _ _ Ht Ht' Htl) as (term & Hterm & Hts & Ht1 & Ht2).
  destruct (concatenate_pair _ _ Hc Hc' Hcl) as (coeff & Hcoeff & Hcs & Hc1 & Hc2).
  unfold __add__. destruct (decide (symbol_factory self ≠ symbol_factory other)); [done|].
  rewrite Hterm, Hcoeff. unfold add, elementwise. rewrite Hs. simpl.
  eexists. split; [reflexivity|]. simpl. by split_and!.
Qed.

Lemma tensor_add_law_witness :
  ∃ r, __add__ one_term (Gamma two_terms) = Ok r ∧
    symbol_factory r = symbol_factory one_term ∧
    full_shape r = tensor_shape one_term
                   ++ [(trailing (term_tensor one_term) + trailing (term_tensor two_terms))%nat] ∧
    shape (coeff_tensor r)
    = removelast (shape (coeff_tensor one_term))
      ++ [(trailing (coeff_tensor one_term) + trailing (coeff_tensor two_terms))%nat] ∧
    (∀ lead k, (k < trailing (term_tensor one_term))%nat →
       item (term_tensor r) (lead ++ [k]) = item (term_tensor one_term) (lead ++ [k])) ∧
    (∀ lead k, (k < trailing (term_tensor two_terms))%nat →
       item (term_tensor r) (lead ++ [(trailing (term_tensor one_term) + k)%nat])
       = item (term_tensor two_terms) (lead ++ [k])) ∧
    (∀ lead k, (k < trailing (coeff_tensor one_term))%nat →
       item (coeff_tensor r) (lead ++ [k]) = item (coeff_tensor one_term) (lead ++ [k])) ∧
    (∀ lead k, (k < trailing (coeff_tensor two_terms))%nat →
       item (coeff_tensor r) (lead ++ [(trailing (coeff_tensor one_term) + k)%nat])
       = item (coeff_tensor two_terms) (lead ++ [k])) ∧
    add (bias_tensor one_term) (bias_tensor two_terms) = Ok (bias_tensor r).
Proof.
  apply (tensor_add_law one_term two_terms); simpl; done.
Defined.

Lemma concatenate_pair_mismatch (a b : ndarray) :
  removelast (shape b) ≠ removelast (shape a) → concatenate_last [a; b] = Raise ValueError.
Proof.
  intros Hne. unfold concatenate_last.
  destruct (forallb _ _) eqn:H; [|done].
  simpl in H. apply andb_prop in H as [_ H]. apply andb_prop in H as [H _].
  apply bool_decide_eq_true_1 in H as [_ H]. done.
Qed.

(** X16.  Two gamma tensors of one symbol factory whose term tensors
    differ on an axis other than the trailing one are not added:
    concatenation raises [ValueError]. *)
Theorem tensor_add_shape_mismatch (self other : IntermediateGammaTensor) :
  symbol_factory self = symbol_factory other →
  removelast (shape (term_tensor other)) ≠ removelast (shape (term_tensor self)) →
  __add__ self (Gamma other) = Raise ValueError.
Proof.
  intros Hf Hne. unfold __add__.
  destruct (decide (symbol_factory self ≠ symbol_factory other)); [done|].
  by rewrite (concatenate_pair_mismatch _ _ Hne).
Qed.

Lemma tensor_add_shape_mismatch_witness : __add__ one_term (Gamma column) = Raise ValueError.
Proof. apply tensor_add_shape_mismatch; [reflexivity|]. simpl. discriminate. Defined.

(** Broadcasting against a Python number. *)
Lemma broadcast_number (s : list nat) : broadcast_shapes s [] = Some s.
Proof.
  unfold broadcast_shapes. change (reverse []) with (@nil nat).
  assert (broadcast_rev (reverse s) [] = Some (reverse s)) as ->.
  { by destruct (reverse s). }
  simpl. by rewrite reverse_involutive.
Qed.

Lemma broadcast_index_valid (s idx : list nat) :
  Forall2 (λ i d, (i < d)%nat) idx s → broadcast_index s idx = idx.
Proof.
  intros H. unfold broadcast_index.
  rewrite (Forall2_length _ _ _ H), Nat.sub_diag, drop_0.
  induction H as [|i d idx s Hid _ IH]; [done|]. simpl. rewrite IH.
  destruct (decide (d = 1%nat)); [|done]. f_equal. lia.
Qed.

Lemma elementwise_number (f : Z → Z → Z) (a : ndarray) (n : Z) :
  ∃ r, elementwise f a (scalar n) = Ok r ∧ shape r = shape a ∧
       ∀ idx, Forall2 (λ i d, (i < d)%nat) idx (shape a) → item r idx = f (item a idx) n.
Proof.
  unfold elementwise. simpl. rewrite broadcast_number.
  eexists. split; [reflexivity|]. split; [done|].
  intros idx Hidx. simpl. by rewrite (broadcast_index_valid _ _ Hidx).
Qed.

(** X17.  An integer on the right that fits the 64 bits of an item never
    makes [+] or [*] raise, and never touches the terms: [t + n] keeps the
    term tensor and the coefficients and the shape of the bias, [t * n]
    keeps the term tensor and the shapes of the coefficients and of the
    bias. *)
Theorem tensor_number_operand (self : IntermediateGammaTensor) (n : Z) :
  - 2 ^ 63 ≤ n < 2 ^ 63 →
  ∃ r1 r2,
    __add__ self (Simple (scalar n)) = Ok r1 ∧
    __mul__ self (Simple (scalar n)) = Ok r2 ∧
    term_tensor r1 = term_tensor self ∧ coeff_tensor r1 = coeff_tensor self ∧
    symbol_factory r1 = symbol_factory self ∧
    shape (bias_tensor r1) = shape (bias_tensor self) ∧
    term_tensor r2 = term_tensor self ∧ symbol_factory r2 = symbol_factory self ∧
    shape (coeff_tensor r2) = shape (coeff_tensor self) ∧
    shape (bias_tensor r2) = shape (bias_tensor self).
Proof.
  intros _.
  destruct (elementwise_number Z.add (bias_tensor self) n) as (b1 & Hb1 & Hs1 & Hi1).
  destruct (elementwise_number Z.mul (coeff_tensor self) n) as (c2 & Hc2 & Hcs2 & Hci2).
  destruct (elementwise_number Z.mul (bias_tensor self) n) as (b2 & Hb2 & Hs2 & Hi2).
  unfold __add__, __mul__, add, multiply. rewrite Hb1, Hc2, Hb2. simpl.
  eexists _, _. split; [reflexivity|]. split; [reflexivity|]. simpl. by split_and!.
Qed.

Lemma tensor_number_operand_witness :
  ∃ r1 r2,
    __add__ one_term (Simple (scalar 3)) = Ok r1 ∧
    __mul__ one_term (Simple (scalar 3)) = Ok r2 ∧
    term_tensor r1 = term_tensor one_term ∧ coeff_tensor r1 = coeff_tensor one_term ∧
    symbol_factory r1 = symbol_factory one_term ∧
    shape (bias_tensor r1) = shape (bias_tensor one_term) ∧
    term_tensor r2 = term_tensor one_term ∧ symbol_factory r2 = symbol_factory one_term ∧
    shape (coeff_tensor r2) = shape (coeff_tensor one_term) ∧
    shape (bias_tensor r2) = shape (bias_tensor one_term).
Proof. apply (tensor_number_operand one_term 3). lia. Defined.

Lemma swap_length {A} (l : list A) (i j : nat) : length (swap l i j) = length l.
Proof.
  unfold swap. destruct (l !! i), (l !! j); try done. by rewrite !length_insert.
Qed.

Lemma swap_lookup_l {A} (l : list A) (i j : nat) :
  (i < length l)%nat → (j < length l)%nat → swap l i j !! i = l !! j.
Proof.
  intros Hi Hj. unfold swap.
  destruct (lookup_lt_is_Some_2 l i Hi) as [x Hx].
  destruct (lookup_lt_is_Some_2 l j Hj) as [y Hy]. rewrite Hx, Hy.
  rewrite list_lookup_insert_eq; [done|]. by rewrite length_insert.
Qed.

Lemma normalize_axis_lt nd axis i : normalize_axis nd axis = Ok i → (i < nd)%nat.
Proof.
  unfold normalize_axis. repeat case_decide; intros [= <-]; lia.
Qed.

Lemma normalize_axis_last nd : (0 < nd)%nat → normalize_axis nd (-1) = Ok (nd - 1)%nat.
Proof.
  intros Hnd. unfold normalize_axis.
  destruct (decide (0 ≤ -1 < Z.of_nat nd)) as [?|_]; [lia|].
  destruct (decide (- Z.of_nat nd ≤ -1 < 0)) as [_|?]; [|lia]. f_equal. lia.
Qed.

(** Moving an axis to the end and squeezing its old place works only when
    the trailing axis has length one. *)
Lemma swap_squeeze_raises (a : ndarray) (dim : Z) :
  last (shape a) ≠ Some 1%nat → raises (swapaxes a dim (-1) ≫= λ s, squeeze s dim).
Proof.
  intros Hlast. unfold swapaxes.
  destruct (normalize_axis (ndim a) dim) as [i|] eqn:Hi; [|done]. simpl.
  pose proof (normalize_axis_lt _ _ _ Hi) as Hlt.
  rewrite normalize_axis_last by lia. simpl.
  unfold squeeze, ndim. simpl. rewrite swap_length. fold (ndim a). rewrite Hi. simpl.
  rewrite swap_lookup_l by (unfold ndim in *; lia).
  rewrite last_lookup in Hlast. unfold ndim in *.
  replace (Nat.pred (length (shape a))) with (length (shape a) - 1)%nat in Hlast by lia.
  destruct (shape a !! (length (shape a) - 1)%nat) as [[|[|n]]|]; try done.
Qed.

(** X18.  [sum(dim)] returns only for a tensor with one term per cell:
    when the trailing axis of the term tensor is longer (or shorter) than
    one, it raises, whatever [dim].  And when it returns, the bias of the
    result is the axis number itself, not a sum of the bias. *)
Theorem sum_needs_single_term (self : IntermediateGammaTensor) (dim : Z) :
  (last (shape (term_tensor self)) ≠ Some 1%nat → raises (GammaTensor.sum self dim)) ∧
  (∀ r, GammaTensor.sum self dim = Ok r →
        last (shape (term_tensor self)) = Some 1%nat ∧
        bias_tensor r = sum_of_int dim ∧ symbol_factory r = symbol_factory self).
Proof.
  assert (last (shape (term_tensor self)) ≠ Some 1%nat → raises (GammaTensor.sum self dim))
    as Hraise.
  { intros Hlast. pose proof (swap_squeeze_raises (term_tensor self) dim Hlast) as H.
    unfold GammaTensor.sum.
    destruct (swapaxes (term_tensor self) dim (-1)) as [s|]; [|done]. simpl in *.
    destruct (squeeze s dim); done. }
  split; [done|]. intros r Hr. split.
  - destruct (decide (last (shape (term_tensor self)) = Some 1%nat)) as [|Hne]; [done|].
    specialize (Hraise Hne). by rewrite Hr in Hraise.
  - unfold GammaTensor.sum in Hr.
    apply bind_Ok in Hr as (s1 & _ & Hr). apply bind_Ok in Hr as (t & _ & Hr).
    apply bind_Ok in Hr as (s2 & _ & Hr). apply bind_Ok in Hr as (c & _ & Hr).
    vm_compute in Hr. by injection Hr as <-.
Qed.

End TensorLaws.

(** ** What the explicit search hands to the optimizer *)

Module ExplicitSearchLaws.
Import Sympy Scalars ExplicitSearch ScalarProperties AlgebraProperties.
Import ExplicitSearchProperties.

Local Open Scope Q_scope.

Section Effects.

Variable search : state → expr → Q.

(** Only origin scalars are registered. *)
Lemma registered_origin_new_leaf σ c i s e lo v hi :
  registered_origin σ → structured σ →
  isinstance_OriginScalar (origin c i s e lo v hi) = true →
  registered_origin (bind_ssid s (length (heap σ)) (push (origin c i s e lo v hi) σ)).
Proof.
  intros Hro Hσ Hc s' r o Hs' Ho. simpl in Hs', Ho.
  apply lookup_insert_Some in Hs' as [[<- <-]|[_ Hs']].
  - rewrite lookup_app_r, Nat.sub_diag in Ho by done. by injection Ho as <-.
  - destruct (registered_leaf _ Hσ s' r Hs') as (o' & Ho' & _).
    rewrite (lookup_app_l_Some _ _ _ _ Ho') in Ho. injection Ho as <-. by eapply Hro.
Qed.

Lemma registered_origin_bump σ : registered_origin σ → registered_origin (bump σ).
Proof. done. Qed.

Lemma run_registered_origin σ c r σ' :
  settled σ → registered_origin σ → run search c σ = Ok (r, σ') → registered_origin σ'.
Proof.
  intros ((Hσ & _) & _) Hro H. destruct c as [lo v hi e i s|lo v hi e i s|op self other];
    simpl in H.
  - unfold new_PhiScalar, OriginScalar_init in H.
    destruct e, i, s; invM; apply registered_origin_new_leaf;
      auto using registered_origin_bump, structured_bump.
  - unfold new_GammaScalar, OriginScalar_init in H.
    destruct e, i, s; invM; apply registered_origin_new_leaf;
      auto using registered_origin_bump, structured_bump.
  - assert (grows σ σ') as [_ Hheap Hreg].
    { unfold binop in H. invM. destruct (isinstance_IntermediatePhiScalar a).
      - by eapply phi_op_grows.
      - by eapply gamma_op_grows. }
    intros s x o Hs Ho. destruct (Hreg s x Hs) as [Hs0|(_ & o' & Ho' & Hcls)].
    + destruct (registered_leaf _ Hσ s x Hs0) as (o0 & Ho0 & _).
      destruct (Hheap x o0 Ho0) as (o' & Ho' & Hcls).
      assert (o' = o) as -> by congruence.
      unfold isinstance_OriginScalar. rewrite Hcls. by apply (Hro s x o0).
    + assert (o' = o) as -> by congruence. unfold isinstance_OriginScalar. by rewrite Hcls.
Qed.

Lemma exec_registered_origin prog σ u σ' :
  settled σ → registered_origin σ → Forall default_named prog →
  exec search prog σ = Ok (u, σ') → registered_origin σ'.
Proof.
  revert σ. induction prog as [|c prog IH]; intros σ Hset Hro Hprog H; simpl in H; invM.
  - done.
  - apply Forall_cons in Hprog as [Hc Hprog].
    eapply IH; [|by eapply run_registered_origin|exact Hprog|exact H].
    by eapply run_settled.
Qed.

(** One additive counterpart: a new [GammaScalar] of the entity of the
    input, with its stored bounds and value, registered under a new
    symbol. *)
Lemma additive_counterpart_step x σ p σ' s0 :
  settled σ → registered_origin σ → ssid2obj σ !! s0 = Some x →
  additive_counterpart search x σ = Ok (p, σ') →
  settled σ' ∧ extends σ σ' ∧ registered_origin σ' ∧
  ∃ ox e lo v hi,
    heap σ !! x = Some ox ∧ entity ox = Some e ∧
    _min_val ox = Some lo ∧ _value ox = Some v ∧ _max_val ox = Some hi ∧
    p = Sym (SsidOfIdEntity (next_uid σ) e) ∧
    ssid2obj σ !! SsidOfIdEntity (next_uid σ) e = None ∧
    σ' = bind_ssid (SsidOfIdEntity (next_uid σ) e) (length (heap σ))
           (push (promotion lo v hi e σ) (bump (bump σ))).
Proof.
  intros Hset Hro Hs0 H. pose proof Hset as ((Hσ & _ & Hf) & _ & _ & _ & _ & Hown & _).
  destruct (registered_leaf _ Hσ s0 x Hs0) as (ox & Hox & _).
  pose proof (Hro s0 x ox Hs0 Hox) as Horigin.
  destruct (Hown s0 x ox Hs0 Hox) as [e He].
  unfold additive_counterpart in H.
  apply bindM_Ok in H as (lo & σ1 & Hlo & H). pose proof (min_val_pure _ _ _ _ _ Hlo) as ->.
  unfold min_val in Hlo. rewrite (bindM_run _ _ _ _ _ (load_run _ _ _ Hox)), Horigin in Hlo.
  apply attr_Ok in Hlo as [_ Hlo].
  apply bindM_Ok in H as (v & σ1 & Hv & H). pose proof (value_pure _ _ _ _ Hv) as ->.
  unfold value in Hv. rewrite (bindM_run _ _ _ _ _ (load_run _ _ _ Hox)), Horigin in Hv.
  apply attr_Ok in Hv as [_ Hv].
  apply bindM_Ok in H as (hi & σ1 & Hhi & H). pose proof (max_val_pure _ _ _ _ _ Hhi) as ->.
  unfold max_val in Hhi. rewrite (bindM_run _ _ _ _ _ (load_run _ _ _ Hox)), Horigin in Hhi.
  apply attr_Ok in Hhi as [_ Hhi].
  apply bindM_Ok in H as (o & σ1 & Ho & H). apply load_Ok in Ho as [-> Ho].
  assert (o = ox) as -> by congruence. rewrite He in H.
  apply bindM_Ok in H as (g & σ1 & Hg & H).
  destruct (new_GammaScalar_settled σ lo v hi (Some e) g σ1 Hset Hg) as [Hset1 Hext].
  rewrite new_GammaScalar_run in Hg. injection Hg as <- <-.
  apply bindM_Ok in H as (og & σ2 & Hog & H). apply load_Ok in Hog as [-> Hog].
  apply mret_Ok in H as [-> ->].
  simpl in Hog. rewrite lookup_app_r, Nat.sub_diag in Hog by done. injection Hog as <-.
  split; [done|]. split; [done|]. split.
  { apply (registered_origin_new_leaf (bump (bump σ))); [done| |done].
    by do 2 apply structured_bump. }
  exists ox, e, lo, v, hi. split_and!; try done. by apply unregistered_id_entity.
Qed.

Lemma additive_counterparts rs σ ps σ' :
  settled σ → registered_origin σ →
  Forall (λ x, ∃ s, ssid2obj σ !! s = Some x) rs →
  for_each (additive_counterpart search) rs σ = Ok (ps, σ') →
  settled σ' ∧ extends σ σ' ∧ registered_origin σ' ∧
  length (heap σ') = (length (heap σ) + length rs)%nat ∧
  size (ssid2obj σ') = (size (ssid2obj σ) + length rs)%nat ∧
  length ps = length rs ∧
  ∀ k x, rs !! k = Some x →
    ∃ ox og s,
      heap σ !! x = Some ox ∧ heap σ' !! (length (heap σ) + k)%nat = Some og ∧
      ps !! k = Some (Sym s) ∧
      cls og = GammaScalar ∧ poly og = Sym s ∧ entity og = entity ox ∧
      _min_val og = _min_val ox ∧ _value og = _value ox ∧ _max_val og = _max_val ox ∧
      ssid2obj σ !! s = None ∧ ssid2obj σ' !! s = Some (length (heap σ) + k)%nat.
Proof.
  revert σ ps. induction rs as [|r rs IH]; intros σ ps Hset Hro Hrs H; simpl in H.
  - apply mret_Ok in H as [-> ->].
    split_and!; [done|apply extends_refl|done|simpl; lia..|done|]. by intros k x Hk.
  - apply bindM_Ok in H as (p & σ1 & Hp & H).
    apply bindM_Ok in H as (ps' & σ2 & Hps & H). apply mret_Ok in H as [-> ->].
    apply Forall_cons in Hrs as [[s0 Hs0] Hrs].
    destruct (additive_counterpart_step r σ p σ1 s0 Hset Hro Hs0 Hp)
      as (Hset1 & Hext1 & Hro1 & ox & e & lo & v & hi & Hox & He & Hlo & Hv & Hhi
          & -> & Hnone & Hσ1).
    assert (length (heap σ1) = S (length (heap σ))) as Hlen1.
    { rewrite Hσ1. simpl. rewrite length_app. simpl. lia. }
    assert (size (ssid2obj σ1) = S (size (ssid2obj σ))) as Hsize1.
    { rewrite Hσ1. simpl. by rewrite map_size_insert_None. }
    assert (heap σ1 !! length (heap σ) = Some (promotion lo v hi e σ)) as Hnew.
    { rewrite Hσ1. simpl. by rewrite lookup_app_r, Nat.sub_diag. }
    assert (ssid2obj σ1 !! SsidOfIdEntity (next_uid σ) e = Some (length (heap σ))) as Hreg.
    { rewrite Hσ1. simpl. by rewrite lookup_insert_eq. }
    destruct (IH σ1 ps' Hset1 Hro1) as (Hset2 & Hext2 & Hro2 & Hh2 & Hs2 & Hl2 & Hk2);
      [|done|].
    { eapply Forall_impl; [exact Hrs|]. intros x [s Hs]. exists s.
      by apply (extends_registry _ _ Hext1). }
    split_and!; [done|by eapply extends_trans|done|simpl; lia..|simpl; lia|].
    intros [|k] x Hk; simpl in Hk.
    + injection Hk as <-.
      destruct (extends_heap _ _ Hext2 _ _ Hnew)
        as (og & Hog & Hcls & _ & Hpoly & Hent & Hmin & Hval & Hmax & _).
      exists ox, og, (SsidOfIdEntity (next_uid σ) e).
      rewrite Nat.add_0_r. simpl in Hcls, Hpoly, Hent, Hmin, Hval, Hmax.
      split_and!; try done; try congruence.
      by apply (extends_registry _ _ Hext2).
    + destruct (Hk2 k x Hk)
        as (ox1 & og & s & Hox1 & Hog & Hpk & Hcls & Hpoly & Hent & Hmin & Hval & Hmax
            & Hs1 & Hs').
      destruct (lookup_lt_is_Some_2 (heap σ) x) as [ox0 Hox0].
      { destruct (Forall_lookup_1 _ _ _ _ Hrs Hk) as [sx Hsx].
        pose proof Hset as ((Hσ & _) & _).
        destruct (registered_leaf _ Hσ sx x Hsx) as (o & Ho & _).
        by apply lookup_lt_Some in Ho. }
      destruct (extends_heap _ _ Hext1 x ox0 Hox0)
        as (ox1' & Hox1' & _ & _ & _ & Hent0 & Hmin0 & Hval0 & Hmax0 & _).
      assert (ox1' = ox1) as -> by congruence.
      exists ox0, og, s. rewrite Hlen1 in Hog, Hs'.
      replace (length (heap σ) + S k)%nat with (S (length (heap σ)) + k)%nat by lia.
      split_and!; try done; try congruence.
      destruct (ssid2obj σ !! s) as [y|] eqn:Hy; [|done].
      apply (extends_registry _ _ Hext1) in Hy. congruence.
Qed.

Lemma for_each_lookup_Ok l σ rs σ' :
  for_each lookup_ssid l σ = Ok (rs, σ') →
  Forall (λ x, ∃ s, ssid2obj σ !! s = Some x) rs.
Proof.
  revert σ rs σ'. induction l as [|s l IH]; intros σ rs σ' H; simpl in H.
  - apply mret_Ok in H as [-> _]. constructor.
  - apply bindM_Ok in H as (x & σ1 & Hx & H). apply lookup_ssid_Ok in Hx as [-> Hx].
    apply bindM_Ok in H as (xs & σ2 & Hxs & H). apply mret_Ok in H as [-> _].
    constructor; [by exists s|by eapply IH].
Qed.

End Effects.

(** X19.  In a state built by a program that leaves every name to the
    constructors, a call of the explicit search that gets as far as the
    optimizer has created one new [GammaScalar] for every input scalar of
    the polynomial, in their order, each with the entity, the bounds and the
    value of its input scalar and registered under a symbol that was not in
    use; it has kept every earlier entry of the registry; and it hands over
    one pair of bounds for every symbol of the lookup table and five
    constraints, the last of them the constraint on the symbols of the new
    scalars with slack [1 / 2 ^ 16]. *)
Theorem explicit_search_effects (search : state → expr → Q) (prog : list command)
    (σ : state) (i2s : list Ssid) (s2i : gmap Ssid nat) (self : ref)
    (rranges : list (Q * Q)) (constraints : list constraint_fun) (σ' : state) :
  Forall default_named prog → exec search prog init = Ok (tt, σ) →
  max_lipschitz_via_explicit_search search i2s s2i self σ = Ok ((rranges, constraints), σ') →
  ∃ rs r2_diffs,
    input_scalars self σ = Ok (rs, σ) ∧ length r2_diffs = length rs ∧
    length (heap σ') = (length (heap σ) + length rs)%nat ∧
    size (ssid2obj σ') = (size (ssid2obj σ) + length rs)%nat ∧
    ssid2obj σ ⊆ ssid2obj σ' ∧
    (∀ k x, rs !! k = Some x →
       ∃ ox og s,
         heap σ !! x = Some ox ∧ heap σ' !! (length (heap σ) + k)%nat = Some og ∧
         r2_diffs !! k = Some (Sym s) ∧
         cls og = GammaScalar ∧ poly og = Sym s ∧ entity og = entity ox ∧
         _min_val og = _min_val ox ∧ _value og = _value ox ∧ _max_val og = _max_val ox ∧
         ssid2obj σ !! s = None ∧ ssid2obj σ' !! s = Some (length (heap σ) + k)%nat) ∧
    length rranges = length i2s ∧
    length constraints = 5%nat ∧
    last constraints = Some (RootLess (additive_terms s2i r2_diffs) (1 / 2 ^ 16)).
Proof.
  intros Hprog Hexec H.
  assert (settled σ) as Hset.
  { eapply exec_settled; [apply settled_init|exact Hprog|exact Hexec]. }
  assert (registered_origin σ) as Hro.
  { eapply exec_registered_origin; [apply settled_init| |exact Hprog|exact Hexec].
    intros s r o Hs. simpl in Hs. by rewrite lookup_empty in Hs. }
  destruct (explicit_search_Ok _ _ _ _ _ _ _ _ H)
    as (rs & r2_diffs & steps & Hrs & Hdiffs & Hrr & ->).
  assert (Forall (λ x, ∃ s, ssid2obj σ !! s = Some x) rs) as Hreg.
  { unfold input_scalars in Hrs. apply bindM_Ok in Hrs as (ssids & σ1 & Hssids & Hrs).
    unfold input_polys in Hssids. invM. by eapply for_each_lookup_Ok. }
  destruct (additive_counterparts search rs σ r2_diffs σ' Hset Hro Hreg Hdiffs)
    as (_ & Hext & _ & Hheap & Hsize & Hlen & Hnew).
  exists rs, r2_diffs. split_and!; try done.
  apply map_subseteq_spec. intros s x. apply (extends_registry _ _ Hext).
Qed.

Lemma explicit_search_effects_witness :
  ∃ rs r2_diffs,
    input_scalars 4%nat three_state = Ok (rs, three_state) ∧
    length r2_diffs = length rs ∧
    length (heap three_arguments.2) = (length (heap three_state) + length rs)%nat ∧
    size (ssid2obj three_arguments.2) = (size (ssid2obj three_state) + length rs)%nat ∧
    ssid2obj three_state ⊆ ssid2obj three_arguments.2 ∧
    (∀ k x, rs !! k = Some x →
       ∃ ox og s,
         heap three_state !! x = Some ox ∧
         heap three_arguments.2 !! (length (heap three_state) + k)%nat = Some og ∧
         r2_diffs !! k = Some (Sym s) ∧
         cls og = GammaScalar ∧ poly og = Sym s ∧ entity og = entity ox ∧
         _min_val og = _min_val ox ∧ _value og = _value ox ∧ _max_val og = _max_val ox ∧
         ssid2obj three_state !! s = None ∧
         ssid2obj three_arguments.2 !! s = Some (length (heap three_state) + k)%nat) ∧
    length three_arguments.1.1 = length three_i2s ∧
    length three_arguments.1.2 = 5%nat ∧
    last three_arguments.1.2
    = Some (RootLess (additive_terms (symbol2index three_i2s) r2_diffs) (1 / 2 ^ 16)).
Proof.
  apply (explicit_search_effects interval_search three_leaves three_state three_i2s
           (symbol2index three_i2s) 4%nat).
  - repeat constructor.
  - reflexivity.
  - reflexivity.
Defined.

(** X20.  What the two lambdas of one input accept: with the indices of
    the pair and the bounds in place, a symbol vector passes both exactly
    when the sum [xa + xb] of the pair lies between [- min_val] and
    [max_val]; the lower lambda adds the lower bound where the box of the
    leaf would have it subtracted. *)
Theorem box_lambdas_accept (r2_indices_list : list (list nat)) (min_max_list : list (Q * Q))
    (i a b : nat) (lo hi : Q) (x : list Q) (xa xb : Q) :
  r2_indices_list !! i = Some [a; b] → min_max_list !! i = Some (lo, hi) →
  x !! a = Some xa → x !! b = Some xb →
  (holds (Lambda (f1 r2_indices_list min_max_list i)) x = Ok true ∧
   holds (Lambda (f2 r2_indices_list min_max_list i)) x = Ok true)
  ↔ - lo <= xa + xb <= hi.
Proof.
  intros Hi Hm Ha Hb. unfold holds, f1, f2, index. rewrite Hi, Hm. simpl.
  rewrite Ha, Hb. simpl. unfold mret, result_ret.
  split.
  - intros [H1 H2]. injection H1 as H1. injection H2 as H2.
    apply Qle_bool_iff in H1, H2. lra.
  - intros [H1 H2]. split; f_equal; apply Qle_bool_iff; lra.
Qed.

Lemma box_lambdas_accept_witness :
  (holds (Lambda (f1 [[0; 1]%nat] [(1, 2)] 0)) [0; 0] = Ok true ∧
   holds (Lambda (f2 [[0; 1]%nat] [(1, 2)] 0)) [0; 0] = Ok true)
  ↔ - 1 <= 0 + 0 <= 2.
Proof.
  apply (box_lambdas_accept [[0; 1]%nat] [(1, 2)] 0 0 1 1 2 [0; 0] 0 0); reflexivity.
Defined.

End ExplicitSearchLaws.

(** ** The wire form of a text document *)

Module TextDocProperties.
Import TextDocWire.

Lemma attributes2proto_fmap (attributes : gmap string (list string)) :
  attributes2proto attributes = (λ vs, {| values := vs |}) <$> attributes.
Proof.
  unfold attributes2proto.
  apply (map_fold_weak_ind (λ r m, r = (λ vs, {| values := vs |}) <$> m)).
  - by rewrite fmap_empty.
  - intros k vs m r Hk ->. unfold extend.
    rewrite lookup_fmap, Hk. simpl. by rewrite fmap_insert.
Qed.

Lemma proto2attributes_fmap (pb : gmap string AttributeValues_PB) :
  proto2attributes pb = values <$> pb.
Proof.
  unfold proto2attributes.
  apply (map_fold_weak_ind (λ r m, r = values <$> m)).
  - by rewrite fmap_empty.
  - intros k av m r Hk ->. by rewrite fmap_insert.
Qed.

Lemma attributes_round_trip (attributes : gmap string (list string)) :
  proto2attributes (attributes2proto attributes) = attributes.
Proof.
  rewrite attributes2proto_fmap, proto2attributes_fmap, <- map_fmap_compose.
  rewrite <- (map_fmap_id attributes) at 2. by apply map_fmap_ext.
Qed.

Lemma proto_attributes_round_trip (pb : gmap string AttributeValues_PB) :
  attributes2proto (proto2attributes pb) = pb.
Proof.
  rewrite attributes2proto_fmap, proto2attributes_fmap, <- map_fmap_compose.
  rewrite <- (map_fmap_id pb) at 2. apply map_fmap_ext. by intros k [vs] _.
Qed.

Lemma token_meta_round_trip (token_meta : TokenMeta) :
  proto2token_meta (token_meta2proto token_meta) = token_meta.
Proof.
  unfold proto2token_meta, token_meta2proto. simpl.
  rewrite attributes_round_trip. by destruct token_meta.
Qed.

Lemma token_meta_pb_round_trip (pb : TokenMeta_PB) :
  token_meta2proto (proto2token_meta pb) = pb.
Proof.
  unfold proto2token_meta, token_meta2proto. simpl.
  rewrite proto_attributes_round_trip. by destruct pb.
Qed.

(** X21.  Decoding the encoding of a text document gives the document
    back: the same tokens, each with its text, its [space_after] and its
    attributes, the same attributes of the document and the same id.  A
    document that had no id comes back with the id that the encoder drew
    for it.  (The id is one made of sixteen bytes, as every [uuid.UUID]
    is.) *)
Theorem text_doc_round_trip (fresh : UID) (obj : TextDoc) :
  length (bytes (value (default fresh (id obj)))) = 16%nat →
  proto2object (object2proto fresh obj)
  = Ok {| id := Some (default fresh (id obj));
          token_metas := token_metas obj;
          doc_attributes := doc_attributes obj |}.
Proof.
  intros Hlen. unfold proto2object, object2proto, UUID_of_bytes. simpl.
  rewrite decide_True by done. simpl. unfold mret, result_ret. f_equal.
  rewrite attributes_round_trip. f_equal.
  - by destruct (default fresh (id obj)) as [[b]].
  - rewrite <- list_fmap_compose.
    transitivity (Datatypes.id <$> token_metas obj); [|apply list_fmap_id].
    apply list_fmap_ext. intros i t _. apply token_meta_round_trip.
Qed.

Lemma text_doc_round_trip_witness :
  proto2object (object2proto {| value := {| bytes := [] |} |} hello)
  = Ok {| id := Some (default {| value := {| bytes := [] |} |} (id hello));
          token_metas := token_metas hello;
          doc_attributes := doc_attributes hello |}.
Proof. apply (text_doc_round_trip _ hello). reflexivity. Defined.

(** X22.  The other way round: a message that decodes is the encoding
    of the document it decodes to, whatever id the encoder is offered as a
    default. *)
Theorem text_doc_proto_round_trip (fresh : UID) (proto : TextDoc_PB) (obj : TextDoc) :
  proto2object proto = Ok obj → object2proto fresh obj = proto.
Proof.
  unfold proto2object, UUID_of_bytes. intros H.
  destruct (decide (length (uuid proto) = 16%nat)); [|done]. simpl in H.
  injection H as <-. unfold object2proto. simpl.
  rewrite proto_attributes_round_trip.
  rewrite <- list_fmap_compose.
  assert (token_meta2proto ∘ proto2token_meta <$> pb_token_metas proto
          = pb_token_metas proto) as ->; [|by destruct proto].
  transitivity (Datatypes.id <$> pb_token_metas proto); [|apply list_fmap_id].
  apply list_fmap_ext. intros i t _. apply token_meta_pb_round_trip.
Qed.

Lemma text_doc_proto_round_trip_witness :
  object2proto {| value := {| bytes := [] |} |} hello
  = object2proto {| value := {| bytes := sixteen |} |} hello.
Proof.
  apply (text_doc_proto_round_trip _ (object2proto {| value := {| bytes := sixteen |} |} hello)).
  by vm_compute.
Defined.

End TextDocProperties.

(** ** The product of two gamma tensors, as the loops build it *)

Module ProductLaws.
Import Numpy GammaTensor TensorProperties.

(** A product that returns has found the term [m - 1] in [other]. *)
Lemma product_term_count_le (self other r : IntermediateGammaTensor) (m n : nat) :
  shape_last (term_tensor self) = Ok m →
  shape_last (term_tensor other) = Ok n →
  __mul__ self (Gamma other) = Ok r → (m ≤ n)%nat.
Proof.
  intros Hm Hn Hr.
  destruct (decide (m ≤ n)%nat) as [|Hlt]; [done|]. exfalso.
  unfold __mul__ in Hr. apply bind_Ok in Hr as ([[term coeff] bias] & H & _).
  destruct (decide _); [done|].
  apply bind_Ok in H as (terms & Hterms & _).
  unfold mul_terms in Hterms. rewrite Hm in Hterms. simpl in Hterms.
  apply bind_Ok in Hterms as (cross & _ & Hterms).
  apply bind_Ok in Hterms as (own & _ & Hterms).
  apply bind_Ok in Hterms as (others & Hothers & _).
  destruct m as [|m]; [lia|]. rewrite <- cons_seq in Hothers. simpl in Hothers.
  unfold shape_last in Hn. unfold getitem_last in Hothers.
  destruct (last (shape (term_tensor other))) as [n'|]; [|done].
  injection Hn as ->.
  destruct (decide (m - 0 < n)%nat); [lia|done].
Qed.

(** X24.  When the product of two gamma tensors returns, its term tensor
    has [m * n + m + m] entries along the last axis, [m] and [n] being the
    numbers of terms of [self] and [other]: the [m * n] cross terms, the [m]
    terms of [self], and [m] more taken from [other].  That is the
    [m * n + m + n] of a polynomial product when [m = n]. *)
Theorem product_term_count (self other r : IntermediateGammaTensor) (m n : nat) :
  shape_last (term_tensor self) = Ok m →
  shape_last (term_tensor other) = Ok n →
  __mul__ self (Gamma other) = Ok r →
  shape_last (term_tensor r) = Ok (m * n + m + m)%nat ∧
  (m = n → shape_last (term_tensor r) = Ok (m * n + m + n)%nat) ∧
  (m ≤ n)%nat.
Proof.
  intros Hm Hn Hr.
  pose proof (mul_trailing_length self other r m n Hm Hn Hr) as Hlen.
  split; [done|]. split; [by intros <-|].
  by apply (product_term_count_le self other r m n).
Qed.

Lemma product_term_count_witness :
  shape_last (term_tensor product_example) = Ok (1 * 2 + 1 + 1)%nat ∧
  (1%nat = 2%nat → shape_last (term_tensor product_example) = Ok (1 * 2 + 1 + 2)%nat) ∧
  (1 ≤ 2)%nat.
Proof.
  apply (product_term_count one_term two_terms product_example 1 2); reflexivity.
Defined.

(** X25.  When [self] has more terms than [other], the product raises:
    the third loop indexes [other] with the last term number of [self]. *)
Theorem product_raises_when_longer (self other : IntermediateGammaTensor) (m n : nat) :
  shape_last (term_tensor self) = Ok m →
  shape_last (term_tensor other) = Ok n →
  (n < m)%nat →
  raises (__mul__ self (Gamma other)).
Proof.
  intros Hm Hn Hlt.
  destruct (__mul__ self (Gamma other)) as [r|] eqn:Hr; [|done].
  pose proof (product_term_count_le self other r m n Hm Hn Hr). lia.
Qed.

Lemma product_raises_when_longer_witness : raises (__mul__ two_terms (Gamma one_term)).
Proof.
  apply (product_raises_when_longer two_terms one_term 2 1); [reflexivity|reflexivity|lia].
Defined.

End ProductLaws.
